(** * EduSphere: chunked video delivery and playback

    A shallow embedding of the byte-range segment server
    ([backend/controllers/videoController.js], [backend/middleware/auth.js],
    [backend/utils/errors.js]) and of the client stream controller
    ([src/pages/user/CoursePlayerPage.tsx]), with the properties of the
    design document proved or refuted on it.  Around them, the helpers of
    [backend/utils/helpers.js], the URL builders of [src/services/api.ts]
    and the navigation between the videos of a course are embedded and
    verified as well.

    JavaScript numbers are modelled by [Js.Num]: [NaN], the two infinities
    and exact integers.  The model is exact for integers in the safe range
    (magnitude at most 2^53), which covers every byte offset of a stored
    file; [parseInt] and the conversion to a string do not round larger
    values to 53 bits.  Where the code divides and multiplies numbers that
    are not integers (the seek position) or whose product can leave the
    safe range (the pagination), the arithmetic is that of doubles, in
    [Ieee]. *)

From Stdlib Require Import ZArith List String Ascii Bool Lia Lqa.
From Stdlib Require Import DecimalString DecimalN DecimalPos.
From Stdlib Require Import QArith Qround Qpower.
Import ListNotations.
Open Scope string_scope.
Open Scope Z_scope.

(* ===================================================================== *)
(** ** JavaScript values and built-ins used by the code                   *)
(* ===================================================================== *)

Module Js.

(** A JavaScript number as far as the code can observe it. *)
Inductive Num : Type :=
| NaN
| Int (z : Z)
| PosInf
| NegInf.

(** [Number.isFinite]: the integer behind a number that passes it. *)
Definition finite (n : Num) : option Z :=
  match n with Int z => Some z | _ => None end.

(** Integers at or beyond this magnitude convert to an infinity. *)
Definition DOUBLE_OVERFLOW : Z := 2 ^ 1024 - 2 ^ 970.

(** [Number.MAX_SAFE_INTEGER]: up to here every integer is a double. *)
Definition MAX_SAFE_INTEGER : Z := 2 ^ 53 - 1.

Definition ofInteger (z : Z) : Num :=
  if DOUBLE_OVERFLOW <=? z then PosInf
  else if z <=? - DOUBLE_OVERFLOW then NegInf
  else Int z.

(** Strings are sequences of code units below 256. *)
Definition isWhiteSpace (c : ascii) : bool :=
  let n := nat_of_ascii c in
  ((n =? 9) || (n =? 10) || (n =? 11) || (n =? 12) || (n =? 13)
   || (n =? 32) || (n =? 160))%nat.

Fixpoint trimStart (s : string) : string :=
  match s with
  | String c r => if isWhiteSpace c then trimStart r else s
  | EmptyString => EmptyString
  end.

Definition digitValue (c : ascii) : option N :=
  let n := N_of_ascii c in
  if ((48 <=? n) && (n <=? 57))%N then Some (n - 48)%N else None.

(** The longest prefix of decimal digits, as a number; [None] when the
    prefix is empty. *)
Fixpoint scanDigits (s : string) (acc : N) (seen : bool) : option N :=
  match s with
  | String c r =>
      match digitValue c with
      | Some d => scanDigits r (10 * acc + d)%N true
      | None => if seen then Some acc else None
      end
  | EmptyString => if seen then Some acc else None
  end.

(** [Number.parseInt(s, 10)] on a string: the value of the digits, which
    is the number [parseInt] returns as long as a double holds it exactly,
    as it does up to [2 ^ 53]. *)
Definition parseIntStr (s : string) : Num :=
  let t := trimStart s in
  let '(neg, body) :=
    match t with
    | String "-" r => (true, r)
    | String "+" r => (false, r)
    | _ => (false, t)
    end in
  match scanDigits body 0%N false with
  | None => NaN
  | Some m => ofInteger (if neg then - Z.of_N m else Z.of_N m)
  end.

(** [Number.parseInt(v, 10)] on a value that is a string or [undefined]
    ([None]); [undefined] is first converted to the string "undefined". *)
Definition parseInt (v : option string) : Num :=
  match v with
  | Some s => parseIntStr s
  | None => parseIntStr "undefined"
  end.

(** Truthiness of a string-or-undefined value. *)
Definition truthy (v : option string) : bool :=
  match v with
  | Some EmptyString => false
  | Some _ => true
  | None => false
  end.

(** Conversion of an integer to a string, as in a template literal
    (decimal digits, exact below 10^21). *)
Definition toString (z : Z) : string :=
  if z <? 0 then String "-" (NilZero.string_of_uint (N.to_uint (Z.abs_N z)))
  else NilZero.string_of_uint (N.to_uint (Z.to_N z)).

(** [s.startsWith(p)]. *)
Fixpoint startsWith (p s : string) : bool :=
  match p, s with
  | EmptyString, _ => true
  | String a p', String b s' => Ascii.eqb a b && startsWith p' s'
  | String _ _, EmptyString => false
  end.

Fixpoint drop (n : nat) (s : string) : string :=
  match n, s with
  | O, _ => s
  | S n', String _ r => drop n' r
  | S _, EmptyString => EmptyString
  end.

(** [s.replace(p, "")] with a literal, non-empty pattern: the first
    occurrence of [p] is removed. *)
Fixpoint removeFirst (p s : string) : string :=
  if startsWith p s then drop (String.length p) s
  else match s with
       | String c r => String c (removeFirst p r)
       | EmptyString => EmptyString
       end.

(** [s.split(c)] for a one-character separator: never the empty list. *)
Fixpoint split (c : ascii) (s : string) : list string :=
  match s with
  | EmptyString => [EmptyString]
  | String a r =>
      if Ascii.eqb a c then EmptyString :: split c r
      else match split c r with
           | x :: xs => String a x :: xs
           | [] => [String a EmptyString]
           end
  end.

(** The value of a digit sequence read left to right onto [acc]. *)
Fixpoint uintValue (u : Decimal.uint) (acc : N) : N :=
  match u with
  | Decimal.Nil => acc
  | Decimal.D0 d => uintValue d (10 * acc + 0)
  | Decimal.D1 d => uintValue d (10 * acc + 1)
  | Decimal.D2 d => uintValue d (10 * acc + 2)
  | Decimal.D3 d => uintValue d (10 * acc + 3)
  | Decimal.D4 d => uintValue d (10 * acc + 4)
  | Decimal.D5 d => uintValue d (10 * acc + 5)
  | Decimal.D6 d => uintValue d (10 * acc + 6)
  | Decimal.D7 d => uintValue d (10 * acc + 7)
  | Decimal.D8 d => uintValue d (10 * acc + 8)
  | Decimal.D9 d => uintValue d (10 * acc + 9)
  end%N.

End Js.

(* ===================================================================== *)
(** ** Double-precision arithmetic                                        *)
(* ===================================================================== *)

(** The result of [+], [-], [*] and [/] on doubles is the exact result
    rounded to the nearest double, the one with the even significand of
    two, and an infinity from [2 ^ 1024 - 2 ^ 970] on.  A double is a
    significand of at most 53 bits times a power of two. *)

Module Ieee.

(** The exponents of the last place of a double. *)
Definition EMIN : Z := -1074.
Definition EMAX : Z := 971.

(** What a double holds, apart from [NaN]. *)
Inductive Real : Type :=
| Finite (q : Q)
| Infinite (negative : bool).

(** [n * 2 ^ k], as a fraction, for an exponent of either sign. *)
Definition scaled (n k : Z) : Q :=
  Qmake (n * 2 ^ Z.max k 0) (Z.to_pos (2 ^ Z.max (- k) 0)).

(** The [k] with [2 ^ k <= n / d < 2 ^ (k + 1)], for positive [n], [d]. *)
Definition ilog2 (n d : Z) : Z :=
  let k := Z.log2 n - Z.log2 d in
  if d * 2 ^ Z.max k 0 <=? n * 2 ^ Z.max (- k) 0 then k else k - 1.

(** The integer nearest to [n / d], the even one of two. *)
Definition nearestEven (n d : Z) : Z :=
  let q := n / d in
  match 2 * (n mod d) ?= d with
  | Lt => q
  | Gt => q + 1
  | Eq => if Z.even q then q else q + 1
  end.

(** The exponent of the last place and the significand of the double
    nearest to [n / d]. *)
Definition exponent (n d : Z) : Z := Z.max (ilog2 n d - 52) EMIN.

Definition significand (n d : Z) : Z :=
  let e := exponent n d in
  nearestEven (n * 2 ^ Z.max (- e) 0) (d * 2 ^ Z.max e 0).

Definition roundPositive (n d : Z) : option Q :=
  let e := exponent n d in
  let m := significand n d in
  if (EMAX <? e) || ((e =? EMAX) && (2 ^ 53 <=? m)) then None
  else Some (scaled m e).

(** The double nearest to a real number. *)
Definition round (q : Q) : Real :=
  match Qnum q with
  | 0 => Finite 0
  | Zpos n =>
      match roundPositive (Zpos n) (Zpos (Qden q)) with
      | Some r => Finite r
      | None => Infinite false
      end
  | Zneg n =>
      match roundPositive (Zpos n) (Zpos (Qden q)) with
      | Some r => Finite (- r)
      | None => Infinite true
      end
  end.

(** The double nearest to an integer, which is an integer again, as a
    JavaScript number. *)
Definition number (z : Z) : Js.Num :=
  match round (inject_Z z) with
  | Finite q => Js.Int (Qfloor q)
  | Infinite true => Js.NegInf
  | Infinite false => Js.PosInf
  end.

(** Half a unit in the last place of a number between 1 and 2, and half
    the smallest positive double. *)
Definition ULP53 : Q := 1 # (2 ^ 53).
Definition TINY : Q := 1 # (2 ^ 1075).

(** The order of the extended reals. *)
Definition leReal (a b : Real) : Prop :=
  match a, b with
  | Infinite true, _ => True
  | _, Infinite false => True
  | Finite x, Finite y => (x <= y)%Q
  | _, _ => False
  end.

End Ieee.

(* ===================================================================== *)
(** ** backend/utils/errors.js                                            *)
(* ===================================================================== *)

Module Errors.

Record AppError : Type := mkAppError {
  message : string;
  statusCode : Z;
  code : string
}.

Definition notFound (resource : string) : AppError :=
  mkAppError (resource ++ " not found") 404 "NOT_FOUND".

Definition courseNotPurchased : AppError :=
  mkAppError "You have not purchased this course" 403 "COURSE_NOT_PURCHASED".

(** What a handler can throw: an [AppError], or a runtime error of the
    platform. *)
Inductive Exn : Type :=
| App (e : AppError)
| TypeError
| RangeError.

(** The status the global error handler answers with. *)
Definition statusOf (x : Exn) : Z :=
  match x with
  | App e => statusCode e
  | TypeError => 500
  | RangeError => 500
  end.

End Errors.

(* ===================================================================== *)
(** ** The persistence and file-storage collaborators                     *)
(* ===================================================================== *)

Module Store.

Record User : Type := mkUser { user_id : string }.

Record Course : Type := mkCourse {
  course_id : string;      (* _id *)
  courseId : string;       (* public slug, also the directory name *)
  creator : string         (* _id of the owning user *)
}.

Record Video : Type := mkVideo {
  video_id : string;       (* _id *)
  videoId : string;
  title : string;
  duration : Z;
  mimeType : option string;
  filename : string;
  course : string          (* _id of the owning course *)
}.

Record Purchase : Type := mkPurchase {
  purchase_user : string;
  purchase_course : string
}.

(** A stored file is identified by its course directory and file name
    below the fixed data directory. *)
Definition Path : Type := (string * string)%type.

Record Db : Type := mkDb {
  users : list User;
  courses : list Course;
  videos : list Video;
  purchases : list Purchase;
  files : list (Path * list Byte.byte)
}.

Definition path_eqb (p q : Path) : bool :=
  String.eqb (fst p) (fst q) && String.eqb (snd p) (snd q).

(** [User.findById]. *)
Definition findUserById (db : Db) (id : string) : option User :=
  find (fun u => String.eqb (user_id u) id) (users db).

(** [Video.findOne({ $or: [{ _id }, { videoId }] })]. *)
Definition findVideo (db : Db) (identifier : string) : option Video :=
  find (fun v => String.eqb (video_id v) identifier
                 || String.eqb (videoId v) identifier) (videos db).

(** [.populate("course")]. *)
Definition populateCourse (db : Db) (v : Video) : option Course :=
  find (fun c => String.eqb (course_id c) (course v)) (courses db).

(** [Purchase.findOne({ user, course })]. *)
Definition findPurchase (db : Db) (user course : string) : option Purchase :=
  find (fun p => String.eqb (purchase_user p) user
                 && String.eqb (purchase_course p) course) (purchases db).

(** [fs.existsSync] and the content behind [fs.statSync] and
    [fs.createReadStream]. *)
Definition readFile (db : Db) (p : Path) : option (list Byte.byte) :=
  option_map snd (find (fun e => path_eqb (fst e) p) (files db)).

End Store.

(* ===================================================================== *)
(** ** HTTP requests and what a handler produces                          *)
(* ===================================================================== *)

Module Http.

(** The parts of a request the handlers read.  A header or query value is
    a string or absent; a repeated or nested query parameter reaches
    [parseInt] through its string conversion, so it is a string here. *)
Record Request : Type := mkRequest {
  authorization : option string;   (* req.headers.authorization *)
  range : option string;           (* req.headers.range *)
  query_token : option string;     (* req.query.token *)
  query_start : option string;     (* req.query.start *)
  query_end : option string;       (* req.query.end *)
  param_videoId : string           (* req.params.videoId *)
}.

Inductive HeaderValue : Type :=
| HStr (s : string)
| HNum (z : Z).

Definition Head : Type := list (string * HeaderValue).

Definition header (name : string) (h : Head) : option HeaderValue :=
  option_map snd (find (fun e => String.eqb (fst e) name) h).

(** [fs.createReadStream(path, { start, end })]: the inclusive byte window,
    or the out-of-range error the constructor raises for a negative offset
    or for [start > end]. *)
Inductive ReadStream : Type :=
| Reading (bytes : list Byte.byte)
| OutOfRange.

Definition slice (file : list Byte.byte) (start end_ : Z) : list Byte.byte :=
  firstn (Z.to_nat (end_ - start + 1)) (skipn (Z.to_nat start) file).

Definition createReadStream (file : list Byte.byte) (start end_ : Z)
  : ReadStream :=
  if (0 <=? start) && (start <=? end_)
  then Reading (slice file start end_)
  else OutOfRange.

Record Metadata : Type := mkMetadata {
  meta_id : string;
  meta_videoId : string;
  meta_title : string;
  meta_duration : Z;
  meta_size : Z;
  meta_mimeType : string;
  meta_filename : string
}.

Inductive Outcome : Type :=
| Failed (x : Errors.Exn)
    (* passed to [next]: the error handler answers with [statusOf x] *)
| Streamed (status : Z) (head : Head) (body : ReadStream)
    (* [res.writeHead(status, head)], then the read stream piped *)
| JsonOk (metadata : Metadata).
    (* [res.json({ success: true, data: { metadata } })], status 200 *)

Definition status (o : Outcome) : Z :=
  match o with
  | Failed x => Errors.statusOf x
  | Streamed st _ _ => st
  | JsonOk _ => 200
  end.


End Http.

(* ===================================================================== *)
(** ** backend/middleware/auth.js                                         *)
(* ===================================================================== *)

Module Auth.
Import Errors Store Http.

Definition unauthorized (msg : string) : AppError :=
  mkAppError msg 401 "UNAUTHORIZED".

(** The token a request carries: the second word of a [Bearer]
    authorization header, else the [token] query parameter. *)
Definition requestToken (req : Request) : option string :=
  let fromHeader :=
    match authorization req with
    | Some h =>
        if Js.truthy (Some h) && Js.startsWith "Bearer" h
        then nth_error (Js.split " " h) 1
        else None
    | None => None
    end in
  if negb (Js.truthy fromHeader) && Js.truthy (query_token req)
  then query_token req
  else fromHeader.

Section Protect.

(** [jwt.verify(token, process.env.JWT_SECRET)]: the [id] the token was
    signed for, or [None] when verification throws. *)
Variable verify : string -> option string.

(** [protect]: the user attached to the request, or the error passed on. *)
Definition protect (db : Db) (req : Request) : AppError + User :=
  match requestToken req with
  | Some token =>
      if Js.truthy (Some token) then
        match verify token with
        | Some id =>
            match findUserById db id with
            | Some user => inr user
            | None => inl (unauthorized "User not found")
            end
        | None => inl (unauthorized "Not authorized, invalid token")
        end
      else inl (unauthorized "Not authorized, no token provided")
  | None => inl (unauthorized "Not authorized, no token provided")
  end.

End Protect.

End Auth.

(* ===================================================================== *)
(** ** backend/controllers/videoController.js                             *)
(* ===================================================================== *)

Module VideoController.
Import Errors Store Http.

Definition DEFAULT_CHUNK_SIZE : Z := 5 * 1024 * 1024.
Definition DEFAULT_MIME_TYPE : string := "video/mp4".

Record Resource : Type := mkResource {
  video : Video;
  res_course : Course;
  file : list Byte.byte;       (* the content at [filePath] *)
  fileSize : Z                 (* [fs.statSync(filePath).size] *)
}.

(** [resolveVideoResource(videoIdentifier, user)]. *)
Definition resolveVideoResource (db : Db) (videoIdentifier : string)
    (user : User) : Exn + Resource :=
  match findVideo db videoIdentifier with
  | None => inl (App (notFound "Video"))
  | Some v =>
      match populateCourse db v with
      | None => inl TypeError          (* [course.creator] of [null] *)
      | Some c =>
          let isCreator := String.eqb (creator c) (user_id user) in
          let denied :=
            if negb isCreator
            then match findPurchase db (user_id user) (course_id c) with
                 | Some _ => false
                 | None => true
                 end
            else false in
          if denied then inl (App courseNotPurchased)
          else
            match readFile db (courseId c, filename v) with
            | None => inl (App (notFound "Video file"))
            | Some bytes =>
                inr (mkResource v c bytes (Z.of_nat (List.length bytes)))
            end
      end
  end.

(** [video.mimeType || DEFAULT_MIME_TYPE]. *)
Definition mimeOf (v : Video) : string :=
  match mimeType v with
  | Some m => if Js.truthy (Some m) then m else DEFAULT_MIME_TYPE
  | None => DEFAULT_MIME_TYPE
  end.

(** [start = Number.isFinite(start) && start >= 0 ? start : 0]. *)
Definition clampStart (start : Js.Num) : Z :=
  match Js.finite start with
  | Some z => if 0 <=? z then z else 0
  | None => 0
  end.

(** The [if (!Number.isFinite(end) || end < start) ... else ...] that
    both handlers share. *)
Definition clampEnd (fileSize start : Z) (end_ : Js.Num) : Z :=
  match Js.finite end_ with
  | Some e =>
      if e <? start
      then Z.min (start + DEFAULT_CHUNK_SIZE - 1) (fileSize - 1)
      else Z.min e (fileSize - 1)
  | None => Z.min (start + DEFAULT_CHUNK_SIZE - 1) (fileSize - 1)
  end.

Definition contentRange (start end_ fileSize : Z) : string :=
  "bytes " ++ Js.toString start ++ "-" ++ Js.toString end_
           ++ "/" ++ Js.toString fileSize.

Definition partialHead (v : Video) (start end_ fileSize : Z) : Head :=
  [ ("Content-Range", HStr (contentRange start end_ fileSize));
    ("Accept-Ranges", HStr "bytes");
    ("Content-Length", HNum (end_ - start + 1));
    ("Content-Type", HStr (mimeOf v));
    ("Cache-Control", HStr "no-store") ].

Definition fullHead (v : Video) (fileSize : Z) : Head :=
  [ ("Content-Length", HNum fileSize);
    ("Content-Type", HStr (mimeOf v));
    ("Accept-Ranges", HStr "bytes");
    ("Cache-Control", HStr "no-store") ].

(** The window [streamVideoSegment] computes from its two parsed query
    parameters. *)
Definition segmentWindow (fileSize : Z) (start0 end0 : Js.Num) : Z * Z :=
  let start := clampStart start0 in
  let end_ := clampEnd fileSize start end0 in
  if fileSize <=? start
  then (Z.max 0 (fileSize - DEFAULT_CHUNK_SIZE), fileSize - 1)
  else (start, end_).

(** The window [streamVideo] computes from its two parsed range parts. *)
Definition streamWindow (fileSize : Z) (start0 end0 : Js.Num) : Z * Z :=
  let start := clampStart start0 in
  let end_ := clampEnd fileSize start end0 in
  (start, end_).

(** The two numbers [streamVideo] reads off a range header;
    [undefined], like [NaN], is not finite. *)
Definition parseRange (range : string) : Js.Num * Js.Num :=
  let parts := Js.split "-" (Js.removeFirst "bytes=" range) in
  let start := Js.parseInt (Some (nth 0 parts EmptyString)) in
  let end_ :=
    if Js.truthy (nth_error parts 1)
    then Js.parseInt (nth_error parts 1)
    else Js.NaN in
  (start, end_).

(** [streamVideoSegment], after [protect]. *)
Definition streamVideoSegment (db : Db) (req : Request) (user : User)
  : Outcome :=
  match resolveVideoResource db (param_videoId req) user with
  | inl x => Failed x
  | inr r =>
      let '(start, end_) :=
        segmentWindow (fileSize r)
          (Js.parseInt (query_start req)) (Js.parseInt (query_end req)) in
      Streamed 206 (partialHead (video r) start end_ (fileSize r))
               (createReadStream (file r) start end_)
  end.

(** [streamVideo], after [protect]. *)
Definition streamVideo (db : Db) (req : Request) (user : User) : Outcome :=
  match resolveVideoResource db (param_videoId req) user with
  | inl x => Failed x
  | inr r =>
      if Js.truthy (range req) then
        let '(start0, end0) :=
          parseRange (match range req with Some s => s | None => "" end) in
        let '(start, end_) := streamWindow (fileSize r) start0 end0 in
        Streamed 206 (partialHead (video r) start end_ (fileSize r))
                 (createReadStream (file r) start end_)
      else
        Streamed 200 (fullHead (video r) (fileSize r)) (Reading (file r))
  end.

(** [getVideoMetadata], after [protect]. *)
Definition getVideoMetadata (db : Db) (req : Request) (user : User)
  : Outcome :=
  match resolveVideoResource db (param_videoId req) user with
  | inl x => Failed x
  | inr r =>
      let v := video r in
      JsonOk (mkMetadata (video_id v) (videoId v) (title v) (duration v)
                         (fileSize r) (mimeOf v) (filename v))
  end.

(** The three operations of the router, which runs [protect] first. *)
Inductive Operation : Type := OpMetadata | OpSegment | OpStream.

Definition handler (op : Operation) : Db -> Request -> User -> Outcome :=
  match op with
  | OpMetadata => getVideoMetadata
  | OpSegment => streamVideoSegment
  | OpStream => streamVideo
  end.

Section Router.

Variable verify : string -> option string.

Definition serve (op : Operation) (db : Db) (req : Request) : Outcome :=
  match Auth.protect verify db req with
  | inl e => Failed (App e)
  | inr user => handler op db req user
  end.

End Router.

End VideoController.

(* ===================================================================== *)
(** ** src/pages/user/CoursePlayerPage.tsx: the stream controller         *)
(* ===================================================================== *)

Module Player.

Definition STREAM_CHUNK_SIZE : Z := 2 * 1024 * 1024.

(** [MediaSource.readyState]. *)
Inductive ReadyState : Type := Closed | Open | Ended.

(** The refs and the React state the streaming callbacks read and write.
    Times are rationals (a double is one).  [inFlight] is not a field of
    the program: it lists the segment requests whose [await] has not
    resumed yet. *)
Record Session : Type := mkSession {
  useMediaSource : bool;
  currentVideoId : option string;
  videoElement : bool;               (* videoRef.current is attached *)
  duration : Q;
  mediaSource : option ReadyState;   (* mediaSourceRef.current *)
  sourceBuffer : option bool;        (* sourceBufferRef.current, [updating] *)
  fileSize : Z;                      (* fileSizeRef *)
  chunkPointer : Z;                  (* chunkPointerRef *)
  isFetchingChunk : bool;            (* isFetchingChunkRef *)
  pendingSeekByte : option Z;        (* pendingSeekByteRef *)
  isClearingBuffer : bool;           (* isClearingBufferRef *)
  hasStartedPlayback : bool;         (* hasStartedPlaybackRef *)
  isVideoLoading : bool;
  videoError : option string;
  inFlight : list (string * Z * Z)
}.

Definition set_useMediaSource (x : bool) (s : Session) : Session :=
  mkSession x (currentVideoId s) (videoElement s) (duration s)
    (mediaSource s) (sourceBuffer s) (fileSize s) (chunkPointer s)
    (isFetchingChunk s) (pendingSeekByte s) (isClearingBuffer s)
    (hasStartedPlayback s) (isVideoLoading s) (videoError s) (inFlight s).

Definition set_currentVideoId (x : option string) (s : Session) : Session :=
  mkSession (useMediaSource s) x (videoElement s) (duration s)
    (mediaSource s) (sourceBuffer s) (fileSize s) (chunkPointer s)
    (isFetchingChunk s) (pendingSeekByte s) (isClearingBuffer s)
    (hasStartedPlayback s) (isVideoLoading s) (videoError s) (inFlight s).

Definition set_duration (x : Q) (s : Session) : Session :=
  mkSession (useMediaSource s) (currentVideoId s) (videoElement s) x
    (mediaSource s) (sourceBuffer s) (fileSize s) (chunkPointer s)
    (isFetchingChunk s) (pendingSeekByte s) (isClearingBuffer s)
    (hasStartedPlayback s) (isVideoLoading s) (videoError s) (inFlight s).

Definition set_mediaSource (x : option ReadyState) (s : Session) : Session :=
  mkSession (useMediaSource s) (currentVideoId s) (videoElement s)
    (duration s) x (sourceBuffer s) (fileSize s) (chunkPointer s)
    (isFetchingChunk s) (pendingSeekByte s) (isClearingBuffer s)
    (hasStartedPlayback s) (isVideoLoading s) (videoError s) (inFlight s).

Definition set_sourceBuffer (x : option bool) (s : Session) : Session :=
  mkSession (useMediaSource s) (currentVideoId s) (videoElement s)
    (duration s) (mediaSource s) x (fileSize s) (chunkPointer s)
    (isFetchingChunk s) (pendingSeekByte s) (isClearingBuffer s)
    (hasStartedPlayback s) (isVideoLoading s) (videoError s) (inFlight s).

Definition set_fileSize (x : Z) (s : Session) : Session :=
  mkSession (useMediaSource s) (currentVideoId s) (videoElement s)
    (duration s) (mediaSource s) (sourceBuffer s) x (chunkPointer s)
    (isFetchingChunk s) (pendingSeekByte s) (isClearingBuffer s)
    (hasStartedPlayback s) (isVideoLoading s) (videoError s) (inFlight s).

Definition set_chunkPointer (x : Z) (s : Session) : Session :=
  mkSession (useMediaSource s) (currentVideoId s) (videoElement s)
    (duration s) (mediaSource s) (sourceBuffer s) (fileSize s) x
    (isFetchingChunk s) (pendingSeekByte s) (isClearingBuffer s)
    (hasStartedPlayback s) (isVideoLoading s) (videoError s) (inFlight s).

Definition set_isFetchingChunk (x : bool) (s : Session) : Session :=
  mkSession (useMediaSource s) (currentVideoId s) (videoElement s)
    (duration s) (mediaSource s) (sourceBuffer s) (fileSize s)
    (chunkPointer s) x (pendingSeekByte s) (isClearingBuffer s)
    (hasStartedPlayback s) (isVideoLoading s) (videoError s) (inFlight s).

Definition set_pendingSeekByte (x : option Z) (s : Session) : Session :=
  mkSession (useMediaSource s) (currentVideoId s) (videoElement s)
    (duration s) (mediaSource s) (sourceBuffer s) (fileSize s)
    (chunkPointer s) (isFetchingChunk s) x (isClearingBuffer s)
    (hasStartedPlayback s) (isVideoLoading s) (videoError s) (inFlight s).

Definition set_isClearingBuffer (x : bool) (s : Session) : Session :=
  mkSession (useMediaSource s) (currentVideoId s) (videoElement s)
    (duration s) (mediaSource s) (sourceBuffer s) (fileSize s)
    (chunkPointer s) (isFetchingChunk s) (pendingSeekByte s) x
    (hasStartedPlayback s) (isVideoLoading s) (videoError s) (inFlight s).

Definition set_hasStartedPlayback (x : bool) (s : Session) : Session :=
  mkSession (useMediaSource s) (currentVideoId s) (videoElement s)
    (duration s) (mediaSource s) (sourceBuffer s) (fileSize s)
    (chunkPointer s) (isFetchingChunk s) (pendingSeekByte s)
    (isClearingBuffer s) x (isVideoLoading s) (videoError s) (inFlight s).

Definition set_isVideoLoading (x : bool) (s : Session) : Session :=
  mkSession (useMediaSource s) (currentVideoId s) (videoElement s)
    (duration s) (mediaSource s) (sourceBuffer s) (fileSize s)
    (chunkPointer s) (isFetchingChunk s) (pendingSeekByte s)
    (isClearingBuffer s) (hasStartedPlayback s) x (videoError s) (inFlight s).

Definition set_videoError (x : option string) (s : Session) : Session :=
  mkSession (useMediaSource s) (currentVideoId s) (videoElement s)
    (duration s) (mediaSource s) (sourceBuffer s) (fileSize s)
    (chunkPointer s) (isFetchingChunk s) (pendingSeekByte s)
    (isClearingBuffer s) (hasStartedPlayback s) (isVideoLoading s) x
    (inFlight s).

Definition set_inFlight (x : list (string * Z * Z)) (s : Session) : Session :=
  mkSession (useMediaSource s) (currentVideoId s) (videoElement s)
    (duration s) (mediaSource s) (sourceBuffer s) (fileSize s)
    (chunkPointer s) (isFetchingChunk s) (pendingSeekByte s)
    (isClearingBuffer s) (hasStartedPlayback s) (isVideoLoading s)
    (videoError s) x.

(** What the controller asks of the network and of the media buffer. *)
Inductive Action : Type :=
| Fetch (videoId : string) (start end_ : Z)     (* fetchSegment *)
| AppendBuffer (start end_ : Z)                 (* sourceBuffer.appendBuffer *)
| EndOfStream                                   (* mediaSource.endOfStream *)
| FetchMetadata (videoId : string)
| LoadDirect (videoId : string).                (* video.src = stream URL *)

(** [cleanupMediaSource]: the buffer and the media source are released
    and the six refs reset. *)
Definition cleanupMediaSource (s : Session) : Session :=
  mkSession (useMediaSource s) (currentVideoId s) (videoElement s)
    (duration s)
    None          (* mediaSourceRef.current = null *)
    None          (* sourceBufferRef.current = null *)
    0             (* fileSizeRef.current = 0 *)
    0             (* chunkPointerRef.current = 0 *)
    false         (* isFetchingChunkRef.current = false *)
    None          (* pendingSeekByteRef.current = null *)
    false         (* isClearingBufferRef.current = false *)
    false         (* hasStartedPlaybackRef.current = false *)
    (isVideoLoading s) (videoError s) (inFlight s).

(** [mediaSource.endOfStream()] inside its [try]: refused while the source
    buffer is updating, else the media source becomes [Ended]. *)
Definition endOfStream (s : Session) : Session :=
  match sourceBuffer s with
  | Some true => s
  | _ => set_mediaSource (Some Ended) s
  end.

(** [appendNextChunk] up to its [await]. *)
Definition appendNextChunk (s : Session) : Session * list Action :=
  if negb (useMediaSource s) then (s, [])
  else
    match currentVideoId s, sourceBuffer s, mediaSource s with
    | Some activeVideoId, Some updating, Some readyState =>
        if negb (Js.truthy (Some activeVideoId)) then (s, [])
        else if isFetchingChunk s || updating then (s, [])
        else if fileSize s =? 0 then (s, [])
        else if fileSize s <=? chunkPointer s then
          match readyState with
          | Open => (endOfStream s, [EndOfStream])
          | _ => (s, [])
          end
        else
          let start := chunkPointer s in
          let end_ := Z.min (start + STREAM_CHUNK_SIZE - 1) (fileSize s - 1) in
          (set_inFlight (inFlight s ++ [(activeVideoId, start, end_)])%list
             (set_isFetchingChunk true s),
           [Fetch activeVideoId start end_])
    | _, _, _ => (s, [])
    end.

(** The [catch] and [finally] of [appendNextChunk]. *)
Definition fragmentFailed (s : Session) : Session :=
  set_isFetchingChunk false
    (set_isVideoLoading false
      (set_videoError
         (Some "Failed to fetch video fragment. Please try again.") s)).

(** [appendNextChunk] from its [await] on, for the request [(start, end_)]
    that resolved ([ok]) or was rejected.  The comparison of
    [activeVideoId] with [currentVideoId] reads both from the same render
    closure and never differs.  [appendBuffer] raises while the buffer is
    updating. *)
Definition resumeAppend (ok : bool) (start end_ : Z) (s : Session)
  : Session * list Action :=
  if ok then
    match sourceBuffer s with
    | None => (set_isFetchingChunk false s, [])
    | Some true => (fragmentFailed s, [])
    | Some false =>
        let s1 := set_chunkPointer (end_ + 1) (set_sourceBuffer (Some true) s) in
        let s2 :=
          if hasStartedPlayback s1 then s1
          else set_isVideoLoading false (set_hasStartedPlayback true s1) in
        (set_isFetchingChunk false s2, [AppendBuffer start end_])
    end
  else (fragmentFailed s, []).

(** [handleSourceBufferUpdateEnd]. *)
Definition handleSourceBufferUpdateEnd (s : Session) : Session * list Action :=
  if negb (useMediaSource s) then (s, [])
  else if isClearingBuffer s then
    let s1 := set_isClearingBuffer false s in
    let s2 :=
      match pendingSeekByte s1 with
      | Some b => set_pendingSeekByte None (set_chunkPointer b s1)
      | None => s1
      end in
    appendNextChunk s2
  else if fileSize s <=? chunkPointer s then
    match mediaSource s with
    | Some Open => (endOfStream s, [EndOfStream])
    | _ => (s, [])
    end
  else appendNextChunk s.

(** How the buffer answers the [abort(); remove(0, removeEnd)] of a seek. *)
Inductive ClearResult : Type :=
| Cleared        (* both accepted: the removal is running *)
| AbortRaised    (* [abort()] raised, e.g. the media source is not open *)
| RemoveRaised.  (* [abort()] went through, [remove()] raised *)

(** [clearSourceBufferForSeek]. *)
Definition clearSourceBufferForSeek (r : ClearResult) (s : Session) : Session :=
  if negb (useMediaSource s) then s
  else
    match sourceBuffer s, mediaSource s with
    | Some _, Some _ =>
        let s1 := set_isClearingBuffer true s in
        match r with
        | Cleared => set_sourceBuffer (Some true) s1
        | AbortRaised => set_isClearingBuffer false s1
        | RemoveRaised =>
            set_isClearingBuffer false (set_sourceBuffer (Some false) s1)
        end
    | _, _ => s
    end.

(** The byte a playback position maps to:
    [Math.min(size - 1, Math.max(0, Math.floor(size * ratio)))] with
    [ratio = currentTime / duration], the quotient and the product each
    rounded to a double.  It is computed for a positive duration and a size
    other than zero, so neither is [NaN]; [size] is a safe integer, so
    that [size - 1] is exact. *)
Definition targetByte (size : Z) (currentTime dur : Q) : Z :=
  let product :=
    match Ieee.round (currentTime / dur) with
    | Ieee.Finite ratio => Ieee.round (inject_Z size * ratio)
    | Ieee.Infinite negative => Ieee.Infinite (xorb negative (size <? 0))
    end in
  match product with
  | Ieee.Finite p => Z.min (size - 1) (Z.max 0 (Qfloor p))
  | Ieee.Infinite false => size - 1
  | Ieee.Infinite true => Z.min (size - 1) 0
  end.

Arguments targetByte : simpl never.

(** [handleFragmentedSeek], with the position [videoRef.current.currentTime]. *)
Definition handleFragmentedSeek (currentTime : Q) (r : ClearResult)
    (s : Session) : Session :=
  if negb (useMediaSource s) || negb (videoElement s)
     || Qle_bool (duration s) 0 || (fileSize s =? 0)
  then s
  else
    let target := targetByte (fileSize s) currentTime (duration s) in
    clearSourceBufferForSeek r
      (set_isVideoLoading true
        (set_hasStartedPlayback false
          (set_pendingSeekByte (Some target) s))).

(** [fallbackToDirectStream] of [initializeStream]: the callback alone.
    The render that its [setUseMediaSource(false)] brings about is
    [Lifecycle.rerunStreamEffect]. *)
Definition fallbackToDirectStream (s : Session) : Session * list Action :=
  if negb (videoElement s) then (s, [])
  else
    (set_useMediaSource false s,
     match currentVideoId s with
     | Some v => [LoadDirect v]
     | None => []
     end).

(** [handleSourceOpen] of [initializeStream]; [bufferOk] tells whether
    [addSourceBuffer] went through. *)
Definition handleSourceOpen (bufferOk : bool) (s : Session)
  : Session * list Action :=
  match mediaSource s with
  | Some Open =>
      if bufferOk then
        appendNextChunk
          (set_pendingSeekByte None
            (set_chunkPointer 0 (set_sourceBuffer (Some false) s)))
      else fallbackToDirectStream (cleanupMediaSource s)
  | _ => (s, [])
  end.

(** The session right after a video was selected: [initializeStream] has
    run [cleanupMediaSource] and asked for the metadata. *)
Definition freshSession (videoId : string) : Session :=
  mkSession true (Some videoId) true 0%Q None None 0 0 false None false false
            true None [].

(** The effects of a video change or of a retry: the stream of the old
    video is cleaned up, the player state is reset, and [initializeStream]
    runs up to its [await].  Nothing cancels a segment request that is
    still outstanding: [inFlight] is kept. *)
Definition initializeStream (videoId : string) (s : Session)
  : Session * list Action :=
  let s1 :=
    set_videoError None
      (set_isVideoLoading true
        (set_duration 0
          (cleanupMediaSource (set_currentVideoId (Some videoId) s)))) in
  if negb (Js.truthy (Some videoId)) || negb (videoElement s1) then (s1, [])
  else if useMediaSource s1 then (s1, [FetchMetadata videoId])
  else fallbackToDirectStream s1.

(** What can happen to the player. *)
Inductive Event : Type :=
| SelectVideo (videoId : string)
| MetadataLoaded (size : Z) (dur : Q) (supported : bool)
| MetadataFailed
| SourceOpen (bufferOk : bool)
| FetchDone (i : nat) (ok : bool)
| UpdateEnd
| Seeking (currentTime : Q) (r : ClearResult).

(** One event, when it can occur in [s].  [SelectVideo] ends the session
    and starts the next one; the metadata arrives once, while
    no media source exists; the source opens once, from [Closed];
    [FetchDone i] resumes the [i]-th outstanding request; [UpdateEnd] is the
    buffer finishing the append or removal that set [updating]: the flag is
    reset and the [updateend] listener runs. *)
Definition step (e : Event) (s : Session) : option (Session * list Action) :=
  match e with
  | SelectVideo videoId => Some (initializeStream videoId s)
  | MetadataLoaded size dur supported =>
      match mediaSource s with
      | None =>
          if useMediaSource s then
            let s1 := set_duration dur (set_fileSize size s) in
            if supported then Some (set_mediaSource (Some Closed) s1, [])
            else Some (fallbackToDirectStream s1)
          else None
      | Some _ => None
      end
  | MetadataFailed =>
      match mediaSource s with
      | None =>
          if useMediaSource s then Some (fallbackToDirectStream s) else None
      | Some _ => None
      end
  | SourceOpen bufferOk =>
      match mediaSource s with
      | Some Closed =>
          Some (handleSourceOpen bufferOk (set_mediaSource (Some Open) s))
      | _ => None
      end
  | FetchDone i ok =>
      match nth_error (inFlight s) i with
      | Some (_, start, end_) =>
          Some (resumeAppend ok start end_
                  (set_inFlight (firstn i (inFlight s)
                                   ++ skipn (S i) (inFlight s))%list s))
      | None => None
      end
  | UpdateEnd =>
      match sourceBuffer s with
      | Some true =>
          Some (handleSourceBufferUpdateEnd (set_sourceBuffer (Some false) s))
      | _ => None
      end
  | Seeking currentTime r =>
      if videoElement s then Some (handleFragmentedSeek currentTime r s, [])
      else None
  end.

(** The events of a list in order, with everything they asked for. *)
Fixpoint run (es : list Event) (s : Session) : option (Session * list Action) :=
  match es with
  | [] => Some (s, [])
  | e :: rest =>
      match step e s with
      | Some (s1, acts1) =>
          match run rest s1 with
          | Some (s2, acts2) => Some (s2, (acts1 ++ acts2)%list)
          | None => None
          end
      | None => None
      end
  end.

Inductive reachable : Session -> Prop :=
| reach_fresh : forall videoId, reachable (freshSession videoId)
| reach_step : forall s e s' acts,
    reachable s -> step e s = Some (s', acts) -> reachable s'.

(** The segment requests among some actions. *)
Definition fetches (acts : list Action) : list (Z * Z) :=
  flat_map (fun a => match a with Fetch _ a b => [(a, b)] | _ => [] end) acts.

(** [n] times: a request resolves and its append completes. *)
Definition rounds (n : nat) : list Event :=
  List.concat (repeat [FetchDone 0 true; UpdateEnd] n).

(** The events of an undisturbed download of [n] chunks, after the
    metadata arrived: the source opens, then the [n] rounds. *)
Definition download (n : nat) : list Event :=
  SourceOpen true :: rounds n.

(** The ranges the design asks for: chunk [k] starts at [k * CHUNK] and
    ends [CHUNK] bytes later or at the last byte of the file. *)
Definition chunkCount (size : Z) : nat :=
  Z.to_nat ((size + STREAM_CHUNK_SIZE - 1) / STREAM_CHUNK_SIZE).

Definition chunkRange (size : Z) (k : nat) : Z * Z :=
  (Z.of_nat k * STREAM_CHUNK_SIZE,
   Z.min (Z.of_nat k * STREAM_CHUNK_SIZE + STREAM_CHUNK_SIZE - 1) (size - 1)).

Definition chunkRanges (size : Z) : list (Z * Z) :=
  map (chunkRange size) (seq 0 (chunkCount size)).

(** Ranges that start at [from], each beginning right after the one before,
    the last one ending at [size - 1]. *)
Fixpoint contiguous (from size : Z) (rs : list (Z * Z)) : Prop :=
  match rs with
  | [] => from = size
  | (a, b) :: rest => a = from /\ a <= b /\ contiguous (b + 1) size rest
  end.

(** A session in the middle of an undisturbed download: the request for
    the chunk at [p] is outstanding. *)
Definition Streaming (v : string) (size p : Z) (s : Session) : Prop :=
  useMediaSource s = true /\ currentVideoId s = Some v
  /\ sourceBuffer s = Some false /\ mediaSource s = Some Open
  /\ fileSize s = size /\ chunkPointer s = p
  /\ isFetchingChunk s = true /\ isClearingBuffer s = false
  /\ inFlight s = [(v, p, Z.min (p + STREAM_CHUNK_SIZE - 1) (size - 1))].

(** Ten minutes of video in 120,000,000 bytes: the first chunk is in the
    buffer, the second is being fetched, and the viewer seeks to 5:00. *)
Definition seekDuringFetch : list Event :=
  [ MetadataLoaded 120000000 (600 # 1) true; SourceOpen true;
    FetchDone 0 true; UpdateEnd;
    Seeking (300 # 1) Cleared ].

(** A file of one chunk, downloaded to the end of the stream. *)
Definition smallDownload : list Event :=
  [ MetadataLoaded 1000 (600 # 1) true; SourceOpen true;
    FetchDone 0 true; UpdateEnd ].

(** What [appendNextChunk] can do to a session. *)
Inductive AppendCase (s : Session) : Session * list Action -> Prop :=
| append_nothing : AppendCase s (s, [])
| append_end :
    mediaSource s = Some Open ->
    AppendCase s (endOfStream s, [EndOfStream])
| append_fetch : forall v,
    isFetchingChunk s = false -> sourceBuffer s = Some false ->
    useMediaSource s = true -> mediaSource s <> None ->
    AppendCase s
      (set_inFlight (inFlight s ++ [(v, chunkPointer s,
                        Z.min (chunkPointer s + STREAM_CHUNK_SIZE - 1)
                              (fileSize s - 1))])%list
         (set_isFetchingChunk true s),
       [Fetch v (chunkPointer s)
              (Z.min (chunkPointer s + STREAM_CHUNK_SIZE - 1) (fileSize s - 1))]).

(** The events of one session: everything but the selection of another
    video. *)
Definition withinSession (e : Event) : bool :=
  match e with SelectVideo _ => false | _ => true end.

(** One request is outstanding exactly when the fetching flag is set. *)
Definition SingleFlight (s : Session) : Prop :=
  List.length (inFlight s) = (if isFetchingChunk s then 1 else 0)%nat.

(** A video is selected while the first chunk of the previous one is still
    being fetched; that chunk arrives after the new source opened. *)
Definition switchDuringFetch : list Event :=
  [ MetadataLoaded 120000000 (600 # 1) true; SourceOpen true;
    SelectVideo "v2";
    MetadataLoaded 90000000 (500 # 1) true; SourceOpen true;
    FetchDone 0 true; UpdateEnd ].

(** What every reachable state satisfies. *)
Definition Inv (s : Session) : Prop :=
  (sourceBuffer s = None ->
      isFetchingChunk s = false /\ isClearingBuffer s = false)
  /\ (isClearingBuffer s = true -> sourceBuffer s = Some true)
  /\ (sourceBuffer s <> None ->
      mediaSource s = Some Open \/ mediaSource s = Some Ended)
  /\ (mediaSource s <> None -> useMediaSource s = true).

End Player.

(* ===================================================================== *)
(** ** A small installation, used to run the code on concrete requests    *)
(* ===================================================================== *)

Module Sample.
Import Store Http.

Definition intro : Video :=
  mkVideo "v1" "vid-1" "Intro" 600 (Some "video/mp4") "intro.mp4" "c1".

Definition introBytes : list Byte.byte := list_byte_of_string "0123456789".

Definition db : Db :=
  mkDb [mkUser "alice"; mkUser "bob"; mkUser "carol"]
       [mkCourse "c1" "rocq-101" "alice"]
       [intro]
       [mkPurchase "bob" "c1"]
       [(("rocq-101", "intro.mp4"), introBytes)].

(** The same installation after the stored file was lost. *)
Definition dbNoFile : Db :=
  mkDb (users db) (courses db) (videos db) (purchases db) [].

(** Tokens of the form [tok-<id>] verify to [<id>]. *)
Definition verify (token : string) : option string :=
  if Js.startsWith "tok-" token then Some (Js.drop 4 token) else None.

Definition request (token : option string) (videoId : string)
    (range start end_ : option string) : Request :=
  mkRequest None range token start end_ videoId.

Definition bearer (token videoId : string) : Request :=
  mkRequest (Some ("Bearer " ++ token)) None None None None videoId.

Definition introResource : VideoController.Resource :=
  VideoController.mkResource intro (mkCourse "c1" "rocq-101" "alice")
    introBytes 10.

(** Bytes 2 to 5, asked by the creator. *)
Definition segment_2_5 : Request :=
  request (Some "tok-alice") "vid-1" None (Some "2") (Some "5").

(** A start past the end of the ten-byte file, asked by a purchaser through
    the segment endpoint and through a range header. *)
Definition segment_20_30 : Request :=
  request (Some "tok-bob") "v1" None (Some "20") (Some "30").

Definition range_20_30 : Request :=
  request (Some "tok-bob") "v1" (Some "bytes=20-30") None None.

(** Query values that are not numbers. *)
Definition segment_garbage : Request :=
  request (Some "tok-bob") "v1" None (Some "-7") (Some "soon").

End Sample.

(* ===================================================================== *)
(** ** backend/middleware/auth.js: [optionalAuth]                         *)
(* ===================================================================== *)

Module AuthMore.
Import Errors Store Http.

(** The token [optionalAuth] looks at: the second word of a [Bearer]
    authorization header, never the query parameter. *)
Definition headerToken (req : Request) : option string :=
  match authorization req with
  | Some h =>
      if Js.truthy (Some h) && Js.startsWith "Bearer" h
      then nth_error (Js.split " " h) 1
      else None
  | None => None
  end.

Section OptionalAuth.

Variable verify : string -> option string.

(** [optionalAuth]: the user attached to the request, if any; the request
    goes on in every case. *)
Definition optionalAuth (db : Db) (req : Request) : option User :=
  match headerToken req with
  | Some token =>
      if Js.truthy (Some token) then
        match verify token with
        | Some id => findUserById db id
        | None => None
        end
      else None
  | None => None
  end.

End OptionalAuth.

End AuthMore.

(* ===================================================================== *)
(** ** backend/utils/helpers.js                                           *)
(* ===================================================================== *)

Module Helpers.

Fixpoint allChars (p : ascii -> bool) (s : string) : bool :=
  match s with
  | EmptyString => true
  | String c r => p c && allChars p r
  end.

Fixpoint mapChars (f : ascii -> ascii) (s : string) : string :=
  match s with
  | EmptyString => EmptyString
  | String c r => String (f c) (mapChars f r)
  end.

(** [toLowerCase] on one code unit below 256: the letters A-Z and the
    accented capitals move 32 places up. *)
Definition lowerChar (c : ascii) : ascii :=
  let n := nat_of_ascii c in
  if ((65 <=? n) && (n <=? 90))%nat then ascii_of_nat (n + 32)
  else if ((192 <=? n) && (n <=? 222) && negb (n =? 215))%nat
       then ascii_of_nat (n + 32)
  else c.

(** The class [[a-z0-9.]]. *)
Definition isPlain (c : ascii) : bool :=
  let n := nat_of_ascii c in
  (((97 <=? n) && (n <=? 122)) || ((48 <=? n) && (n <=? 57)) || (n =? 46))%nat.

Definition isDash (c : ascii) : bool := Ascii.eqb c "-".

(** [.replace(/[^a-z0-9.]/g, "-")]. *)
Definition dashOthers (s : string) : string :=
  mapChars (fun c => if isPlain c then c else "-"%char) s.

(** [.replace(/-+/g, "-")]; [prev] tells whether the character before was
    a dash of the same run. *)
Fixpoint collapseDashes (prev : bool) (s : string) : string :=
  match s with
  | EmptyString => EmptyString
  | String c r =>
      if isDash c
      then if prev then collapseDashes true r
           else String "-" (collapseDashes true r)
      else String c (collapseDashes false r)
  end.

(** The [^-] half of [.replace(/(^-|-$)/g, "")]. *)
Definition stripLeadingDash (s : string) : string :=
  match s with
  | String c r => if isDash c then r else s
  | EmptyString => EmptyString
  end.

(** The [-$] half. *)
Fixpoint stripTrailingDash (s : string) : string :=
  match s with
  | EmptyString => EmptyString
  | String c EmptyString => if isDash c then EmptyString else s
  | String c r => String c (stripTrailingDash r)
  end.

(** [sanitizeFilename]. *)
Definition sanitizeFilename (filename : string) : string :=
  stripTrailingDash
    (stripLeadingDash
       (collapseDashes false
          (dashOthers (mapChars lowerChar filename)))).

(** What a sanitized name looks like. *)
Definition clean (c : ascii) : bool := isPlain c || isDash c.

Fixpoint noDoubleDash (s : string) : bool :=
  match s with
  | String c r =>
      match r with
      | String d _ => negb (isDash c && isDash d) && noDoubleDash r
      | EmptyString => true
      end
  | EmptyString => true
  end.

Definition startsWithDash (s : string) : bool :=
  match s with
  | String c _ => isDash c
  | EmptyString => false
  end.

Fixpoint endsWithDash (s : string) : bool :=
  match s with
  | EmptyString => false
  | String c EmptyString => isDash c
  | String _ r => endsWithDash r
  end.

(** [parseInt(value, 10) || fallback] on a query value that parses to
    nothing, to zero or to an integer. *)
Definition parseOr (fallback : Z) (v : option string) : Js.Num :=
  match v with
  | None => Js.Int fallback          (* the default parameter *)
  | Some _ =>
      match Js.parseInt v with
      | Js.NaN => Js.Int fallback
      | Js.Int 0 => Js.Int fallback
      | n => n
      end
  end.

Record Page : Type := mkPage {
  page : Js.Num;
  limit : Js.Num;
  skip : Js.Num
}.

(** [pageNum - 1] in doubles. *)
Definition minusOne (pageNum : Js.Num) : Js.Num :=
  match pageNum with
  | Js.Int p => Ieee.number (p - 1)
  | other => other
  end.

(** [(pageNum - 1) * limitNum] in doubles; neither factor is [NaN] and
    [limitNum] is not zero. *)
Definition skipOf (pageNum limitNum : Js.Num) : Js.Num :=
  match minusOne pageNum, limitNum with
  | Js.Int x, Js.Int l => Ieee.number (x * l)
  | Js.Int x, Js.PosInf =>
      if x =? 0 then Js.NaN
      else if 0 <? x then Js.PosInf else Js.NegInf
  | Js.Int x, Js.NegInf =>
      if x =? 0 then Js.NaN
      else if 0 <? x then Js.NegInf else Js.PosInf
  | Js.PosInf, Js.Int l => if 0 <? l then Js.PosInf else Js.NegInf
  | Js.NegInf, Js.Int l => if 0 <? l then Js.NegInf else Js.PosInf
  | Js.PosInf, Js.PosInf => Js.PosInf
  | Js.PosInf, Js.NegInf => Js.NegInf
  | Js.NegInf, Js.PosInf => Js.NegInf
  | Js.NegInf, Js.NegInf => Js.PosInf
  | _, _ => Js.NaN
  end.

(** [paginate(page, limit)] on the two query values. *)
Definition paginate (pageArg limitArg : option string) : Page :=
  let pageNum := parseOr 1 pageArg in
  let limitNum := parseOr 12 limitArg in
  mkPage pageNum limitNum (skipOf pageNum limitNum).

Record Pagination : Type := mkPagination {
  currentPage : Z;
  totalPages : Js.Num;
  totalItems : Z;
  hasNext : bool;
  hasPrev : bool
}.

(** [Math.ceil(totalItems / limit)] for integers and a limit other than
    zero: the quotient is rounded to a double before [Math.ceil] sees
    it. *)
Definition pagesOf (total limitNum : Z) : Js.Num :=
  match Ieee.round (inject_Z total / inject_Z limitNum) with
  | Ieee.Finite q => Js.Int (Qceiling q)
  | Ieee.Infinite true => Js.NegInf
  | Ieee.Infinite false => Js.PosInf
  end.

(** [page < totalPages] for an integer page. *)
Definition lessThan (pageNum : Z) (pages : Js.Num) : bool :=
  match pages with
  | Js.Int z => pageNum <? z
  | Js.PosInf => true
  | _ => false
  end.

(** [paginateResponse(totalItems, page, limit)] for integers and a
    limit other than zero. *)
Definition paginateResponse (total pageNum limitNum : Z) : Pagination :=
  let pages := pagesOf total limitNum in
  mkPagination pageNum pages total (lessThan pageNum pages) (1 <? pageNum).

End Helpers.

(* ===================================================================== *)
(** ** src/services/api.ts: the URLs of the video endpoints               *)
(* ===================================================================== *)

Module Api.
Import Http.

(** The request that reaches the server for the URL [getSegmentUrl]
    builds, fetched without headers of its own.  [token] is what
    [getToken()] returns.  The query values are decimal numbers and a
    token of URL-safe characters, which [URLSearchParams] and the server's
    query parser leave as they are. *)
Definition getSegmentUrl (token : option string) (videoId : string)
    (start end_ : Z) : Request :=
  mkRequest None None
    (if Js.truthy token then token else None)
    (Some (Js.toString (Z.max 0 start)))
    (Some (Js.toString (Z.max start end_)))
    videoId.

(** The request for the URL [getStreamUrl] builds; the playback engine
    that loads it decides on the range header. *)
Definition getStreamUrl (token : option string) (videoId : string)
    (range : option string) : Request :=
  mkRequest None range
    (if Js.truthy token then token else None)
    None None videoId.

(** The request [getMetadata] sends through [fetchApi], which puts the
    token into a [Bearer] header. *)
Definition getMetadata (token : option string) (videoId : string) : Request :=
  mkRequest
    (match token with
     | Some t => if Js.truthy token then Some ("Bearer " ++ t) else None
     | None => None
     end)
    None None None None videoId.

End Api.

(* ===================================================================== *)
(** ** The player's requests on the wire                                  *)
(* ===================================================================== *)

Module Transport.
Import Http VideoController.

Section Wire.

Variable verify : string -> option string.

(** [fetchSegment] of [CoursePlayerPage.tsx]: the URL of [getSegmentUrl]
    is fetched; the promise resolves with the body when the answer is
    [ok] (status 200 to 299) and is rejected otherwise.  An answer whose
    read stream could not be opened has no body to resolve with. *)
Definition fetchSegment (db : Store.Db) (token : option string)
    (videoId : string) (start end_ : Z) : option (list Byte.byte) :=
  match serve verify OpSegment db (Api.getSegmentUrl token videoId start end_)
  with
  | Streamed st _ (Reading body) =>
      if (200 <=? st) && (st <=? 299) then Some body else None
  | _ => None
  end.

(** The buffers of several requests in the order they are appended;
    nothing once a request fails. *)
Fixpoint fetchAll (db : Store.Db) (token : option string) (videoId : string)
    (rs : list (Z * Z)) : option (list Byte.byte) :=
  match rs with
  | [] => Some []
  | (a, b) :: rest =>
      match fetchSegment db token videoId a b with
      | Some chunk =>
          match fetchAll db token videoId rest with
          | Some more => Some (chunk ++ more)%list
          | None => None
          end
      | None => None
      end
  end.

End Wire.

End Transport.

(* ===================================================================== *)
(** ** CoursePlayerPage.tsx: moving between the videos of a course        *)
(* ===================================================================== *)

Module Navigation.

(** [allVideos] as the list of the [id]s of its entries, which is all
    the navigation reads. *)
Definition currentVideo (allVideos : list string)
    (currentVideoId : option string) : option string :=
  match allVideos with
  | [] => None
  | first :: _ =>
      if negb (Js.truthy currentVideoId) then Some first
      else
        match find (fun v => String.eqb v
                       (match currentVideoId with Some c => c | None => "" end))
                   allVideos with
        | Some v => Some v
        | None => Some first
        end
  end.

(** [allVideos.findIndex(v => v.id === id)], [None] for [-1]. *)
Fixpoint findIndex (id : string) (allVideos : list string) : option nat :=
  match allVideos with
  | [] => None
  | v :: rest =>
      if String.eqb v id then Some O
      else option_map S (findIndex id rest)
  end.

Definition currentVideoIndex (allVideos : list string)
    (currentVideoId : option string) : option nat :=
  match currentVideo allVideos currentVideoId with
  | Some v => findIndex v allVideos
  | None => None
  end.

Definition previousVideo (allVideos : list string)
    (currentVideoId : option string) : option string :=
  match currentVideoIndex allVideos currentVideoId with
  | Some (S i) => nth_error allVideos i
  | _ => None
  end.

Definition nextVideo (allVideos : list string)
    (currentVideoId : option string) : option string :=
  match currentVideoIndex allVideos currentVideoId with
  | Some i =>
      if (i <? List.length allVideos - 1)%nat
      then nth_error allVideos (S i)
      else None
  | None => None
  end.

(** [handleNextVideo] and [handlePreviousVideo]: the new [currentVideoId]. *)
Definition handleNextVideo (allVideos : list string)
    (currentVideoId : option string) : option string :=
  match nextVideo allVideos currentVideoId with
  | Some v => Some v
  | None => currentVideoId
  end.

Definition handlePreviousVideo (allVideos : list string)
    (currentVideoId : option string) : option string :=
  match previousVideo allVideos currentVideoId with
  | Some v => Some v
  | None => currentVideoId
  end.

End Navigation.

(* ===================================================================== *)
(** ** Courses of events of the player                                    *)
(* ===================================================================== *)

Module Lifecycle.
Import Player.

(** The three ways out of fragmented playback: the metadata request
    fails, the MIME type is not supported, or [addSourceBuffer] raises. *)
Definition fallsBack (e : Event) : bool :=
  match e with
  | MetadataFailed => true
  | MetadataLoaded _ _ supported => negb supported
  | SourceOpen bufferOk => negb bufferOk
  | _ => false
  end.

(** What React does once a callback has changed [useMediaSource]: the
    stream effect depends on it, so the cleanup of the effect runs and then
    [initializeStream] again, for the same video; the effect that resets
    the player state of a new video does not depend on it and does not
    run. *)
Definition rerunStreamEffect (s : Session) : Session * list Action :=
  let s0 := cleanupMediaSource s in
  match currentVideoId s0 with
  | Some videoId =>
      if negb (Js.truthy (Some videoId)) || negb (videoElement s0)
      then (s0, [])
      else
        let s1 :=
          set_isVideoLoading true
            (set_videoError None (cleanupMediaSource s0)) in
        if useMediaSource s1 then (s1, [FetchMetadata videoId])
        else fallbackToDirectStream s1
  | None => (s0, [])
  end.

(** An event of [step] together with the render that follows it: when the
    callback turned [useMediaSource] off, the stream effect runs again. *)
Definition stepRendered (e : Event) (s : Session)
  : option (Session * list Action) :=
  match step e s with
  | Some (s1, acts1) =>
      if useMediaSource s && negb (useMediaSource s1) then
        let '(s2, acts2) := rerunStreamEffect s1 in
        Some (s2, (acts1 ++ acts2)%list)
      else Some (s1, acts1)
  | None => None
  end.

(** What can still reach the callbacks of a stream that was cleaned up and
    not started again: a segment request coming back, and events of the
    media element. *)
Definition stale (e : Event) : bool :=
  match e with
  | FetchDone _ _ | UpdateEnd | SourceOpen _ | Seeking _ _ => true
  | _ => false
  end.

(** A video is selected, or the same one reloaded with the retry button;
    its metadata arrives and the media source opens. *)
Definition restart (videoId : string) (size : Z) (dur : Q) : list Event :=
  [SelectVideo videoId; MetadataLoaded size dur true; SourceOpen true].

(** The viewer seeks, the buffer is emptied, and the download runs
    undisturbed for [n] chunks. *)
Definition seekAndResume (currentTime : Q) (n : nat) : list Event :=
  Seeking currentTime Cleared :: UpdateEnd :: rounds n.

(** A session that is waiting for nothing: the source is open, the buffer
    idle or appending, and no request outstanding. *)
Definition Settled (v : string) (s : Session) : Prop :=
  useMediaSource s = true /\ videoElement s = true
  /\ currentVideoId s = Some v
  /\ sourceBuffer s <> None /\ mediaSource s = Some Open
  /\ isFetchingChunk s = false /\ isClearingBuffer s = false
  /\ inFlight s = [].

End Lifecycle.

(* ===================================================================== *)
(** * Properties                                                          *)
(* ===================================================================== *)

(** ** Decimal strings and [parseInt] *)

Module JsFacts.
Import Js.

Lemma scanDigits_uint (u : Decimal.uint) (acc : N) :
  scanDigits (NilEmpty.string_of_uint u) acc true = Some (uintValue u acc).
Proof.
  revert acc; induction u; intros acc; simpl; try reflexivity;
    change (10 * acc)%N with (N.mul 10 acc); rewrite IHu; reflexivity.
Qed.

Lemma uintValue_of_uint_acc (u : Decimal.uint) (p : positive) :
  uintValue u (Npos p) = Npos (Pos.of_uint_acc u p).
Proof.
  revert p; induction u; intros p; cbn [uintValue Pos.of_uint_acc];
    try reflexivity;
    match goal with
    | |- uintValue _ ?a = N.pos (Pos.of_uint_acc _ ?q) =>
        replace a with (N.pos q) by lia
    end; apply IHu.
Qed.

Lemma uintValue_of_uint (u : Decimal.uint) :
  uintValue u 0 = Pos.of_uint u.
Proof.
  induction u; cbn [uintValue Pos.of_uint]; try reflexivity;
    try exact IHu; apply uintValue_of_uint_acc.
Qed.

Lemma scanDigits_to_uint (n : N) :
  scanDigits (NilZero.string_of_uint (N.to_uint n)) 0 false = Some n.
Proof.
  assert (H : uintValue (N.to_uint n) 0 = n).
  { rewrite uintValue_of_uint. apply (DecimalN.Unsigned.of_to n). }
  assert (Hnil : N.to_uint n <> Decimal.Nil).
  { destruct n; simpl; [discriminate|].
    intros E. apply (f_equal Pos.of_uint) in E.
    rewrite DecimalPos.Unsigned.of_to in E. discriminate. }
  destruct (N.to_uint n) as [|d|d|d|d|d|d|d|d|d|d] eqn:E;
    [congruence| ..];
    unfold NilZero.string_of_uint; simpl in *;
    rewrite scanDigits_uint; f_equal; exact H.
Qed.

Lemma trimStart_to_uint (n : N) :
  trimStart (NilZero.string_of_uint (N.to_uint n))
  = NilZero.string_of_uint (N.to_uint n).
Proof.
  destruct (N.to_uint n); reflexivity.
Qed.

Lemma ofInteger_small (z : Z) :
  - DOUBLE_OVERFLOW < z < DOUBLE_OVERFLOW -> ofInteger z = Int z.
Proof.
  intros H. unfold ofInteger.
  destruct (Z.leb_spec DOUBLE_OVERFLOW z); [lia|].
  destruct (Z.leb_spec z (- DOUBLE_OVERFLOW)); [lia|reflexivity].
Qed.

Lemma parseIntStr_minus (r : string) :
  parseIntStr (String "-" r)
  = match scanDigits r 0 false with
    | None => NaN
    | Some m => ofInteger (- Z.of_N m)
    end.
Proof. reflexivity. Qed.

Lemma parseIntStr_digits (n : N) :
  parseIntStr (NilZero.string_of_uint (N.to_uint n)) = ofInteger (Z.of_N n).
Proof.
  unfold parseIntStr. rewrite trimStart_to_uint.
  pose proof (scanDigits_to_uint n) as Hs.
  destruct (N.to_uint n) as [|d|d|d|d|d|d|d|d|d|d];
    unfold NilZero.string_of_uint in *; cbn [NilEmpty.string_of_uint] in *;
    cbv iota beta; rewrite Hs; reflexivity.
Qed.

(** Parsing the decimal rendering of an integer gives the integer back. *)
Lemma parseInt_toString (z : Z) :
  - DOUBLE_OVERFLOW < z < DOUBLE_OVERFLOW ->
  parseInt (Some (toString z)) = Int z.
Proof.
  intros H. unfold parseInt, toString.
  destruct (Z.ltb_spec z 0) as [Hneg|Hpos].
  - rewrite parseIntStr_minus, scanDigits_to_uint.
    rewrite <- (ofInteger_small z H). f_equal. lia.
  - rewrite parseIntStr_digits.
    rewrite <- (ofInteger_small z H). f_equal. lia.
Qed.

End JsFacts.

(** ** Rounding to a double *)

Module IeeeFacts.
Import Ieee.

Lemma pow2_pos (k : Z) : 0 < 2 ^ Z.max k 0.
Proof. apply Z.pow_pos_nonneg; lia. Qed.

Lemma pow2_split (k : Z) :
  2 ^ Z.max k 0 * 2 ^ Z.max (- k) 0 = 2 ^ Z.abs k.
Proof.
  destruct (Z.le_gt_cases 0 k).
  - rewrite (Z.max_l k 0), (Z.max_r (- k) 0), Z.abs_eq by lia.
    rewrite Z.pow_0_r. lia.
  - rewrite (Z.max_r k 0), (Z.max_l (- k) 0), Z.abs_neq by lia.
    rewrite Z.pow_0_r. lia.
Qed.

(** [ilog2] is a lower bound of the binary logarithm. *)
Lemma ilog2_lower (n d : Z) :
  0 < n -> 0 < d ->
  d * 2 ^ Z.max (ilog2 n d) 0 <= n * 2 ^ Z.max (- ilog2 n d) 0.
Proof.
  intros Hn Hd. unfold ilog2.
  set (k := Z.log2 n - Z.log2 d).
  destruct (Z.leb_spec (d * 2 ^ Z.max k 0) (n * 2 ^ Z.max (- k) 0)) as [H|H];
    [exact H|].
  pose proof (Z.log2_spec n Hn) as (Ln & _).
  pose proof (Z.log2_spec d Hd) as (_ & Ud).
  pose proof (Z.log2_nonneg n). pose proof (Z.log2_nonneg d).
  (* d < 2 ^ (log2 d + 1) and 2 ^ log2 n <= n *)
  destruct (Z.le_gt_cases 1 k) as [Hk|Hk].
  - rewrite (Z.max_l (k - 1) 0), (Z.max_r (- (k - 1)) 0) by lia.
    rewrite Z.pow_0_r, Z.mul_1_r.
    assert (E : 2 ^ Z.log2 n = 2 ^ (k - 1) * 2 ^ Z.succ (Z.log2 d)).
    { rewrite <- Z.pow_add_r by lia. f_equal. unfold k. lia. }
    assert (0 < 2 ^ (k - 1)) by (apply Z.pow_pos_nonneg; lia).
    nia.
  - rewrite (Z.max_r (k - 1) 0), (Z.max_l (- (k - 1)) 0) by lia.
    rewrite Z.pow_0_r, Z.mul_1_r.
    assert (E : 2 ^ Z.succ (Z.log2 d) = 2 ^ Z.log2 n * 2 ^ (- (k - 1))).
    { rewrite <- Z.pow_add_r by lia. f_equal. unfold k. lia. }
    assert (0 < 2 ^ (- (k - 1))) by (apply Z.pow_pos_nonneg; lia).
    nia.
Qed.

Lemma ilog2_upper (n d : Z) :
  0 < n -> 0 < d -> ilog2 n d <= Z.log2 n - Z.log2 d.
Proof.
  intros Hn Hd. unfold ilog2.
  destruct (_ <=? _); lia.
Qed.

(** [nearestEven] is within one half. *)
Lemma nearestEven_near (n d : Z) :
  0 <= n -> 0 < d ->
  0 <= nearestEven n d
  /\ 2 * nearestEven n d * d - 2 * n <= d
  /\ 2 * n - 2 * nearestEven n d * d <= d.
Proof.
  intros Hn Hd. unfold nearestEven.
  pose proof (Z.div_mod n d ltac:(lia)) as E.
  pose proof (Z.mod_pos_bound n d Hd) as B.
  pose proof (Z.div_pos n d Hn Hd) as P.
  destruct (Z.compare_spec (2 * (n mod d)) d) as [C|C|C].
  - destruct (Z.even (n / d)); nia.
  - nia.
  - nia.
Qed.

Lemma significand_near (n d : Z) :
  0 < n -> 0 < d ->
  let e := exponent n d in
  let m := significand n d in
  let A := 2 ^ Z.max e 0 in
  let B := 2 ^ Z.max (- e) 0 in
  0 <= m
  /\ 2 * (m * A * d - n * B) <= d * A
  /\ 2 * (n * B - m * A * d) <= d * A.
Proof.
  intros Hn Hd e m A B.
  assert (HA : 0 < A) by apply pow2_pos.
  assert (HB : 0 < B) by apply pow2_pos.
  destruct (nearestEven_near (n * B) (d * A) ltac:(nia) ltac:(nia))
    as (H0 & H1 & H2).
  change (nearestEven (n * B) (d * A)) with m in H0, H1, H2.
  split; [exact H0|].
  split.
  - replace (m * A * d) with (m * (d * A)) by ring. lia.
  - replace (m * A * d) with (m * (d * A)) by ring. lia.
Qed.

(** In the normal range the last place is at most [2 ^ -52] of the
    number. *)
Lemma exponent_normal (n d : Z) :
  0 < n -> 0 < d -> EMIN <= ilog2 n d - 52 ->
  let e := exponent n d in
  d * 2 ^ Z.max e 0 * 2 ^ 52 <= n * 2 ^ Z.max (- e) 0.
Proof.
  intros Hn Hd Hnorm e.
  assert (He : e = ilog2 n d - 52) by (unfold e, exponent; lia).
  pose proof (ilog2_lower n d Hn Hd) as HL.
  set (L := ilog2 n d) in *.
  assert (HP : 2 ^ Z.max e 0 * 2 ^ 52 * 2 ^ Z.max (- L) 0
               = 2 ^ Z.max (- e) 0 * 2 ^ Z.max L 0).
  { pose proof (Z.le_max_r e 0). pose proof (Z.le_max_r (- e) 0).
    pose proof (Z.le_max_r L 0). pose proof (Z.le_max_r (- L) 0).
    rewrite <- (Z.pow_add_r 2 (Z.max e 0) 52) by lia.
    rewrite <- (Z.pow_add_r 2 (Z.max e 0 + 52)) by lia.
    rewrite <- (Z.pow_add_r 2 (Z.max (- e) 0)) by lia.
    f_equal. lia. }
  pose proof (pow2_pos L). pose proof (pow2_pos (- L)).
  pose proof (pow2_pos e). pose proof (pow2_pos (- e)).
  assert (0 < 2 ^ 52) by reflexivity.
  set (A := 2 ^ Z.max e 0) in *. set (B := 2 ^ Z.max (- e) 0) in *.
  set (P := 2 ^ Z.max L 0) in *. set (M := 2 ^ Z.max (- L) 0) in *.
  set (c := 2 ^ 52) in *.
  (* d * P <= n * M, A * c * M = B * P  |-  d * A * c <= n * B *)
  apply (Z.mul_le_mono_pos_r _ _ (P * M)); [nia|].
  replace (d * A * c * (P * M)) with ((d * P) * (A * c * M)) by ring.
  replace (n * B * (P * M)) with ((n * M) * (B * P)) by ring.
  rewrite HP. apply Z.mul_le_mono_nonneg_r; [nia|exact HL].
Qed.

Lemma roundPositive_normal (n : Z) (dp : positive) (v : Q) :
  0 < n -> EMIN <= ilog2 n (Zpos dp) - 52 ->
  roundPositive n (Zpos dp) = Some v ->
  (0 <= v /\ v - (n # dp) <= (n # dp) * ULP53
   /\ (n # dp) - v <= (n # dp) * ULP53)%Q.
Proof.
  intros Hn Hnorm Hv. unfold roundPositive in Hv.
  destruct (_ || _); [discriminate|]. injection Hv as <-.
  destruct (significand_near n (Zpos dp) Hn ltac:(lia)) as (H0 & H1 & H2).
  pose proof (exponent_normal n (Zpos dp) Hn ltac:(lia) Hnorm) as H3.
  cbv zeta in H1, H2, H3.
  set (e := exponent n (Zpos dp)) in *.
  set (m := significand n (Zpos dp)) in *.
  pose proof (pow2_pos e) as HA. pose proof (pow2_pos (- e)) as HB.
  set (A := 2 ^ Z.max e 0) in *. set (B := 2 ^ Z.max (- e) 0) in *.
  unfold scaled. fold A. fold B. unfold ULP53.
  unfold Qle, Qminus, Qplus, Qopp, Qmult. cbn [Qnum Qden].
  rewrite !Pos2Z.inj_mul, !Z2Pos.id by lia.
  change (Z.pos (2 ^ 53)) with (2 * 2 ^ 52).
  assert (Hc : 0 < 2 ^ 52) by reflexivity.
  set (c := 2 ^ 52) in *. set (d := Z.pos dp) in *.
  assert (Hd : 0 < d) by (unfold d; lia).
  clearbody c d A B m. clear e Hnorm.
  split; [nia|]. split.
  - apply Z.le_trans with (d * A * c * d); [|nia].
    replace ((m * A * d + - n * B) * (d * (2 * c)))
      with ((2 * (m * A * d - n * B)) * (c * d)) by ring.
    replace (d * A * c * d) with ((d * A) * (c * d)) by ring.
    apply Z.mul_le_mono_nonneg_r; [nia|exact H1].
  - apply Z.le_trans with (d * A * c * d); [|nia].
    replace ((n * B + - (m * A) * d) * (d * (2 * c)))
      with ((2 * (n * B - m * A * d)) * (c * d)) by ring.
    replace (d * A * c * d) with ((d * A) * (c * d)) by ring.
    apply Z.mul_le_mono_nonneg_r; [nia|exact H2].
Qed.

Lemma roundPositive_subnormal (n : Z) (dp : positive) (v : Q) :
  0 < n -> ilog2 n (Zpos dp) - 52 < EMIN ->
  roundPositive n (Zpos dp) = Some v ->
  (0 <= v /\ v - (n # dp) <= TINY /\ (n # dp) - v <= TINY)%Q.
Proof.
  intros Hn Hsub Hv. unfold roundPositive in Hv.
  destruct (_ || _); [discriminate|]. injection Hv as <-.
  destruct (significand_near n (Zpos dp) Hn ltac:(lia)) as (H0 & H1 & H2).
  cbv zeta in H1, H2.
  assert (He : exponent n (Zpos dp) = EMIN) by (unfold exponent; lia).
  set (m := significand n (Zpos dp)) in *.
  unfold scaled. rewrite He in *.
  change (2 ^ Z.max EMIN 0) with 1 in *.
  change (2 ^ Z.max (- EMIN) 0) with (2 ^ 1074) in *.
  unfold TINY.
  unfold Qle, Qminus, Qplus, Qopp, Qmult. cbn [Qnum Qden].
  rewrite !Pos2Z.inj_mul, !Z2Pos.id by reflexivity.
  change (Z.pos (2 ^ 1075)) with (2 * 2 ^ 1074).
  assert (Hc : 0 < 2 ^ 1074) by reflexivity.
  set (c := 2 ^ 1074) in *. set (d := Z.pos dp) in *.
  assert (Hd : 0 < d) by (unfold d; lia).
  clearbody c d m.
  split; [nia|]. split; nia.
Qed.

Lemma roundPositive_error (n : Z) (dp : positive) (v : Q) :
  0 < n -> roundPositive n (Zpos dp) = Some v ->
  (0 <= v /\ v - (n # dp) <= (n # dp) * ULP53 + TINY
   /\ (n # dp) - v <= (n # dp) * ULP53 + TINY)%Q.
Proof.
  intros Hn Hv.
  assert (Hq : (0 <= (n # dp) * ULP53)%Q).
  { apply Qmult_le_0_compat; [|discriminate].
    unfold Qle. cbn [Qnum Qden]. lia. }
  assert (Ht : (0 <= TINY)%Q) by discriminate.
  destruct (Z.le_gt_cases EMIN (ilog2 n (Zpos dp) - 52)) as [H|H].
  - destruct (roundPositive_normal n dp v Hn H Hv) as (H0 & H1 & H2).
    split; [exact H0|]. split; lra.
  - destruct (roundPositive_subnormal n dp v Hn ltac:(lia) Hv)
      as (H0 & H1 & H2).
    split; [exact H0|]. split; lra.
Qed.

(** No overflow below [2 ^ 1000]. *)
Lemma roundPositive_defined (n : Z) (dp : positive) :
  0 < n -> n <= Zpos dp * 2 ^ 1000 ->
  exists v, roundPositive n (Zpos dp) = Some v.
Proof.
  intros Hn Hle. unfold roundPositive.
  assert (He : exponent n (Zpos dp) <= 948).
  { unfold exponent.
    pose proof (ilog2_upper n (Zpos dp) Hn ltac:(lia)) as HL.
    pose proof (Z.log2_le_mono _ _ Hle) as Hm.
    rewrite Z.log2_mul_pow2 in Hm by lia. unfold EMIN. lia. }
  destruct (Z.ltb_spec EMAX (exponent n (Zpos dp))) as [H|_];
    [unfold EMAX in H; lia|].
  destruct (Z.eqb_spec (exponent n (Zpos dp)) EMAX) as [H|_];
    [unfold EMAX in H; lia|].
  eexists. reflexivity.
Qed.

(** Rounding a number that is not negative: the error is at most half a
    unit in the last place, and an overflow is to plus infinity. *)
Lemma round_nonneg (q : Q) :
  (0 <= q)%Q ->
  match round q with
  | Finite v =>
      (0 <= v /\ v - q <= q * ULP53 + TINY /\ q - v <= q * ULP53 + TINY)%Q
  | Infinite negative => negative = false
  end.
Proof.
  intros Hq. destruct q as [qn qd]. unfold round. cbn [Qnum Qden].
  destruct qn as [|n|n].
  - split; [discriminate|]. split; discriminate.
  - destruct (roundPositive (Z.pos n) (Z.pos qd)) as [v|] eqn:Hv;
      [|reflexivity].
    exact (roundPositive_error (Z.pos n) qd v ltac:(lia) Hv).
  - exfalso. unfold Qle in Hq. cbn in Hq. lia.
Qed.

Lemma round_finite (q : Q) :
  (0 <= q)%Q -> (q <= inject_Z (2 ^ 1000))%Q -> exists v, round q = Finite v.
Proof.
  intros Hq Hle. destruct q as [qn qd]. unfold round. cbn [Qnum Qden].
  destruct qn as [|n|n].
  - eexists; reflexivity.
  - destruct (roundPositive_defined (Z.pos n) qd ltac:(lia)) as (v & ->).
    + unfold Qle in Hle. cbn [Qnum Qden inject_Z] in Hle. lia.
    + eexists; reflexivity.
  - exfalso. unfold Qle in Hq. cbn in Hq. lia.
Qed.

(** Rounding keeps the sign. *)
Lemma round_nonpos (q : Q) :
  (q <= 0)%Q ->
  match round q with
  | Finite v => (v <= 0)%Q
  | Infinite negative => negative = true
  end.
Proof.
  intros Hq. destruct q as [qn qd]. unfold round. cbn [Qnum Qden].
  destruct qn as [|n|n].
  - discriminate.
  - exfalso. unfold Qle in Hq. cbn in Hq. lia.
  - destruct (roundPositive (Z.pos n) (Z.pos qd)) as [v|] eqn:Hv;
      [|reflexivity].
    destruct (roundPositive_error (Z.pos n) qd v ltac:(lia) Hv) as (H0 & _).
    lra.
Qed.

(** Integers up to [2 ^ 53] are doubles. *)
Lemma number_exact (z : Z) :
  0 <= z <= 2 ^ 53 -> number z = Js.Int z.
Proof.
  intros Hz. unfold number, round. cbn [inject_Z Qnum Qden].
  destruct z as [|n|n]; [reflexivity| |lia].
  destruct (Z.eq_dec (Z.pos n) (2 ^ 53)) as [E|E].
  - injection E as ->. vm_compute. reflexivity.
  - assert (Hk : 0 <= Z.log2 (Z.pos n) <= 52).
    { split; [apply Z.log2_nonneg|].
      assert (Z.log2 (Z.pos n) < 53); [|lia].
      apply Z.log2_lt_pow2; lia. }
    pose proof (Z.log2_spec (Z.pos n) ltac:(lia)) as (Hlo & _).
    assert (HL : ilog2 (Z.pos n) 1 = Z.log2 (Z.pos n)).
    { unfold ilog2. change (Z.log2 1) with 0. rewrite Z.sub_0_r.
      rewrite Z.max_l, Z.max_r by lia. rewrite Z.pow_0_r.
      destruct (Z.leb_spec (1 * 2 ^ Z.log2 (Z.pos n)) (Z.pos n * 1));
        [reflexivity|lia]. }
    assert (He : exponent (Z.pos n) 1 = Z.log2 (Z.pos n) - 52).
    { unfold exponent. rewrite HL. unfold EMIN. lia. }
    unfold roundPositive, significand. rewrite He.
    rewrite (Z.max_l (- (Z.log2 (Z.pos n) - 52)) 0) by lia.
    rewrite (Z.max_r (Z.log2 (Z.pos n) - 52) 0) by lia.
    rewrite Z.pow_0_r.
    set (B := 2 ^ (- (Z.log2 (Z.pos n) - 52))).
    assert (HB : 0 < B) by (apply Z.pow_pos_nonneg; lia).
    assert (Hm : nearestEven (Z.pos n * B) (1 * 1) = Z.pos n * B).
    { unfold nearestEven. change (1 * 1) with 1.
      rewrite Z.mod_1_r, Z.div_1_r. reflexivity. }
    rewrite Hm.
    destruct (Z.ltb_spec EMAX (Z.log2 (Z.pos n) - 52)) as [H|_];
      [unfold EMAX in H; lia|].
    destruct (Z.eqb_spec (Z.log2 (Z.pos n) - 52) EMAX) as [H|_];
      [unfold EMAX in H; lia|].
    cbn [orb andb]. unfold scaled.
    rewrite (Z.max_l (- (Z.log2 (Z.pos n) - 52)) 0) by lia.
    rewrite (Z.max_r (Z.log2 (Z.pos n) - 52) 0) by lia.
    rewrite Z.pow_0_r. fold B. unfold Qfloor.
    rewrite Z2Pos.id by exact HB. rewrite Z.mul_1_r.
    rewrite Z.div_mul by lia. reflexivity.
Qed.

(** The double nearest to an integer up to [2 ^ 53] is that integer. *)
Lemma round_integer (z : Z) :
  0 <= z <= 2 ^ 53 ->
  exists v, round (inject_Z z) = Finite v /\ (v == inject_Z z)%Q.
Proof.
  intros Hz. unfold round. cbn [inject_Z Qnum Qden].
  destruct z as [|n|n]; [eexists; split; reflexivity| |lia].
  destruct (Z.eq_dec (Z.pos n) (2 ^ 53)) as [E|E].
  - injection E as ->. eexists. split; [vm_compute; reflexivity|].
    vm_compute. reflexivity.
  - assert (Hk : 0 <= Z.log2 (Z.pos n) <= 52).
    { split; [apply Z.log2_nonneg|].
      assert (Z.log2 (Z.pos n) < 53); [|lia].
      apply Z.log2_lt_pow2; lia. }
    pose proof (Z.log2_spec (Z.pos n) ltac:(lia)) as (Hlo & _).
    assert (HL : ilog2 (Z.pos n) 1 = Z.log2 (Z.pos n)).
    { unfold ilog2. change (Z.log2 1) with 0. rewrite Z.sub_0_r.
      rewrite Z.max_l, Z.max_r by lia. rewrite Z.pow_0_r.
      destruct (Z.leb_spec (1 * 2 ^ Z.log2 (Z.pos n)) (Z.pos n * 1));
        [reflexivity|lia]. }
    assert (He : exponent (Z.pos n) 1 = Z.log2 (Z.pos n) - 52).
    { unfold exponent. rewrite HL. unfold EMIN. lia. }
    unfold roundPositive, significand. rewrite He.
    rewrite (Z.max_l (- (Z.log2 (Z.pos n) - 52)) 0) by lia.
    rewrite (Z.max_r (Z.log2 (Z.pos n) - 52) 0) by lia.
    rewrite Z.pow_0_r.
    set (B := 2 ^ (- (Z.log2 (Z.pos n) - 52))).
    assert (HB : 0 < B) by (apply Z.pow_pos_nonneg; lia).
    assert (Hm : nearestEven (Z.pos n * B) (1 * 1) = Z.pos n * B).
    { unfold nearestEven. change (1 * 1) with 1.
      rewrite Z.mod_1_r, Z.div_1_r. reflexivity. }
    rewrite Hm.
    destruct (Z.ltb_spec EMAX (Z.log2 (Z.pos n) - 52)) as [H|_];
      [unfold EMAX in H; lia|].
    destruct (Z.eqb_spec (Z.log2 (Z.pos n) - 52) EMAX) as [H|_];
      [unfold EMAX in H; lia|].
    cbn [orb andb]. eexists. split; [reflexivity|].
    unfold scaled.
    rewrite (Z.max_l (- (Z.log2 (Z.pos n) - 52)) 0) by lia.
    rewrite (Z.max_r (Z.log2 (Z.pos n) - 52) 0) by lia.
    rewrite Z.pow_0_r. fold B. unfold Qeq, inject_Z. cbn [Qnum Qden].
    rewrite Z2Pos.id by exact HB. ring.
Qed.

Lemma tiny_tiny :
  (0 <= TINY)%Q
  /\ (TINY <= 1 # 340282366920938463463374607431768211456)%Q.
Proof. split; discriminate. Qed.

Lemma ulp_exact : (ULP53 == 1 # 9007199254740992)%Q.
Proof. reflexivity. Qed.

(** [ilog2] is the binary logarithm, rounded down: the upper bound. *)
Lemma ilog2_below (n d : Z) :
  0 < n -> 0 < d ->
  n * 2 ^ Z.max (- (ilog2 n d + 1)) 0 < d * 2 ^ Z.max (ilog2 n d + 1) 0.
Proof.
  intros Hn Hd. unfold ilog2.
  set (k := Z.log2 n - Z.log2 d).
  pose proof (Z.log2_spec n Hn) as (_ & Un).
  pose proof (Z.log2_spec d Hd) as (Ld & _).
  pose proof (Z.log2_nonneg n). pose proof (Z.log2_nonneg d).
  destruct (Z.leb_spec (d * 2 ^ Z.max k 0) (n * 2 ^ Z.max (- k) 0)) as [H1|H1].
  - (* n < 2 ^ (log2 n + 1) = 2 ^ (k + 1) * 2 ^ log2 d <= 2 ^ (k + 1) * d *)
    destruct (Z.le_gt_cases 0 (k + 1)) as [Hk|Hk].
    + rewrite (Z.max_r (- (k + 1)) 0), (Z.max_l (k + 1) 0) by lia.
      rewrite Z.pow_0_r, Z.mul_1_r.
      assert (E : 2 ^ Z.succ (Z.log2 n) = 2 ^ (k + 1) * 2 ^ Z.log2 d).
      { rewrite <- Z.pow_add_r by lia. f_equal. unfold k. lia. }
      assert (0 < 2 ^ (k + 1)) by (apply Z.pow_pos_nonneg; lia).
      nia.
    + rewrite (Z.max_l (- (k + 1)) 0), (Z.max_r (k + 1) 0) by lia.
      rewrite Z.pow_0_r, Z.mul_1_r.
      assert (E : 2 ^ Z.log2 d = 2 ^ Z.succ (Z.log2 n) * 2 ^ (- (k + 1))).
      { rewrite <- Z.pow_add_r by lia. f_equal. unfold k. lia. }
      assert (0 < 2 ^ (- (k + 1))) by (apply Z.pow_pos_nonneg; lia).
      nia.
  - replace (k - 1 + 1) with k by lia. lia.
Qed.

Lemma pow2_mono (a b : Z) : 0 <= a -> 0 <= b -> 2 ^ a < 2 ^ b -> a < b.
Proof. intros Ha Hb H. apply (Z.pow_lt_mono_r_iff 2); lia. Qed.

(** A larger quotient has no smaller logarithm. *)
Lemma ilog2_mono (n1 d1 n2 d2 : Z) :
  0 < n1 -> 0 < d1 -> 0 < n2 -> 0 < d2 ->
  n1 * d2 <= n2 * d1 -> ilog2 n1 d1 <= ilog2 n2 d2.
Proof.
  intros Hn1 Hd1 Hn2 Hd2 Hle.
  pose proof (ilog2_lower n1 d1 Hn1 Hd1) as L1.
  pose proof (ilog2_below n2 d2 Hn2 Hd2) as U2.
  set (x := ilog2 n1 d1) in *. set (y := ilog2 n2 d2 + 1) in *.
  assert (x < y); [|unfold y in *; lia].
  pose proof (pow2_pos x). pose proof (pow2_pos (- x)).
  pose proof (pow2_pos y). pose proof (pow2_pos (- y)).
  set (a := 2 ^ Z.max x 0) in *. set (b := 2 ^ Z.max (- x) 0) in *.
  set (c := 2 ^ Z.max (- y) 0) in *. set (e := 2 ^ Z.max y 0) in *.
  (* d1 a <= n1 b, n2 c < d2 e, n1 d2 <= n2 d1 |- a c < b e *)
  assert (Hp : a * c < b * e).
  { apply (Z.mul_lt_mono_pos_l (d1 * n2)); [nia|].
    apply Z.le_lt_trans with (n1 * b * (n2 * c)).
    - replace (d1 * n2 * (a * c)) with (d1 * a * (n2 * c)) by ring.
      apply Z.mul_le_mono_nonneg_r; [nia|exact L1].
    - apply Z.lt_le_trans with (n1 * b * (d2 * e)).
      + apply Z.mul_lt_mono_pos_l; [nia|exact U2].
      + replace (n1 * b * (d2 * e)) with (n1 * d2 * (b * e)) by ring.
        replace (d1 * n2 * (b * e)) with (n2 * d1 * (b * e)) by ring.
        apply Z.mul_le_mono_nonneg_r; [nia|exact Hle]. }
  unfold a, b, c, e in Hp.
  rewrite <- !Z.pow_add_r in Hp by lia.
  apply pow2_mono in Hp; lia.
Qed.

Lemma exponent_mono (n1 d1 n2 d2 : Z) :
  0 < n1 -> 0 < d1 -> 0 < n2 -> 0 < d2 ->
  n1 * d2 <= n2 * d1 -> exponent n1 d1 <= exponent n2 d2.
Proof.
  intros. unfold exponent.
  pose proof (ilog2_mono n1 d1 n2 d2). lia.
Qed.

(** [nearestEven] does not cross an integer. *)
Lemma nearestEven_ge (n d k : Z) :
  0 <= n -> 0 < d -> k * d <= n -> k <= nearestEven n d.
Proof.
  intros Hn Hd Hk.
  destruct (nearestEven_near n d Hn Hd) as (_ & _ & H). nia.
Qed.

Lemma nearestEven_le (n d k : Z) :
  0 <= n -> 0 < d -> n <= k * d -> nearestEven n d <= k.
Proof.
  intros Hn Hd Hk.
  destruct (nearestEven_near n d Hn Hd) as (_ & H & _). nia.
Qed.

(** [nearestEven] is monotone in the quotient. *)
Lemma nearestEven_mono (n1 d1 n2 d2 : Z) :
  0 <= n1 -> 0 < d1 -> 0 <= n2 -> 0 < d2 ->
  n1 * d2 <= n2 * d1 -> nearestEven n1 d1 <= nearestEven n2 d2.
Proof.
  intros Hn1 Hd1 Hn2 Hd2 Hle.
  pose proof (Z.div_mod n1 d1 ltac:(lia)) as E1.
  pose proof (Z.mod_pos_bound n1 d1 Hd1) as B1.
  pose proof (Z.div_mod n2 d2 ltac:(lia)) as E2.
  pose proof (Z.mod_pos_bound n2 d2 Hd2) as B2.
  assert (Hq : n1 / d1 <= n2 / d2).
  { apply Z.div_le_lower_bound; [lia|].
    (* d2 * (n1/d1) <= n2 *)
    assert (d1 * (d2 * (n1 / d1)) <= d1 * n2); [nia|].
    apply (Z.mul_le_mono_pos_l _ _ d1); assumption. }
  unfold nearestEven.
  set (q1 := n1 / d1) in *. set (q2 := n2 / d2) in *.
  set (r1 := n1 mod d1) in *. set (r2 := n2 mod d2) in *.
  destruct (Z.eq_dec q1 q2) as [Eq|Ne].
  - (* same floor: compare the remainders *)
    rewrite <- Eq in *.
    assert (Hr : r1 * d2 <= r2 * d1) by nia.
    destruct (Z.compare_spec (2 * r1) d1) as [C1|C1|C1];
      destruct (Z.compare_spec (2 * r2) d2) as [C2|C2|C2];
      try lia; try (destruct (Z.even q1); lia); exfalso; nia.
  - assert (q1 + 1 <= q2) by lia.
    destruct (Z.compare_spec (2 * r1) d1);
      destruct (Z.compare_spec (2 * r2) d2);
      try lia; destruct (Z.even q1); destruct (Z.even q2); lia.
Qed.

(** [scaled] is a multiple of a power of two. *)
Lemma scaled_one (k : Z) : (scaled 1 k == 2 ^ k)%Q.
Proof.
  unfold scaled. rewrite Z.mul_1_l.
  destruct (Z.le_gt_cases 0 k) as [H|H].
  - rewrite (Z.max_l k 0), (Z.max_r (- k) 0) by lia.
    change (Z.to_pos (2 ^ 0)) with 1%positive.
    change (2 ^ k # 1)%Q with (inject_Z (2 ^ k)).
    rewrite Zpower_Qpower by exact H. reflexivity.
  - rewrite (Z.max_r k 0), (Z.max_l (- k) 0) by lia.
    rewrite Z.pow_0_r.
    replace k with (- (- k)) at 2 by lia.
    rewrite Qpower_opp.
    assert (Hp : 0 < 2 ^ (- k)) by (apply Z.pow_pos_nonneg; lia).
    rewrite <- (Zpower_Qpower 2 (- k)) by lia.
    destruct (2 ^ (- k)) as [|p|p] eqn:E; try lia.
    cbn [Z.to_pos]. unfold Qinv, inject_Z. cbn [Qnum Qden]. reflexivity.
Qed.

Lemma scaled_value (m k : Z) : (scaled m k == inject_Z m * 2 ^ k)%Q.
Proof.
  rewrite <- scaled_one. unfold scaled, Qeq, Qmult, inject_Z.
  cbn [Qnum Qden]. rewrite Z.mul_1_l. cbn [Pos.mul]. reflexivity.
Qed.

Lemma two_ne_0 : ~ (2 == 0)%Q.
Proof. discriminate. Qed.

(** The quotient is below [2 ^ 53] units in the last place. *)
Lemma exponent_upper (n : Z) (dp : positive) :
  0 < n ->
  let e := exponent n (Zpos dp) in
  n * 2 ^ Z.max (- e) 0 < Zpos dp * 2 ^ Z.max e 0 * 2 ^ 53.
Proof.
  intros Hn e.
  pose proof (ilog2_below n (Zpos dp) Hn ltac:(lia)) as HU.
  set (L := ilog2 n (Zpos dp)) in *.
  assert (He : L + 1 <= e + 53) by (unfold e, exponent; fold L; lia).
  assert (H1 : ((n # dp) < scaled 1 (L + 1))%Q).
  { unfold Qlt, scaled. cbn [Qnum Qden].
    rewrite Z2Pos.id by apply pow2_pos. lia. }
  rewrite scaled_one in H1.
  assert (H2 : (2 ^ (L + 1) <= 2 ^ (e + 53))%Q)
    by (apply Qpower_le_compat_l; [exact He|discriminate]).
  rewrite (Qpower_plus 2 e 53 two_ne_0) in H2.
  rewrite <- (scaled_one e) in H2.
  assert (H3 : ((n # dp) < scaled 1 e * 2 ^ 53)%Q)
    by (eapply Qlt_le_trans; [exact H1|exact H2]).
  assert (E53 : (2 ^ 53 == inject_Z (2 ^ 53))%Q) by reflexivity.
  rewrite E53 in H3.
  unfold Qlt, Qmult, scaled, inject_Z in H3. cbn [Qnum Qden] in H3.
  rewrite Pos2Z.inj_mul, Z2Pos.id in H3 by apply pow2_pos.
  lia.
Qed.

Lemma significand_le (n : Z) (dp : positive) :
  0 < n -> significand n (Zpos dp) <= 2 ^ 53.
Proof.
  intros Hn. pose proof (exponent_upper n dp Hn) as H. cbv zeta in H.
  unfold significand.
  pose proof (pow2_pos (exponent n (Z.pos dp))).
  pose proof (pow2_pos (- exponent n (Z.pos dp))).
  apply nearestEven_le; [nia|nia|nia].
Qed.

Lemma significand_ge (n : Z) (dp : positive) :
  0 < n -> EMIN <= ilog2 n (Zpos dp) - 52 ->
  2 ^ 52 <= significand n (Zpos dp).
Proof.
  intros Hn Hnorm.
  pose proof (exponent_normal n (Zpos dp) Hn ltac:(lia) Hnorm) as H.
  cbv zeta in H. unfold significand.
  pose proof (pow2_pos (exponent n (Z.pos dp))).
  pose proof (pow2_pos (- exponent n (Z.pos dp))).
  apply nearestEven_ge; [nia|nia|nia].
Qed.

Lemma scaled_mono_significand (m1 m2 e : Z) :
  m1 <= m2 -> (scaled m1 e <= scaled m2 e)%Q.
Proof.
  intros H. unfold Qle, scaled. cbn [Qnum Qden].
  pose proof (pow2_pos e). pose proof (pow2_pos (- e)).
  rewrite Z2Pos.id by assumption.
  apply Z.mul_le_mono_nonneg_r; [lia|].
  apply Z.mul_le_mono_nonneg_r; [lia|exact H].
Qed.

Lemma scaled_mono_exponent (m1 m2 e1 e2 : Z) :
  m1 <= 2 ^ 53 -> 2 ^ 52 <= m2 -> e1 < e2 ->
  (scaled m1 e1 <= scaled m2 e2)%Q.
Proof.
  intros H1 H2 He. rewrite !scaled_value.
  assert (P1 : (0 < 2 ^ e1)%Q) by (apply Qpower_0_lt; reflexivity).
  assert (P2 : (0 < 2 ^ e2)%Q) by (apply Qpower_0_lt; reflexivity).
  apply Qle_trans with (inject_Z (2 ^ 53) * 2 ^ e1)%Q.
  { apply Qmult_le_compat_r; [rewrite <- Zle_Qle; exact H1|lra]. }
  apply Qle_trans with (inject_Z (2 ^ 52) * 2 ^ e2)%Q.
  2:{ apply Qmult_le_compat_r; [rewrite <- Zle_Qle; exact H2|lra]. }
  assert (E53 : (inject_Z (2 ^ 53) == 2 ^ 53)%Q) by reflexivity.
  assert (E52 : (inject_Z (2 ^ 52) == 2 ^ 52)%Q) by reflexivity.
  rewrite E53, E52.
  rewrite <- !Qpower_plus by exact two_ne_0.
  apply Qpower_le_compat_l; [lia|discriminate].
Qed.

(** Rounding is monotone on the positive numbers; [None] is plus
    infinity. *)
Lemma roundPositive_mono (n1 n2 : Z) (dp1 dp2 : positive) :
  0 < n1 -> 0 < n2 -> n1 * Zpos dp2 <= n2 * Zpos dp1 ->
  match roundPositive n1 (Zpos dp1), roundPositive n2 (Zpos dp2) with
  | Some v1, Some v2 => (v1 <= v2)%Q
  | None, Some _ => False
  | _, None => True
  end.
Proof.
  intros Hn1 Hn2 Hle.
  pose proof (exponent_mono n1 (Zpos dp1) n2 (Zpos dp2) Hn1 ltac:(lia) Hn2
                ltac:(lia) Hle) as He.
  pose proof (significand_le n1 dp1 Hn1) as U1.
  unfold roundPositive.
  set (e1 := exponent n1 (Zpos dp1)) in *.
  set (e2 := exponent n2 (Zpos dp2)) in *.
  destruct (Z.eq_dec e1 e2) as [Eq|Ne].
  - (* the same last place *)
    assert (Hm : significand n1 (Zpos dp1) <= significand n2 (Zpos dp2)).
    { unfold significand. fold e1. fold e2. rewrite <- Eq.
      pose proof (pow2_pos e1). pose proof (pow2_pos (- e1)).
      set (A := 2 ^ Z.max e1 0) in *. set (B := 2 ^ Z.max (- e1) 0) in *.
      apply nearestEven_mono; [nia|nia|nia|nia|].
      replace (n1 * B * (Z.pos dp2 * A))
        with (n1 * Z.pos dp2 * (A * B)) by ring.
      replace (n2 * B * (Z.pos dp1 * A))
        with (n2 * Z.pos dp1 * (A * B)) by ring.
      apply Z.mul_le_mono_nonneg_r; [nia|exact Hle]. }
    set (m1 := significand n1 (Zpos dp1)) in *.
    set (m2 := significand n2 (Zpos dp2)) in *.
    rewrite <- Eq.
    destruct (Z.ltb_spec EMAX e1); cbn [orb].
    + exact I.
    + destruct (Z.eqb_spec e1 EMAX); cbn [andb].
      * destruct (Z.leb_spec (2 ^ 53) m1); destruct (Z.leb_spec (2 ^ 53) m2);
          try exact I; try lia.
        apply scaled_mono_significand. exact Hm.
      * apply scaled_mono_significand. exact Hm.
  - assert (Hlt : e1 < e2) by lia.
    assert (L2 : 2 ^ 52 <= significand n2 (Zpos dp2)).
    { apply significand_ge; [exact Hn2|].
      unfold e2, exponent in Hlt |- *.
      assert (EMIN <= e1) by (unfold e1, exponent; lia).
      lia. }
    set (m1 := significand n1 (Zpos dp1)) in *.
    set (m2 := significand n2 (Zpos dp2)) in *.
    destruct (Z.ltb_spec EMAX e2); cbn [orb].
    + destruct ((EMAX <? e1) || (e1 =? EMAX) && (2 ^ 53 <=? m1)); exact I.
    + destruct (Z.ltb_spec EMAX e1); [lia|].
      destruct (Z.eqb_spec e1 EMAX); [lia|]. cbn [orb andb].
      destruct (Z.eqb_spec e2 EMAX); cbn [andb].
      * destruct (Z.leb_spec (2 ^ 53) m2); [exact I|].
        apply scaled_mono_exponent; assumption.
      * apply scaled_mono_exponent; assumption.
Qed.

(** Rounding to the nearest double is monotone. *)
Lemma round_mono (q1 q2 : Q) : (q1 <= q2)%Q -> leReal (round q1) (round q2).
Proof.
  intros Hle.
  destruct (Qlt_le_dec 0 q1) as [P1|N1].
  - (* both positive *)
    assert (P2 : (0 < q2)%Q) by lra.
    destruct q1 as [n1 d1], q2 as [n2 d2].
    unfold Qlt in P1, P2. unfold Qle in Hle. cbn [Qnum Qden] in *.
    destruct n1 as [|n1|n1]; try lia. destruct n2 as [|n2|n2]; try lia.
    unfold round. cbn [Qnum Qden].
    pose proof (roundPositive_mono (Zpos n1) (Zpos n2) d1 d2
                  ltac:(lia) ltac:(lia) Hle) as H.
    destruct (roundPositive (Z.pos n1) (Z.pos d1)),
      (roundPositive (Z.pos n2) (Z.pos d2)); cbn [leReal]; tauto.
  - destruct (Qlt_le_dec q2 0) as [N2|P2].
    + (* both negative *)
      destruct q1 as [n1 d1], q2 as [n2 d2].
      unfold Qlt in N2. unfold Qle in Hle, N1. cbn [Qnum Qden] in *.
      destruct n2 as [|n2|n2]; try lia. destruct n1 as [|n1|n1]; try lia.
      unfold round. cbn [Qnum Qden].
      pose proof (roundPositive_mono (Zpos n2) (Zpos n1) d2 d1
                    ltac:(lia) ltac:(lia) ltac:(lia)) as H.
      destruct (roundPositive (Z.pos n1) (Z.pos d1)),
        (roundPositive (Z.pos n2) (Z.pos d2)); cbn [leReal]; try tauto.
      lra.
    + (* zero lies between them *)
      pose proof (round_nonpos q1 N1) as H1.
      pose proof (round_nonneg q2 P2) as H2.
      destruct (round q1) as [v1|[|]], (round q2) as [v2|[|]]; cbn [leReal];
        try exact I; try discriminate.
      destruct H2 as (H2 & _). lra.
Qed.

End IeeeFacts.

(** ** The byte of a playback position *)

Module SeekFacts.
Import Ieee IeeeFacts Player.

Lemma targetByte_bounds (size : Z) (t d : Q) :
  1 <= size -> 0 <= targetByte size t d <= size - 1.
Proof.
  intros Hs. unfold targetByte.
  destruct (match round (t / d) with
            | Finite ratio => round (inject_Z size * ratio)
            | Infinite negative => Infinite (xorb negative (size <? 0))
            end) as [p|[|]]; lia.
Qed.

Lemma scale_le (s a b : Q) : (0 <= s -> a <= b -> s * a <= s * b)%Q.
Proof.
  intros Hs Hab. rewrite !(Qmult_comm s).
  apply Qmult_le_compat_r; assumption.
Qed.

Lemma ratio_bounds (t d : Q) :
  (0 < d -> 0 <= t <= d -> 0 <= t / d <= 1)%Q.
Proof.
  intros Hd (H0 & H1). split.
  - apply Qle_shift_div_l; [exact Hd|]. lra.
  - apply Qle_shift_div_r; [exact Hd|]. lra.
Qed.

Lemma floor_near (p x : Q) :
  (x - 1 <= p <= x + 1)%Q -> Qfloor x - 1 <= Qfloor p <= Qfloor x + 1.
Proof.
  intros (Hlo & Hhi).
  pose proof (Qfloor_le p) as Lp. pose proof (Qlt_floor p) as Up.
  pose proof (Qfloor_le x) as Lx. pose proof (Qlt_floor x) as Ux.
  rewrite inject_Z_plus in Up, Ux. change (inject_Z 1) with 1%Q in Up, Ux.
  split.
  - assert (H : (inject_Z (Qfloor x - 2) < inject_Z (Qfloor p))%Q).
    { unfold Z.sub. rewrite inject_Z_plus. change (inject_Z (- (2))) with (- (2))%Q. lra. }
    rewrite <- Zlt_Qlt in H. lia.
  - assert (H : (inject_Z (Qfloor p) < inject_Z (Qfloor x + 2))%Q).
    { rewrite inject_Z_plus. change (inject_Z 2) with 2%Q. lra. }
    rewrite <- Zlt_Qlt in H. lia.
Qed.

(** The smallest rounding error, far below one byte. *)
Lemma tiny_small : (0 <= TINY <= 1 # 18446744073709551616)%Q.
Proof. split; discriminate. Qed.

(** Two roundings of a product of at most [2 ^ 51] stay within one. *)
Lemma product_near (S R r p : Q) :
  (1 <= S <= 2251799813685248 # 1)%Q -> (0 <= R <= 1)%Q ->
  (0 <= r)%Q ->
  (r - R <= R * ULP53 + TINY)%Q -> (R - r <= R * ULP53 + TINY)%Q ->
  (p - S * r <= S * r * ULP53 + TINY)%Q ->
  (S * r - p <= S * r * ULP53 + TINY)%Q ->
  (0 <= S * r <= 4503599627370496 # 1 /\ S * R - 1 <= p <= S * R + 1)%Q.
Proof.
  intros (S1 & S2) (R0 & R1) r0 r1 r2 p1 p2.
  pose proof tiny_small as (T0 & T1).
  rewrite ulp_exact in *.
  set (eta := TINY) in *. clearbody eta.
  pose proof (scale_le S _ _ ltac:(lra) r1) as m1.
  pose proof (scale_le S _ _ ltac:(lra) r2) as m2.
  pose proof (scale_le S _ _ ltac:(lra) R0) as m3.
  pose proof (scale_le S _ _ ltac:(lra) R1) as m4.
  pose proof (scale_le S _ _ ltac:(lra) r0) as m5.
  pose proof (scale_le S _ _ ltac:(lra) T0) as m6.
  pose proof (scale_le S _ _ ltac:(lra) T1) as m7.
  repeat split; lra.
Qed.

(** On a file of at most [2 ^ 51] bytes the byte of a position inside the
    video is at most one off the floor of the exact quotient. *)
Lemma targetByte_near_exact (size : Z) (t d : Q) :
  1 <= size <= 2 ^ 51 -> (0 < d)%Q -> (0 <= t <= d)%Q ->
  let exact := Z.min (size - 1) (Z.max 0 (Qfloor (inject_Z size * t / d))) in
  exact - 1 <= targetByte size t d <= exact + 1.
Proof.
  intros Hs Hd Ht exact.
  pose proof (ratio_bounds t d Hd Ht) as (R0 & R1).
  set (R := (t / d)%Q) in *.
  assert (HS : (1 <= inject_Z size <= 2251799813685248 # 1)%Q).
  { split.
    - change 1%Q with (inject_Z 1). rewrite <- Zle_Qle. lia.
    - change (2251799813685248 # 1)%Q with (inject_Z (2 ^ 51)).
      rewrite <- Zle_Qle. lia. }
  assert (HX : (inject_Z size * t / d == inject_Z size * R)%Q).
  { unfold R, Qdiv. ring. }
  unfold targetByte. fold R.
  destruct (round_finite R R0) as (r & Er).
  { apply Qle_trans with 1%Q; [exact R1|discriminate]. }
  pose proof (round_nonneg R R0) as Hr. rewrite Er in Hr |- *.
  destruct Hr as (r0 & r1 & r2).
  assert (Hy0 : (0 <= inject_Z size * r)%Q)
    by (apply Qmult_le_0_compat; [lra|exact r0]).
  pose proof (round_nonneg (inject_Z size * r) Hy0) as Hp.
  destruct (round (inject_Z size * r)) as [p|neg] eqn:Ep.
  - destruct Hp as (p0 & p1 & p2).
    destruct (product_near (inject_Z size) R r p HS (conj R0 R1) r0 r1 r2
                p1 p2) as (_ & Hnear).
    rewrite <- HX in Hnear.
    pose proof (floor_near p _ Hnear).
    unfold exact. lia.
  - exfalso.
    assert (Hb : (inject_Z size * r <= inject_Z (2 ^ 1000))%Q).
    { assert (Hw : (inject_Z size * r <= 4503599627370496 # 1)%Q).
      { pose proof tiny_small as (T0 & T1).
        pose proof (scale_le (inject_Z size) _ _ ltac:(lra) r1) as m1.
        pose proof (scale_le (inject_Z size) _ _ ltac:(lra) R1) as m4.
        pose proof (scale_le (inject_Z size) _ _ ltac:(lra) R0) as m3.
        pose proof (scale_le (inject_Z size) _ _ ltac:(lra) T1) as m7.
        pose proof (scale_le (inject_Z size) _ _ ltac:(lra) T0) as m6.
        rewrite ulp_exact in *. set (eta := TINY) in *. clearbody eta.
        lra. }
      apply Qle_trans with (4503599627370496 # 1)%Q; [exact Hw|].
      change (4503599627370496 # 1)%Q with (inject_Z (2 ^ 52)).
      rewrite <- Zle_Qle. lia. }
    destruct (round_finite _ Hy0 Hb) as (p & Ep'). congruence.
Qed.

(** A position at or before the start maps to byte 0. *)
Lemma targetByte_start (size : Z) (t d : Q) :
  1 <= size -> (0 < d)%Q -> (t <= 0)%Q -> targetByte size t d = 0.
Proof.
  intros Hs Hd Ht.
  assert (R0 : (t / d <= 0)%Q).
  { apply Qle_shift_div_r; [exact Hd|]. lra. }
  assert (HS : (1 <= inject_Z size)%Q)
    by (change 1%Q with (inject_Z 1); rewrite <- Zle_Qle; lia).
  unfold targetByte.
  pose proof (round_nonpos _ R0) as Hr.
  destruct (round (t / d)) as [r|neg].
  - assert (Hy : (inject_Z size * r <= 0)%Q).
    { pose proof (scale_le (inject_Z size) r 0 ltac:(lra) Hr). lra. }
    pose proof (round_nonpos _ Hy) as Hp.
    destruct (round (inject_Z size * r)) as [p|neg].
    + pose proof (Qfloor_resp_le _ _ Hp) as Hf.
      change (Qfloor 0) with 0 in Hf. lia.
    + subst neg. lia.
  - subst neg. destruct (Z.ltb_spec size 0); [lia|]. cbn [xorb]. lia.
Qed.

(** A position at or past the end maps to the last byte. *)
Lemma targetByte_end (size : Z) (t d : Q) :
  1 <= size <= 2 ^ 51 -> (0 < d)%Q -> (d <= t)%Q ->
  targetByte size t d = size - 1.
Proof.
  intros Hs Hd Ht.
  assert (R1 : (1 <= t / d)%Q).
  { apply Qle_shift_div_l; [exact Hd|]. lra. }
  assert (HS : (1 <= inject_Z size <= 2251799813685248 # 1)%Q).
  { split.
    - change 1%Q with (inject_Z 1). rewrite <- Zle_Qle. lia.
    - change (2251799813685248 # 1)%Q with (inject_Z (2 ^ 51)).
      rewrite <- Zle_Qle. lia. }
  unfold targetByte.
  pose proof (round_nonneg (t / d) ltac:(lra)) as Hr.
  destruct (round (t / d)) as [r|neg].
  - destruct Hr as (r0 & _ & r2).
    pose proof tiny_small as (T0 & T1).
    assert (Hr1 : ((1 # 2) <= r)%Q).
    { rewrite ulp_exact in r2. set (eta := TINY) in *. clearbody eta.
      set (R := (t / d)%Q) in *. clearbody R. lra. }
    assert (Hrlow : (1 - ULP53 - TINY <= r)%Q).
    { rewrite ulp_exact in *. set (eta := TINY) in *. clearbody eta.
      set (R := (t / d)%Q) in *. clearbody R. lra. }
    assert (Hy0 : (0 <= inject_Z size * r)%Q)
      by (apply Qmult_le_0_compat; lra).
    pose proof (round_nonneg _ Hy0) as Hp.
    destruct (round (inject_Z size * r)) as [p|neg].
    + destruct Hp as (p0 & _ & p2).
      pose proof (scale_le (inject_Z size) _ _ ltac:(lra) Hrlow) as m1.
      pose proof (scale_le (inject_Z size) _ _ ltac:(lra) T0) as m6.
      pose proof (scale_le (inject_Z size) _ _ ltac:(lra) T1) as m7.
      assert (Hlow : (inject_Z (size - 1) <= p)%Q).
      { unfold Z.sub. rewrite inject_Z_plus.
        change (inject_Z (- (1))) with (- (1))%Q.
        rewrite ulp_exact in *. set (eta := TINY) in *. clearbody eta.
        set (y := (inject_Z size * r)%Q) in *. clearbody y.
        set (S := inject_Z size) in *. clearbody S.
        lra. }
      pose proof (Qfloor_resp_le _ _ Hlow) as Hf.
      rewrite Qfloor_Z in Hf. lia.
    + subst neg. reflexivity.
  - subst neg. destruct (Z.ltb_spec size 0); [lia|]. reflexivity.
Qed.

(** The byte a seek targets does not decrease when the time grows. *)
Lemma targetByte_mono (size : Z) (t1 t2 d : Q) :
  1 <= size -> (0 < d)%Q -> (t1 <= t2)%Q ->
  targetByte size t1 d <= targetByte size t2 d.
Proof.
  intros Hs Hd Ht.
  assert (Hr : (t1 / d <= t2 / d)%Q).
  { unfold Qdiv. apply Qmult_le_compat_r; [exact Ht|].
    apply Qlt_le_weak, Qinv_lt_0_compat, Hd. }
  pose proof (round_mono _ _ Hr) as Hround.
  unfold targetByte.
  assert (Hneg : (size <? 0) = false) by (apply Z.ltb_ge; lia).
  rewrite Hneg.
  destruct (round (t1 / d)) as [r1|[|]], (round (t2 / d)) as [r2|[|]];
    cbn [leReal] in Hround; try contradiction; cbn [xorb].
  - assert (Hp : (inject_Z size * r1 <= inject_Z size * r2)%Q).
    { apply scale_le; [|exact Hround].
      change 0%Q with (inject_Z 0). rewrite <- Zle_Qle. lia. }
    pose proof (round_mono _ _ Hp) as Hprod.
    destruct (round (inject_Z size * r1)) as [p1|[|]],
      (round (inject_Z size * r2)) as [p2|[|]];
      cbn [leReal] in Hprod; try contradiction; try lia.
    pose proof (Qfloor_resp_le _ _ Hprod). lia.
  - destruct (round (inject_Z size * r1)) as [p1|[|]]; lia.
  - destruct (round (inject_Z size * r2)) as [p2|[|]]; lia.
  - lia.
  - lia.
  - lia.
Qed.

End SeekFacts.

(** ** The segment server *)

Module ServerSpec.
Import Errors Store Http VideoController.

Lemma resolve_fileSize db id user r :
  resolveVideoResource db id user = inr r ->
  fileSize r = Z.of_nat (List.length (file r)).
Proof.
  unfold resolveVideoResource. intros H.
  destruct (findVideo db id) as [v|]; [|discriminate].
  destruct (populateCourse db v) as [c|]; [|discriminate].
  destruct (if negb (creator c =? user_id user)%string then _ else _);
    [discriminate|].
  destruct (readFile db (courseId c, filename v)); [|discriminate].
  injection H as <-. reflexivity.
Qed.

Lemma slice_length (bytes : list Byte.byte) (a b : Z) :
  0 <= a <= b -> b < Z.of_nat (List.length bytes) ->
  Z.of_nat (List.length (slice bytes a b)) = b - a + 1.
Proof.
  intros Hab Hb. unfold slice. rewrite length_firstn, length_skipn. lia.
Qed.

Lemma slice_nth (bytes : list Byte.byte) (a b i : Z) :
  0 <= a -> 0 <= i <= b - a ->
  nth_error (slice bytes a b) (Z.to_nat i)
  = nth_error bytes (Z.to_nat (a + i)).
Proof.
  intros Ha Hi. unfold slice. rewrite nth_error_firstn, nth_error_skipn.
  destruct (Nat.ltb_spec (Z.to_nat i) (Z.to_nat (b - a + 1))); [|lia].
  f_equal. lia.
Qed.

Lemma createReadStream_in_range (bytes : list Byte.byte) (a b : Z) :
  0 <= a <= b -> createReadStream bytes a b = Reading (slice bytes a b).
Proof.
  intros [Ha Hb]. unfold createReadStream.
  destruct (Z.leb_spec 0 a); [|lia].
  destruct (Z.leb_spec a b); [|lia]. reflexivity.
Qed.

(** Inside the file, the segment window is the requested one. *)
Lemma segmentWindow_exact (size a b : Z) :
  0 <= a <= b -> b < size ->
  segmentWindow size (Js.Int a) (Js.Int b) = (a, b).
Proof.
  intros Hab Hb. unfold segmentWindow, clampStart, clampEnd. simpl.
  destruct (Z.leb_spec 0 a); [|lia].
  destruct (Z.ltb_spec b a); [lia|].
  destruct (Z.leb_spec size a); [lia|].
  f_equal. lia.
Qed.

(** A start at or past the end of the file selects the trailing window. *)
Lemma segmentWindow_past_end (size a : Z) (e : Js.Num) :
  size <= a -> 1 <= size ->
  segmentWindow size (Js.Int a) e
  = (Z.max 0 (size - DEFAULT_CHUNK_SIZE), size - 1).
Proof.
  intros Ha Hs. unfold segmentWindow, clampStart. simpl.
  destruct (Z.leb_spec 0 a); [|lia].
  destruct (Z.leb_spec size a); [reflexivity|lia].
Qed.

(** Whatever the two parsed parameters are, the segment window lies inside
    a non-empty file. *)
Lemma segmentWindow_bounds (size : Z) (a b : Js.Num) :
  1 <= size ->
  0 <= fst (segmentWindow size a b)
  /\ fst (segmentWindow size a b) <= snd (segmentWindow size a b)
  /\ snd (segmentWindow size a b) <= size - 1.
Proof.
  intros Hs. unfold segmentWindow, clampStart, clampEnd, DEFAULT_CHUNK_SIZE.
  destruct (Js.finite a) as [x|]; destruct (Js.finite b) as [y|];
    repeat match goal with
           | |- context [Z.leb ?p ?q] => destruct (Z.leb_spec p q)
           | |- context [Z.ltb ?p ?q] => destruct (Z.ltb_spec p q)
           end; simpl; lia.
Qed.

(** Below the end of the file, the full-stream window is the segment
    window. *)
Lemma streamWindow_agrees_inside (size : Z) (a b : Js.Num) :
  clampStart a < size ->
  streamWindow size a b = segmentWindow size a b.
Proof.
  intros H. unfold streamWindow, segmentWindow.
  destruct (Z.leb_spec size (clampStart a)); [lia|reflexivity].
Qed.

Lemma serve_segment_resolved verify db req user r :
  Auth.protect verify db req = inr user ->
  resolveVideoResource db (param_videoId req) user = inr r ->
  serve verify OpSegment db req
  = (let w := segmentWindow (fileSize r) (Js.parseInt (query_start req))
                            (Js.parseInt (query_end req)) in
     Streamed 206 (partialHead (video r) (fst w) (snd w) (fileSize r))
              (createReadStream (file r) (fst w) (snd w))).
Proof.
  intros Hp Hr. unfold serve. rewrite Hp. simpl.
  unfold streamVideoSegment. rewrite Hr.
  destruct (segmentWindow _ _ _); reflexivity.
Qed.

(** C1. For a stored asset and an authorized requester, a segment request
    whose parameters parse to integers [start] and [end_] with
    [0 <= start <= end_ < size] is answered with status 206, the header
    [Content-Range: bytes start-end_/size], the header [Content-Length]
    equal to [end_ - start + 1], and as body exactly the bytes [start] to
    [end_] of the stored file. *)
Theorem segment_exact_range verify db req user r (start end_ : Z) :
  Auth.protect verify db req = inr user ->
  resolveVideoResource db (param_videoId req) user = inr r ->
  Js.parseInt (query_start req) = Js.Int start ->
  Js.parseInt (query_end req) = Js.Int end_ ->
  0 <= start <= end_ -> end_ < fileSize r ->
  exists head body,
    serve verify OpSegment db req = Streamed 206 head (Reading body)
    /\ header "Content-Range" head
       = Some (HStr ("bytes " ++ Js.toString start ++ "-" ++ Js.toString end_
                              ++ "/" ++ Js.toString (fileSize r)))
    /\ header "Content-Length" head = Some (HNum (end_ - start + 1))
    /\ Z.of_nat (List.length body) = end_ - start + 1
    /\ forall i, 0 <= i <= end_ - start ->
         nth_error body (Z.to_nat i) = nth_error (file r) (Z.to_nat (start + i)).
Proof.
  intros Hp Hr Hs He Hse Hsize.
  rewrite (serve_segment_resolved _ _ _ _ _ Hp Hr), Hs, He.
  rewrite (segmentWindow_exact _ _ _ Hse Hsize). cbn [fst snd].
  rewrite (createReadStream_in_range _ _ _ Hse).
  eexists _, _. split; [reflexivity|].
  split; [reflexivity|]. split; [reflexivity|].
  split.
  - apply slice_length; [exact Hse|].
    rewrite <- (resolve_fileSize _ _ _ _ Hr). exact Hsize.
  - intros i Hi. apply slice_nth; lia.
Qed.

(** C2. For a stored asset of size at least 1 and an authorized requester,
    a segment request whose start parses to an integer at or past the size
    is not an error: it is answered with status 206 for the trailing window
    that ends at byte [size - 1] and holds the last [DEFAULT_CHUNK_SIZE]
    bytes (the whole file when it is shorter). *)
Theorem segment_start_past_end verify db req user r (start : Z) :
  Auth.protect verify db req = inr user ->
  resolveVideoResource db (param_videoId req) user = inr r ->
  Js.parseInt (query_start req) = Js.Int start ->
  1 <= fileSize r -> fileSize r <= start ->
  let first := Z.max 0 (fileSize r - DEFAULT_CHUNK_SIZE) in
  let last := fileSize r - 1 in
  serve verify OpSegment db req
  = Streamed 206 (partialHead (video r) first last (fileSize r))
             (Reading (slice (file r) first last))
  /\ status (serve verify OpSegment db req) = 206
  /\ Z.of_nat (List.length (slice (file r) first last))
     = Z.min (fileSize r) DEFAULT_CHUNK_SIZE
  /\ 0 <= first <= last.
Proof.
  intros Hp Hr Hs Hsize Hpast first last.
  assert (Hw : 0 <= first <= last)
    by (unfold first, last, DEFAULT_CHUNK_SIZE; lia).
  rewrite (serve_segment_resolved _ _ _ _ _ Hp Hr), Hs.
  rewrite (segmentWindow_past_end _ _ _ Hpast Hsize). cbn [fst snd].
  fold first last. rewrite (createReadStream_in_range _ _ _ Hw).
  split; [reflexivity|]. split; [reflexivity|]. split; [|exact Hw].
  rewrite slice_length;
    [unfold first, last, DEFAULT_CHUNK_SIZE; lia|exact Hw|].
  rewrite <- (resolve_fileSize _ _ _ _ Hr). unfold last. lia.
Qed.

(** C10. For a stored file of size at least 1 and any [start] and [end]
    query values at all (missing, non-numeric, negative, beyond the size,
    or with [end] below [start]), the segment handler answers 206 with a
    window that satisfies [0 <= start <= end <= fileSize - 1]; its
    Content-Length is at least 1 and the bounded read yields exactly the
    bytes of that window, all inside the file. *)
Theorem segment_clamping_total verify db req user r :
  Auth.protect verify db req = inr user ->
  resolveVideoResource db (param_videoId req) user = inr r ->
  1 <= fileSize r ->
  exists start end_,
    (start, end_) = segmentWindow (fileSize r) (Js.parseInt (query_start req))
                                  (Js.parseInt (query_end req))
    /\ 0 <= start /\ start <= end_ /\ end_ <= fileSize r - 1
    /\ serve verify OpSegment db req
       = Streamed 206 (partialHead (video r) start end_ (fileSize r))
                  (Reading (slice (file r) start end_))
    /\ header "Content-Length" (partialHead (video r) start end_ (fileSize r))
       = Some (HNum (end_ - start + 1))
    /\ 1 <= end_ - start + 1
    /\ Z.of_nat (List.length (slice (file r) start end_)) = end_ - start + 1.
Proof.
  intros Hp Hr Hsize.
  pose proof (segmentWindow_bounds (fileSize r) (Js.parseInt (query_start req))
                (Js.parseInt (query_end req)) Hsize) as (H0 & H1 & H2).
  rewrite (serve_segment_resolved _ _ _ _ _ Hp Hr).
  destruct (segmentWindow _ _ _) as [a b]. cbn [fst snd] in *.
  exists a, b. split; [reflexivity|].
  split; [exact H0|]. split; [exact H1|]. split; [exact H2|].
  rewrite createReadStream_in_range by lia.
  split; [reflexivity|]. split; [reflexivity|]. split; [lia|].
  apply slice_length; [lia|].
  rewrite <- (resolve_fileSize _ _ _ _ Hr). lia.
Qed.

(** The creator asks for bytes 2 to 5 of the ten-byte sample file. *)
Lemma segment_exact_range_witness :
  exists head body,
    serve Sample.verify OpSegment Sample.db Sample.segment_2_5
    = Streamed 206 head (Reading body)
    /\ header "Content-Range" head = Some (HStr "bytes 2-5/10")
    /\ header "Content-Length" head = Some (HNum 4)
    /\ Z.of_nat (List.length body) = 4.
Proof.
  destruct (segment_exact_range Sample.verify Sample.db Sample.segment_2_5
              (mkUser "alice") Sample.introResource 2 5)
    as (head & body & H1 & H2 & H3 & H4 & _);
    [reflexivity | reflexivity | reflexivity | reflexivity | lia
    | simpl; lia | ].
  exists head, body. repeat split; assumption.
Defined.

(** A purchaser asks for bytes 20 to 30 of the ten-byte sample file. *)
Lemma segment_start_past_end_witness :
  serve Sample.verify OpSegment Sample.db Sample.segment_20_30
  = Streamed 206 (partialHead Sample.intro 0 9 10) (Reading Sample.introBytes).
Proof.
  destruct (segment_start_past_end Sample.verify Sample.db Sample.segment_20_30
              (mkUser "bob") Sample.introResource 20)
    as (H & _);
    [reflexivity | reflexivity | reflexivity | simpl; lia | simpl; lia | ].
  exact H.
Defined.

(** A negative start and an end that is not a number. *)
Lemma segment_clamping_total_witness :
  exists start end_,
    0 <= start /\ start <= end_ /\ end_ <= 9
    /\ serve Sample.verify OpSegment Sample.db Sample.segment_garbage
       = Streamed 206 (partialHead Sample.intro start end_ 10)
                  (Reading (slice Sample.introBytes start end_)).
Proof.
  destruct (segment_clamping_total Sample.verify Sample.db
              Sample.segment_garbage (mkUser "bob") Sample.introResource)
    as (a & b & _ & H0 & H1 & H2 & H3 & _);
    [reflexivity | reflexivity | simpl; lia | ].
  exists a, b. repeat split; assumption.
Defined.

(** *** The full-stream endpoint *)

(** X1. Without a range header the full-stream endpoint answers 200 with the
    whole file, its length, and [Accept-Ranges: bytes]. *)
Lemma stream_without_range verify db req user r :
  Auth.protect verify db req = inr user ->
  resolveVideoResource db (param_videoId req) user = inr r ->
  Js.truthy (range req) = false ->
  serve verify OpStream db req
  = Streamed 200 (fullHead (video r) (fileSize r)) (Reading (file r))
  /\ header "Content-Length" (fullHead (video r) (fileSize r))
     = Some (HNum (fileSize r))
  /\ header "Accept-Ranges" (fullHead (video r) (fileSize r))
     = Some (HStr "bytes").
Proof.
  intros Hp Hr Hrange. unfold serve. rewrite Hp. simpl.
  unfold streamVideo. rewrite Hr, Hrange. repeat split.
Qed.

(** X2. With a range header whose start falls inside the file, the full-stream
    endpoint answers what the segment endpoint answers for the same two
    numbers. *)
Lemma stream_range_inside verify db req req' user r h :
  Auth.protect verify db req = inr user ->
  Auth.protect verify db req' = inr user ->
  param_videoId req' = param_videoId req ->
  resolveVideoResource db (param_videoId req) user = inr r ->
  range req = Some h -> Js.truthy (Some h) = true ->
  Js.parseInt (query_start req') = fst (parseRange h) ->
  Js.parseInt (query_end req') = snd (parseRange h) ->
  clampStart (fst (parseRange h)) < fileSize r ->
  serve verify OpStream db req = serve verify OpSegment db req'.
Proof.
  intros Hp Hp' Hid Hr Hh Ht Hs He Hin.
  rewrite (serve_segment_resolved verify db req' user r Hp')
    by (rewrite Hid; exact Hr).
  unfold serve. rewrite Hp. simpl. unfold streamVideo.
  rewrite Hr, Hh, Ht, Hs, He.
  destruct (parseRange h) as [a b]. cbn [fst snd] in *.
  rewrite (streamWindow_agrees_inside _ _ b Hin).
  destruct (segmentWindow (fileSize r) a b). reflexivity.
Qed.

(** X3. At or past the end of the file the full-stream endpoint keeps the
    requested start, here a safe integer: the window it announces ends
    before it starts and the read stream raises. *)
Lemma stream_range_past_end verify db req user r h (start : Z) (e : Js.Num) :
  Auth.protect verify db req = inr user ->
  resolveVideoResource db (param_videoId req) user = inr r ->
  range req = Some h -> Js.truthy (Some h) = true ->
  parseRange h = (Js.Int start, e) ->
  1 <= fileSize r -> fileSize r <= start ->
  start <= Js.MAX_SAFE_INTEGER ->
  serve verify OpStream db req
  = Streamed 206 (partialHead (video r) start (fileSize r - 1) (fileSize r))
             OutOfRange
  /\ header "Content-Length"
            (partialHead (video r) start (fileSize r - 1) (fileSize r))
     = Some (HNum (fileSize r - start))
  /\ fileSize r - start <= 0.
Proof.
  intros Hp Hr Hh Ht Hparse Hsize Hpast _.
  unfold serve. rewrite Hp. simpl. unfold streamVideo.
  rewrite Hr, Hh, Ht, Hparse. unfold streamWindow, clampStart. simpl.
  destruct (Z.leb_spec 0 start); [|lia].
  assert (He : clampEnd (fileSize r) start e = fileSize r - 1).
  { unfold clampEnd, DEFAULT_CHUNK_SIZE.
    destruct (Js.finite e) as [y|]; [destruct (Z.ltb_spec y start)|]; lia. }
  rewrite He. unfold createReadStream.
  destruct (Z.leb_spec start (fileSize r - 1)); [lia|].
  rewrite andb_false_r. split; [reflexivity|]. split; [|lia].
  unfold partialHead, header. simpl. f_equal. f_equal. lia.
Qed.

(** C3. The full-stream endpoint does not compute the segment endpoint's
    window when the start is at or past the end of the file: for the
    ten-byte sample file, [Range: bytes=20-30] yields the head
    [Content-Range: bytes 20-9/10] with [Content-Length] -10 and a read
    stream that raises, where the segment endpoint, for [start=20] and
    [end=30], answers the trailing window [bytes 0-9/10] of length 10. *)
Theorem stream_start_past_end_diverges :
  serve Sample.verify OpStream Sample.db Sample.range_20_30
  = Streamed 206
      [ ("Content-Range", HStr "bytes 20-9/10");
        ("Accept-Ranges", HStr "bytes");
        ("Content-Length", HNum (-10));
        ("Content-Type", HStr "video/mp4");
        ("Cache-Control", HStr "no-store") ]
      OutOfRange
  /\ serve Sample.verify OpSegment Sample.db Sample.segment_20_30
     = Streamed 206
         [ ("Content-Range", HStr "bytes 0-9/10");
           ("Accept-Ranges", HStr "bytes");
           ("Content-Length", HNum 10);
           ("Content-Type", HStr "video/mp4");
           ("Cache-Control", HStr "no-store") ]
         (Reading Sample.introBytes)
  /\ parseRange "bytes=20-30"
     = (Js.parseInt (query_start Sample.segment_20_30),
        Js.parseInt (query_end Sample.segment_20_30)).
Proof.
  split; [|split]; reflexivity.
Qed.

(** *** The access gate *)

Lemma protect_status verify db req e :
  Auth.protect verify db req = inl e -> statusCode e = 401.
Proof.
  unfold Auth.protect. intros H.
  destruct (Auth.requestToken req) as [t|];
    [destruct (Js.truthy (Some t));
     [destruct (verify t) as [id|];
      [destruct (findUserById db id)|]|]|];
    try discriminate; injection H as <-; reflexivity.
Qed.

Lemma protect_valid verify db req t id user :
  Auth.requestToken req = Some t -> t <> "" ->
  verify t = Some id -> findUserById db id = Some user ->
  Auth.protect verify db req = inr user.
Proof.
  intros Ht Hne Hv Hu. unfold Auth.protect. rewrite Ht.
  destruct t; [congruence|]. simpl. rewrite Hv, Hu. reflexivity.
Qed.




Lemma serve_rejected verify op db req e :
  Auth.protect verify db req = inl e ->
  serve verify op db req = Failed (App e)
  /\ status (serve verify op db req) = 401.
Proof.
  intros H. unfold serve. rewrite H. split; [reflexivity|].
  simpl. exact (protect_status _ _ _ _ H).
Qed.

(** The gate lets the creator and every purchaser through. *)
Lemma resolve_granted db id user v c :
  findVideo db id = Some v -> populateCourse db v = Some c ->
  creator c = user_id user
  \/ (exists p, findPurchase db (user_id user) (course_id c) = Some p) ->
  resolveVideoResource db id user
  = match readFile db (courseId c, filename v) with
    | Some bytes => inr (mkResource v c bytes (Z.of_nat (List.length bytes)))
    | None => inl (App (notFound "Video file"))
    end.
Proof.
  intros Hv Hc Hacc. unfold resolveVideoResource. rewrite Hv, Hc.
  destruct Hacc as [Hcr | [p Hp]].
  - rewrite Hcr, String.eqb_refl. reflexivity.
  - rewrite Hp. destruct (creator c =? user_id user)%string; reflexivity.
Qed.

(** The gate stops everyone else, before the stored file is looked at. *)
Lemma resolve_denied db id user v c :
  findVideo db id = Some v -> populateCourse db v = Some c ->
  creator c <> user_id user ->
  findPurchase db (user_id user) (course_id c) = None ->
  resolveVideoResource db id user = inl (App courseNotPurchased).
Proof.
  intros Hv Hc Hcr Hp. unfold resolveVideoResource. rewrite Hv, Hc, Hp.
  apply String.eqb_neq in Hcr. rewrite Hcr. reflexivity.
Qed.





(** C9. For a metadata request the gate comes first: without a valid
    identity the answer is 401 whatever else holds; with a valid identity
    a missing video record is answered 404; for an existing record, a
    requester who is neither creator nor purchaser is answered 403, also
    when the stored file is missing (never 404 in its place); a requester
    with access is answered 404 when the stored file is missing and
    otherwise receives the metadata
    [{id, videoId, title, duration, size, mimeType, filename}], [size]
    being the length of the stored file. *)
Theorem metadata_gate_first verify db req :
  (forall e, Auth.protect verify db req = inl e ->
     serve verify OpMetadata db req = Failed (App e)
     /\ status (serve verify OpMetadata db req) = 401)
  /\ forall user, Auth.protect verify db req = inr user ->
     (findVideo db (param_videoId req) = None ->
        serve verify OpMetadata db req = Failed (App (notFound "Video"))
        /\ status (serve verify OpMetadata db req) = 404)
     /\ forall v c,
          findVideo db (param_videoId req) = Some v ->
          populateCourse db v = Some c ->
          (creator c <> user_id user ->
           findPurchase db (user_id user) (course_id c) = None ->
             serve verify OpMetadata db req = Failed (App courseNotPurchased)
             /\ status (serve verify OpMetadata db req) = 403)
          /\ (creator c = user_id user
              \/ (exists p,
                    findPurchase db (user_id user) (course_id c) = Some p) ->
              (readFile db (courseId c, filename v) = None ->
                 serve verify OpMetadata db req
                 = Failed (App (notFound "Video file"))
                 /\ status (serve verify OpMetadata db req) = 404)
              /\ (forall bytes,
                    readFile db (courseId c, filename v) = Some bytes ->
                    serve verify OpMetadata db req
                    = JsonOk (mkMetadata (video_id v) (videoId v) (title v)
                                (duration v) (Z.of_nat (List.length bytes))
                                (mimeOf v) (filename v)))).
Proof.
  split.
  - intros e He. apply (serve_rejected verify OpMetadata db req e He).
  - intros user Hu. unfold serve. rewrite Hu. simpl.
    unfold getVideoMetadata. split.
    + intros Hv. unfold resolveVideoResource. rewrite Hv.
      split; reflexivity.
    + intros v c Hv Hc. split.
      * intros Hcr Hp.
        rewrite (resolve_denied db _ user v c Hv Hc Hcr Hp).
        split; reflexivity.
      * intros Hacc. rewrite (resolve_granted db _ user v c Hv Hc Hacc).
        split.
        -- intros Hf. rewrite Hf. split; reflexivity.
        -- intros bytes Hf. rewrite Hf. reflexivity.
Qed.

(** With the stored file lost, the third user is still answered 403 and
    the purchaser 404; with the file in place the purchaser receives the
    metadata. *)
Lemma metadata_gate_first_witness :
  serve Sample.verify OpMetadata Sample.dbNoFile
        (Sample.bearer "tok-carol" "v1")
  = Failed (App courseNotPurchased)
  /\ serve Sample.verify OpMetadata Sample.dbNoFile
           (Sample.bearer "tok-bob" "v1")
     = Failed (App (notFound "Video file"))
  /\ serve Sample.verify OpMetadata Sample.db (Sample.bearer "tok-bob" "v1")
     = JsonOk (mkMetadata "v1" "vid-1" "Intro" 600 10 "video/mp4" "intro.mp4").
Proof.
  split; [|split].
  - destruct (metadata_gate_first Sample.verify Sample.dbNoFile
                (Sample.bearer "tok-carol" "v1")) as (_ & H).
    destruct (H (mkUser "carol") eq_refl) as (_ & Hv).
    destruct (Hv Sample.intro (mkCourse "c1" "rocq-101" "alice")
                 eq_refl eq_refl) as (Hd & _).
    apply Hd; [discriminate | reflexivity].
  - destruct (metadata_gate_first Sample.verify Sample.dbNoFile
                (Sample.bearer "tok-bob" "v1")) as (_ & H).
    destruct (H (mkUser "bob") eq_refl) as (_ & Hv).
    destruct (Hv Sample.intro (mkCourse "c1" "rocq-101" "alice")
                 eq_refl eq_refl) as (_ & Hg).
    destruct Hg as (Hnf & _).
    + right. exists (mkPurchase "bob" "c1"). reflexivity.
    + apply Hnf. reflexivity.
  - destruct (metadata_gate_first Sample.verify Sample.db
                (Sample.bearer "tok-bob" "v1")) as (_ & H).
    destruct (H (mkUser "bob") eq_refl) as (_ & Hv).
    destruct (Hv Sample.intro (mkCourse "c1" "rocq-101" "alice")
                 eq_refl eq_refl) as (_ & Hg).
    destruct Hg as (_ & Hok).
    + right. exists (mkPurchase "bob" "c1"). reflexivity.
    + apply (Hok Sample.introBytes). reflexivity.
Defined.

End ServerSpec.

(** ** The stream controller *)

Module PlayerSpec.
Import Player.

Lemma run_app (es1 es2 : list Event) (s : Session) :
  run (es1 ++ es2)%list s
  = match run es1 s with
    | Some (s1, acts1) =>
        match run es2 s1 with
        | Some (s2, acts2) => Some (s2, (acts1 ++ acts2)%list)
        | None => None
        end
    | None => None
    end.
Proof.
  revert s; induction es1 as [|e es1 IH]; intros s; simpl.
  - destruct (run es2 s) as [[s2 acts2]|]; reflexivity.
  - destruct (step e s) as [[s1 acts1]|]; [|reflexivity].
    rewrite IH. destruct (run es1 s1) as [[s2 acts2]|]; [|reflexivity].
    destruct (run es2 s2) as [[s3 acts3]|]; [|reflexivity].
    rewrite app_assoc. reflexivity.
Qed.

Lemma run_reachable (es : list Event) (s s' : Session) acts :
  reachable s -> run es s = Some (s', acts) -> reachable s'.
Proof.
  revert s acts; induction es as [|e es IH]; intros s acts Hs Hrun; simpl in Hrun.
  - injection Hrun as <- _. exact Hs.
  - destruct (step e s) as [[s1 acts1]|] eqn:Hstep; [|discriminate].
    destruct (run es s1) as [[s2 acts2]|] eqn:Hrest; [|discriminate].
    injection Hrun as <- _.
    eapply IH; [|exact Hrest]. eapply reach_step; eassumption.
Qed.

(** A call made while a request is outstanding changes nothing and asks
    for nothing. *)
Lemma appendNextChunk_while_fetching (s : Session) :
  isFetchingChunk s = true -> appendNextChunk s = (s, []).
Proof.
  intros H. unfold appendNextChunk. rewrite H.
  destruct (negb (useMediaSource s)); [reflexivity|].
  destruct (currentVideoId s) as [v|]; [|reflexivity].
  destruct (sourceBuffer s) as [u|]; [|reflexivity].
  destruct (mediaSource s); [|reflexivity].
  destruct (negb (Js.truthy (Some v))); reflexivity.
Qed.

(** The same while the buffer is updating, as it is during a clear. *)
Lemma appendNextChunk_while_updating (s : Session) :
  sourceBuffer s = Some true -> appendNextChunk s = (s, []).
Proof.
  intros H. unfold appendNextChunk. rewrite H.
  destruct (negb (useMediaSource s)); [reflexivity|].
  destruct (currentVideoId s) as [v|]; [|reflexivity].
  destruct (mediaSource s); [|reflexivity].
  destruct (negb (Js.truthy (Some v))); [reflexivity|].
  rewrite orb_true_r. reflexivity.
Qed.

Lemma appendNextChunk_cases (s : Session) : AppendCase s (appendNextChunk s).
Proof.
  unfold appendNextChunk.
  destruct (useMediaSource s) eqn:Hu; cbn [negb]; [|constructor].
  destruct (currentVideoId s) as [v|]; [|constructor].
  destruct (sourceBuffer s) as [u|] eqn:Hb; [|constructor].
  destruct (mediaSource s) as [rs|] eqn:Hm; [|constructor].
  destruct (negb (Js.truthy (Some v))); [constructor|].
  destruct (isFetchingChunk s) eqn:Hf; cbn [orb]; [constructor|].
  destruct u; [constructor|].
  destruct (fileSize s =? 0); [constructor|].
  destruct (fileSize s <=? chunkPointer s).
  - destruct rs; constructor; assumption.
  - apply append_fetch; try assumption. rewrite Hm; discriminate.
Qed.

Ltac inv_close :=
  repeat split; intros;
  try discriminate; try congruence; try tauto; auto;
  try solve [firstorder congruence].

Lemma pair_fst {A B : Type} (p : A * B) (a : A) (b : B) :
  p = (a, b) -> a = fst p.
Proof. intros ->. reflexivity. Qed.

Lemma Inv_append (s : Session) :
  Inv s -> Inv (fst (appendNextChunk s)).
Proof.
  intros HI.
  destruct (appendNextChunk_cases s) as [|Hm|v Hf Hb Hu Hm]; cbn [fst].
  - exact HI.
  - destruct HI as (I2 & I3 & I4 & I5).
    unfold endOfStream. destruct (sourceBuffer s) as [[|]|] eqn:Hb;
      unfold Inv; simpl; rewrite ?Hb; inv_close;
      try (apply I4; discriminate); try (apply I2; reflexivity).
  - destruct HI as (I2 & I3 & I4 & I5).
    unfold Inv; simpl. rewrite Hb. inv_close.
Qed.

Lemma Inv_fallback (s : Session) :
  Inv s -> sourceBuffer s = None -> mediaSource s = None ->
  Inv (fst (fallbackToDirectStream s)).
Proof.
  intros (I2 & I3 & I4 & I5) Hb Hm. unfold fallbackToDirectStream.
  destruct (negb (videoElement s)); unfold Inv; simpl; rewrite ?Hb, ?Hm;
    inv_close.
Qed.

Lemma Inv_no_buffer (s : Session) :
  Inv s -> mediaSource s <> Some Open -> mediaSource s <> Some Ended ->
  sourceBuffer s = None.
Proof.
  intros (_ & _ & I4 & _) H1 H2.
  destruct (sourceBuffer s) eqn:Hb; [|reflexivity].
  destruct I4 as [H|H]; congruence.
Qed.

Lemma Inv_initialize (v : string) (s : Session) :
  Inv (fst (initializeStream v s)).
Proof.
  unfold initializeStream.
  match goal with
  | |- context [if ?c then _ else _] => destruct c
  end; cbn [fst].
  - unfold Inv; simpl. inv_close.
  - match goal with
    | |- context [if ?c then _ else _] => destruct c
    end; cbn [fst].
    + unfold Inv; simpl. inv_close.
    + apply Inv_fallback; [|reflexivity|reflexivity].
      unfold Inv; simpl. inv_close.
Qed.

Lemma Inv_step (e : Event) (s s' : Session) acts :
  Inv s -> step e s = Some (s', acts) -> Inv s'.
Proof.
  intros HI Hstep. destruct e; simpl in Hstep.
  - (* SelectVideo *)
    injection Hstep as Hs. apply pair_fst in Hs; subst s'.
    apply Inv_initialize.
  - (* MetadataLoaded *)
    destruct (mediaSource s) eqn:Hm; [discriminate|].
    destruct (useMediaSource s) eqn:Hu; [|discriminate].
    assert (Hb : sourceBuffer s = None)
      by (apply Inv_no_buffer; congruence).
    destruct HI as (I2 & I3 & I4 & I5).
    assert (HI1 : Inv (set_duration dur (set_fileSize size s)))
      by (unfold Inv; simpl; inv_close).
    destruct supported.
    + injection Hstep as <- _. unfold Inv; simpl. rewrite Hb. inv_close.
    + injection Hstep as Hs. apply pair_fst in Hs; subst s'.
      apply Inv_fallback; [exact HI1|exact Hb|exact Hm].
  - (* MetadataFailed *)
    destruct (mediaSource s) eqn:Hm; [discriminate|].
    destruct (useMediaSource s) eqn:Hu; [|discriminate].
    assert (Hb : sourceBuffer s = None)
      by (apply Inv_no_buffer; congruence).
    injection Hstep as Hs. apply pair_fst in Hs; subst s'.
    apply Inv_fallback; assumption.
  - (* SourceOpen *)
    destruct (mediaSource s) as [[| |]|] eqn:Hm; try discriminate.
    assert (Hb : sourceBuffer s = None)
      by (apply Inv_no_buffer; congruence).
    destruct HI as (I2 & I3 & I4 & I5).
    destruct (I2 Hb) as (Hf & Hc).
    injection Hstep as Hs. apply pair_fst in Hs; subst s'.
    unfold handleSourceOpen. simpl.
    destruct bufferOk.
    + apply Inv_append. unfold Inv; simpl. rewrite Hc. inv_close.
    + apply Inv_fallback; [|reflexivity|reflexivity].
      unfold Inv; simpl. inv_close.
  - (* FetchDone *)
    destruct HI as (I2 & I3 & I4 & I5).
    destruct (nth_error (inFlight s) i) as [[[v a] b]|]; [|discriminate].
    injection Hstep as Hs. apply pair_fst in Hs; subst s'.
    unfold resumeAppend, fragmentFailed. simpl.
    destruct ok; [destruct (sourceBuffer s) as [[|]|] eqn:Hb;
                  [| destruct (hasStartedPlayback s) |] |];
      unfold Inv; simpl; rewrite ?Hb; inv_close.
  - (* UpdateEnd *)
    destruct (sourceBuffer s) as [[|]|] eqn:Hb; try discriminate.
    injection Hstep as Hs. apply pair_fst in Hs; subst s'.
    destruct HI as (I2 & I3 & I4 & I5).
    assert (Hm : mediaSource s = Some Open \/ mediaSource s = Some Ended)
      by (apply I4; congruence).
    assert (Hu : useMediaSource s = true)
      by (apply I5; destruct Hm; congruence).
    unfold handleSourceBufferUpdateEnd. simpl. rewrite Hu. simpl.
    destruct (isClearingBuffer s) eqn:Hc.
    + apply Inv_append.
      destruct (pendingSeekByte s); unfold Inv; simpl; inv_close.
    + destruct (fileSize s <=? chunkPointer s).
      * destruct (mediaSource s) as [[| |]|] eqn:Hm';
          unfold endOfStream, Inv; simpl; rewrite ?Hc, ?Hm'; inv_close.
      * apply Inv_append. unfold Inv; simpl. rewrite Hc. inv_close.
  - (* Seeking *)
    destruct (videoElement s) eqn:Hv; [|discriminate].
    injection Hstep as <- _.
    destruct HI as (I2 & I3 & I4 & I5).
    unfold handleFragmentedSeek. rewrite Hv.
    destruct (useMediaSource s) eqn:Hu; cbn [negb orb];
      [|unfold Inv; inv_close].
    destruct (Qle_bool (duration s) 0); cbn [orb]; [unfold Inv; inv_close|].
    destruct (fileSize s =? 0); [unfold Inv; inv_close|].
    unfold clearSourceBufferForSeek. simpl. rewrite Hu. simpl.
    destruct (sourceBuffer s) as [u|] eqn:Hb;
      [destruct (mediaSource s) as [rs|] eqn:Hm; [destruct r|]|];
      unfold Inv; simpl; rewrite ?Hb, ?Hm; inv_close.
Qed.

(** Every reachable state satisfies the invariant. *)
Lemma reachable_Inv (s : Session) : reachable s -> Inv s.
Proof.
  induction 1 as [v|s e s' acts Hs IH Hstep].
  - unfold Inv, freshSession; simpl. inv_close.
  - exact (Inv_step e s s' acts IH Hstep).
Qed.

Lemma SingleFlight_append (s : Session) :
  SingleFlight s -> SingleFlight (fst (appendNextChunk s)).
Proof.
  unfold SingleFlight. intros H.
  destruct (appendNextChunk_cases s) as [|Hm|v Hf Hb Hu Hm]; cbn [fst].
  - exact H.
  - unfold endOfStream. destruct (sourceBuffer s) as [[|]|]; exact H.
  - simpl. rewrite Hf in H. destruct (inFlight s); [reflexivity|discriminate].
Qed.

(** Within a session the fetching flag counts the outstanding requests. *)
Lemma SingleFlight_step (e : Event) (s s' : Session) acts :
  withinSession e = true -> Inv s -> SingleFlight s ->
  step e s = Some (s', acts) -> SingleFlight s'.
Proof.
  intros He HI HF Hstep. destruct e; [discriminate He| | | | | |];
    simpl in Hstep.
  - (* MetadataLoaded *)
    destruct (mediaSource s); [discriminate|].
    destruct (useMediaSource s); [|discriminate].
    destruct supported; [|unfold fallbackToDirectStream in Hstep;
                          simpl in Hstep; destruct (negb (videoElement s))];
      injection Hstep as <- _; exact HF.
  - (* MetadataFailed *)
    destruct (mediaSource s); [discriminate|].
    destruct (useMediaSource s); [|discriminate].
    unfold fallbackToDirectStream in Hstep.
    destruct (negb (videoElement s)); injection Hstep as <- _; exact HF.
  - (* SourceOpen *)
    destruct (mediaSource s) as [[| |]|] eqn:Hm; try discriminate.
    assert (Hb : sourceBuffer s = None)
      by (apply Inv_no_buffer; [exact HI|congruence|congruence]).
    destruct HI as (I2 & _). destruct (I2 Hb) as (Hf & _).
    unfold SingleFlight in HF. rewrite Hf in HF.
    injection Hstep as Hs. apply pair_fst in Hs; subst s'.
    unfold handleSourceOpen. simpl. destruct bufferOk.
    + apply SingleFlight_append. unfold SingleFlight; simpl.
      rewrite Hf. exact HF.
    + unfold fallbackToDirectStream. simpl.
      destruct (negb (videoElement s)); unfold SingleFlight; simpl; exact HF.
  - (* FetchDone *)
    unfold SingleFlight in HF.
    destruct (nth_error (inFlight s) i) as [[[v a] b]|] eqn:Hq;
      [|discriminate].
    injection Hstep as Hs. apply pair_fst in Hs; subst s'.
    assert (Hi : (i < List.length (inFlight s))%nat)
      by (apply nth_error_Some; congruence).
    destruct (isFetchingChunk s) eqn:Hf; [|lia].
    destruct (inFlight s) as [|x [|y rest]]; simpl in HF, Hi;
      [lia| |discriminate HF].
    assert (i = 0%nat) by lia. subst i.
    unfold resumeAppend, fragmentFailed. simpl.
    destruct ok; [destruct (sourceBuffer s) as [[|]|];
                  [| destruct (hasStartedPlayback s) |] |];
      reflexivity.
  - (* UpdateEnd *)
    destruct (sourceBuffer s) as [[|]|] eqn:Hb; try discriminate.
    injection Hstep as Hs. apply pair_fst in Hs; subst s'.
    unfold handleSourceBufferUpdateEnd. simpl.
    destruct (negb (useMediaSource s)); [exact HF|].
    destruct (isClearingBuffer s).
    + apply SingleFlight_append.
      destruct (pendingSeekByte s); exact HF.
    + destruct (fileSize s <=? chunkPointer s).
      * destruct (mediaSource s) as [[| |]|]; exact HF.
      * apply SingleFlight_append. exact HF.
  - (* Seeking *)
    destruct (videoElement s) eqn:Hv; [|discriminate].
    injection Hstep as <- _.
    unfold SingleFlight.
    unfold handleFragmentedSeek.
    destruct (_ || _ || _ || _); [exact HF|].
    unfold clearSourceBufferForSeek. simpl.
    destruct (negb (useMediaSource s)); [exact HF|].
    destruct (sourceBuffer s); [destruct (mediaSource s); [destruct r|]|];
      exact HF.
Qed.

(** X23. Over the events of one session, from its creation on, at most one
    segment request is outstanding. *)
Lemma single_flight_within_session (es : list Event) :
  forallb withinSession es = true ->
  forall s s' acts,
    Inv s -> SingleFlight s -> run es s = Some (s', acts) ->
    SingleFlight s' /\ (List.length (inFlight s') <= 1)%nat.
Proof.
  induction es as [|e es IH]; intros Hes s s' acts HI HF Hrun;
    simpl in Hes, Hrun.
  - injection Hrun as <- _. split; [exact HF|].
    unfold SingleFlight in HF. rewrite HF.
    destruct (isFetchingChunk s); lia.
  - apply andb_prop in Hes. destruct Hes as (He & Hes).
    destruct (step e s) as [[s1 acts1]|] eqn:Hstep; [|discriminate].
    destruct (run es s1) as [[s2 acts2]|] eqn:Hrest; [|discriminate].
    injection Hrun as <- _.
    apply (IH Hes s1 s2 acts2); [|exact (SingleFlight_step e s s1 acts1 He HI HF Hstep)|exact Hrest].
    exact (Inv_step e s s1 acts1 HI Hstep).
Qed.

Lemma appendNextChunk_keeps (s : Session) :
  pendingSeekByte (fst (appendNextChunk s)) = pendingSeekByte s
  /\ chunkPointer (fst (appendNextChunk s)) = chunkPointer s
  /\ isClearingBuffer (fst (appendNextChunk s)) = isClearingBuffer s.
Proof.
  destruct (appendNextChunk_cases s) as [|Hm|v Hf Hb Hu Hm]; cbn [fst];
    [| unfold endOfStream; destruct (sourceBuffer s) as [[|]|] |];
    repeat split.
Qed.

Lemma appendNextChunk_fetch (s : Session) :
  fetches (snd (appendNextChunk s)) <> [] ->
  isFetchingChunk s = false /\ sourceBuffer s = Some false
  /\ isFetchingChunk (fst (appendNextChunk s)) = true.
Proof.
  destruct (appendNextChunk_cases s) as [|Hm|v Hf Hb Hu Hm]; cbn [fst snd];
    intros H; [elim H; reflexivity | elim H; reflexivity |].
  repeat split; assumption.
Qed.

Lemma clear_keeps (r : ClearResult) (s : Session) :
  pendingSeekByte (clearSourceBufferForSeek r s) = pendingSeekByte s
  /\ chunkPointer (clearSourceBufferForSeek r s) = chunkPointer s
  /\ isFetchingChunk (clearSourceBufferForSeek r s) = isFetchingChunk s
  /\ fileSize (clearSourceBufferForSeek r s) = fileSize s.
Proof.
  unfold clearSourceBufferForSeek.
  destruct (negb (useMediaSource s)); [repeat split|].
  destruct (sourceBuffer s); [|repeat split].
  destruct (mediaSource s); [|repeat split].
  destruct r; repeat split.
Qed.

(** A seek either is ignored or stores its target byte. *)
Lemma seek_pending (t : Q) (r : ClearResult) (s : Session) :
  pendingSeekByte (handleFragmentedSeek t r s) = pendingSeekByte s
  \/ (pendingSeekByte (handleFragmentedSeek t r s)
      = Some (targetByte (fileSize s) t (duration s))
      /\ chunkPointer (handleFragmentedSeek t r s) = chunkPointer s).
Proof.
  unfold handleFragmentedSeek.
  destruct (_ || _ || _ || _); [left; reflexivity|].
  right. destruct (clear_keeps r
    (set_isVideoLoading true
       (set_hasStartedPlayback false
          (set_pendingSeekByte
             (Some (targetByte (fileSize s) t (duration s))) s))))
    as (K1 & K2 & _).
  rewrite K1, K2. split; reflexivity.
Qed.

(** C8. A call to [appendNextChunk] made while the fetching flag is set is
    a no-op, but that does not keep the requests of a session down to one
    at a time: nothing cancels the request of a superseded session, and
    its completion is not recognised as stale.  When a video is selected
    while the first chunk of the previous one is being fetched and that
    chunk arrives after the new source opened, it is appended to the new
    buffer, moves the cursor and unsets the fetching flag while the first
    request of the new session is still outstanding; the next update-end
    then starts a second request of the new session. *)
Theorem late_completion_starts_second_fetch :
  (forall s, isFetchingChunk s = true -> appendNextChunk s = (s, []))
  /\ exists s acts,
       run switchDuringFetch (freshSession "v1") = Some (s, acts)
       /\ reachable s
       /\ inFlight s = [("v2", 0, 2097151); ("v2", 2097152, 4194303)]
       /\ acts = [ Fetch "v1" 0 2097151; FetchMetadata "v2";
                   Fetch "v2" 0 2097151; AppendBuffer 0 2097151;
                   Fetch "v2" 2097152 4194303 ].
Proof.
  split; [exact appendNextChunk_while_fetching|].
  destruct (run switchDuringFetch (freshSession "v1")) as [[s acts]|] eqn:Hrun;
    [|vm_compute in Hrun; discriminate].
  exists s, acts. split; [reflexivity|].
  split; [eapply run_reachable; [apply (reach_fresh "v1")|exact Hrun]|].
  vm_compute in Hrun. injection Hrun as <- <-. split; reflexivity.
Qed.

(** C5, as the code has it. In every reachable state the clearing flag is
    set only while the source buffer is updating, so that
    [appendNextChunk] does nothing then; a step that starts a segment
    request starts it with the fetching flag unset and leaves the clearing
    flag unset; and the pending-seek-byte is committed as the chunk cursor
    only by the update-end handler, when the clearing flag is set, which
    it resets (the byte is otherwise only dropped when the source opens or
    another video is selected, and the cursor restarts at 0). *)
Theorem clearing_only_while_updating (s : Session) :
  reachable s ->
  (isClearingBuffer s = true -> sourceBuffer s = Some true)
  /\ (isClearingBuffer s = true -> appendNextChunk s = (s, []))
  /\ forall e s' acts, step e s = Some (s', acts) ->
       (fetches acts <> [] ->
          isFetchingChunk s = false /\ isFetchingChunk s' = true
          /\ isClearingBuffer s' = false)
       /\ (forall b, pendingSeekByte s = Some b -> pendingSeekByte s' = None ->
             (e = UpdateEnd /\ isClearingBuffer s = true
              /\ isClearingBuffer s' = false /\ chunkPointer s' = b)
             \/ ((exists ok, e = SourceOpen ok) /\ chunkPointer s' = 0)
             \/ ((exists v, e = SelectVideo v) /\ chunkPointer s' = 0)).
Proof.
  intros Hs. pose proof (reachable_Inv s Hs) as (I2 & I3 & I4 & I5).
  split; [exact I3|]. split.
  { intros Hc. apply appendNextChunk_while_updating, I3, Hc. }
  intros e s' acts Hstep. destruct e; simpl in Hstep.
  - (* SelectVideo *)
    unfold initializeStream, fallbackToDirectStream in Hstep.
    cbn [videoElement useMediaSource currentVideoId cleanupMediaSource
         set_videoError set_isVideoLoading set_duration set_currentVideoId]
      in Hstep.
    repeat match type of Hstep with
           | context [if ?c then _ else _] => destruct c
           end;
      injection Hstep as <- <-; simpl; split;
      try (intros H; elim H; reflexivity);
      intros b _ _; right; right; (split; [eexists|]); reflexivity.
  - (* MetadataLoaded *)
    destruct (mediaSource s); [discriminate|].
    destruct (useMediaSource s); [|discriminate].
    destruct supported; [|unfold fallbackToDirectStream in Hstep; simpl in Hstep;
                          destruct (negb (videoElement s));
                          [|destruct (currentVideoId s)]];
      injection Hstep as <- <-; simpl; split;
      try (intros H; elim H; reflexivity); intros b Hb Hn; congruence.
  - (* MetadataFailed *)
    destruct (mediaSource s); [discriminate|].
    destruct (useMediaSource s); [|discriminate].
    unfold fallbackToDirectStream in Hstep.
    destruct (negb (videoElement s)); [|destruct (currentVideoId s)];
      injection Hstep as <- <-; simpl; split;
      try (intros H; elim H; reflexivity); intros b Hb Hn; congruence.
  - (* SourceOpen *)
    destruct (mediaSource s) as [[| |]|] eqn:Hm; try discriminate.
    assert (Hb : sourceBuffer s = None).
    { destruct (sourceBuffer s) eqn:Hb; [|reflexivity].
      destruct I4 as [H|H]; congruence. }
    destruct (I2 Hb) as (Hf & Hc).
    injection Hstep as Hs'. unfold handleSourceOpen in Hs'. simpl in Hs'.
    destruct bufferOk.
    + set (s0 := set_pendingSeekByte None _) in Hs'.
      pose proof (appendNextChunk_keeps s0) as (K1 & K2 & K3).
      pose proof (appendNextChunk_fetch s0) as KF.
      rewrite Hs' in K1, K2, K3, KF. cbn [fst snd] in *. split.
      * intros Hne. destruct (KF Hne) as (_ & _ & F). rewrite K3.
        repeat split; assumption.
      * intros b _ _. right. left. split; [eexists; reflexivity|]. exact K2.
    + unfold fallbackToDirectStream in Hs'. simpl in Hs'.
      destruct (negb (videoElement s)); [|destruct (currentVideoId s)];
        injection Hs' as <- <-; simpl; split;
        try (intros H; elim H; reflexivity);
        intros b _ _; right; left; (split; [eexists|]); reflexivity.
  - (* FetchDone *)
    destruct (nth_error (inFlight s) i) as [[[v a] b0]|]; [|discriminate].
    injection Hstep as Hs'. unfold resumeAppend, fragmentFailed in Hs'.
    simpl in Hs'.
    destruct ok; [destruct (sourceBuffer s) as [[|]|];
                  [| destruct (hasStartedPlayback s) |] |];
      injection Hs' as <- <-; simpl; split;
      try (intros H; elim H; reflexivity); intros b Hb Hn; congruence.
  - (* UpdateEnd *)
    destruct (sourceBuffer s) as [[|]|] eqn:Hb; try discriminate.
    injection Hstep as Hs'.
    assert (Hu : useMediaSource s = true).
    { apply I5. destruct I4 as [H|H]; congruence. }
    unfold handleSourceBufferUpdateEnd in Hs'. simpl in Hs'.
    rewrite Hu in Hs'. simpl in Hs'.
    destruct (isClearingBuffer s) eqn:Hc.
    + set (s0 := match pendingSeekByte s with Some _ => _ | None => _ end) in Hs'.
      assert (Hc0 : isClearingBuffer s0 = false)
        by (unfold s0; destruct (pendingSeekByte s); reflexivity).
      assert (Hf0 : isFetchingChunk s0 = isFetchingChunk s)
        by (unfold s0; destruct (pendingSeekByte s); reflexivity).
      pose proof (appendNextChunk_keeps s0) as (K1 & K2 & K3).
      pose proof (appendNextChunk_fetch s0) as KF.
      rewrite Hs' in K1, K2, K3, KF. cbn [fst snd] in *. split.
      * intros Hne. destruct (KF Hne) as (F0 & _ & F).
        rewrite K3, <- Hf0. repeat split; assumption.
      * intros b Hp _. left. rewrite K3, K2. unfold s0. rewrite Hp.
        repeat split; reflexivity.
    + destruct (fileSize s <=? chunkPointer s).
      * destruct (mediaSource s) as [[| |]|]; injection Hs' as <- <-;
          simpl; split; try (intros H; elim H; reflexivity);
          unfold endOfStream; simpl; intros b Hp Hn; simpl in Hn; congruence.
      * set (s0 := set_sourceBuffer (Some false) s) in Hs'.
        pose proof (appendNextChunk_keeps s0) as (K1 & K2 & K3).
        pose proof (appendNextChunk_fetch s0) as KF.
        rewrite Hs' in K1, K2, K3, KF. cbn [fst snd] in *. split.
        -- intros Hne. destruct (KF Hne) as (F0 & _ & F). rewrite K3.
           repeat split; assumption.
        -- intros b Hp Hn. rewrite K1 in Hn. simpl in Hn. congruence.
  - (* Seeking *)
    destruct (videoElement s) eqn:Hv; [|discriminate].
    injection Hstep as <- <-. split; [intros H; elim H; reflexivity|].
    intros b Hp Hn. exfalso.
    destruct (seek_pending currentTime r s) as [E|[E _]];
      rewrite E in Hn; congruence.
Qed.


(** C5, as stated, fails: a seek that arrives while a segment request is
    outstanding sets the clearing flag next to the fetching flag. *)
Lemma fetching_and_clearing_together :
  (exists s acts,
     run seekDuringFetch (freshSession "v1") = Some (s, acts)
     /\ isFetchingChunk s = true /\ isClearingBuffer s = true)
  /\ ~ (forall s, reachable s ->
          isFetchingChunk s = false \/ isClearingBuffer s = false).
Proof.
  assert (H : exists s acts,
             run seekDuringFetch (freshSession "v1") = Some (s, acts)
             /\ isFetchingChunk s = true /\ isClearingBuffer s = true).
  { destruct (run seekDuringFetch (freshSession "v1")) as [[s acts]|] eqn:Hrun;
      [|vm_compute in Hrun; discriminate].
    exists s, acts. split; [reflexivity|].
    vm_compute in Hrun. injection Hrun as <- <-. split; reflexivity. }
  split; [exact H|].
  destruct H as (s & acts & Hrun & Hf & Hc). intros Hall.
  destruct (Hall s) as [H|H]; [|congruence|congruence].
  eapply run_reachable; [apply (reach_fresh "v1")|exact Hrun].
Qed.

(** After the seek of [seekDuringFetch] the buffer is updating and a call
    to [appendNextChunk] does nothing. *)
Lemma clearing_only_while_updating_witness :
  exists s acts,
    run seekDuringFetch (freshSession "v1") = Some (s, acts)
    /\ sourceBuffer s = Some true
    /\ appendNextChunk s = (s, []).
Proof.
  destruct (run seekDuringFetch (freshSession "v1")) as [[s acts]|] eqn:Hrun;
    [|vm_compute in Hrun; discriminate].
  exists s, acts. split; [reflexivity|].
  assert (Hs : reachable s)
    by (eapply run_reachable; [apply (reach_fresh "v1")|exact Hrun]).
  destruct (clearing_only_while_updating s Hs) as (H1 & H2 & _).
  vm_compute in Hrun. injection Hrun as <- <-.
  split; [apply H1|apply H2]; reflexivity.
Defined.


(** *** Seeking *)

Lemma seek_guard (s : Session) :
  useMediaSource s = true -> videoElement s = true ->
  (0 < duration s)%Q -> 0 < fileSize s ->
  negb (useMediaSource s) || negb (videoElement s)
  || Qle_bool (duration s) 0 || (fileSize s =? 0) = false.
Proof.
  intros Hu Hv Hd Hs. rewrite Hu, Hv. cbn [negb orb].
  destruct (Qle_bool (duration s) 0) eqn:Hq.
  - apply Qle_bool_iff in Hq. exfalso. exact (Qlt_not_le _ _ Hd Hq).
  - cbn [orb]. apply Z.eqb_neq. lia.
Qed.

(** C6, as the code has it. A seek to time [t] with the duration and the
    size, a safe integer, known stores [clamp(floor(size * (t / duration)), 0, size - 1)],
    computed in doubles, as the pending-seek-byte and asks for no chunk;
    for a position inside the video and a file of at most [2 ^ 51] bytes
    that byte is at most one off the exact
    [clamp(floor(size * t / duration), 0, size - 1)].  When the source
    buffer and the media source exist and the buffer accepts the abort and
    the removal, the clearing flag is set and [appendNextChunk] does
    nothing while the removal runs.  When the removal then completes with
    the fetching flag unset, the cursor becomes the target byte and the
    request issued starts exactly there. *)
Theorem seek_resumes_at_target (s : Session) (t : Q) (r : ClearResult) :
  useMediaSource s = true -> videoElement s = true ->
  (0 < duration s)%Q -> 0 < fileSize s <= Js.MAX_SAFE_INTEGER ->
  let target := targetByte (fileSize s) t (duration s) in
  let exact :=
    Z.min (fileSize s - 1)
          (Z.max 0 (Qfloor (inject_Z (fileSize s) * t / duration s))) in
  let s1 := handleFragmentedSeek t r s in
  step (Seeking t r) s = Some (s1, [])
  /\ pendingSeekByte s1 = Some target
  /\ 0 <= target <= fileSize s - 1
  /\ (fileSize s <= 2 ^ 51 -> (0 <= t <= duration s)%Q ->
      exact - 1 <= target <= exact + 1)
  /\ chunkPointer s1 = chunkPointer s
  /\ (sourceBuffer s <> None -> mediaSource s <> None -> r = Cleared ->
      isClearingBuffer s1 = true
      /\ appendNextChunk s1 = (s1, [])
      /\ forall v,
           currentVideoId s = Some v -> v <> "" ->
           isFetchingChunk s = false ->
           exists s2,
             step UpdateEnd s1
             = Some (s2, [Fetch v target
                            (Z.min (target + STREAM_CHUNK_SIZE - 1)
                                   (fileSize s - 1))])
             /\ chunkPointer s2 = target
             /\ pendingSeekByte s2 = None
             /\ isClearingBuffer s2 = false
             /\ isFetchingChunk s2 = true).
Proof.
  intros Hu Hv Hd (Hs & _) target exact s1.
  pose proof (seek_guard s Hu Hv Hd Hs) as Hg.
  assert (Hin : 0 <= target <= fileSize s - 1)
    by (apply SeekFacts.targetByte_bounds; lia).
  assert (Hs1 : s1 = clearSourceBufferForSeek r
                       (set_isVideoLoading true
                          (set_hasStartedPlayback false
                             (set_pendingSeekByte (Some target) s)))).
  { unfold s1, handleFragmentedSeek. rewrite Hg. reflexivity. }
  split; [simpl; rewrite Hv; reflexivity|].
  destruct (clear_keeps r
              (set_isVideoLoading true
                 (set_hasStartedPlayback false
                    (set_pendingSeekByte (Some target) s))))
    as (K1 & K2 & K3 & K4).
  rewrite <- Hs1 in K1, K2, K3, K4.
  split; [exact K1|]. split; [exact Hin|].
  split; [intros Hbig Ht;
          apply SeekFacts.targetByte_near_exact; [lia|exact Hd|exact Ht]|].
  split; [exact K2|].
  intros Hb Hm ->.
  destruct (sourceBuffer s) as [u|] eqn:Eb; [clear Hb|congruence].
  destruct (mediaSource s) as [rs|] eqn:Em; [clear Hm|congruence].
  assert (Hc : isClearingBuffer s1 = true /\ sourceBuffer s1 = Some true).
  { rewrite Hs1. unfold clearSourceBufferForSeek. simpl.
    rewrite Hu, Eb, Em. split; reflexivity. }
  destruct Hc as (Hc & Hb1).
  split; [exact Hc|].
  split; [apply appendNextChunk_while_updating; exact Hb1|].
  intros v Ev Hne Hf.
  assert (Hshape : s1 = set_sourceBuffer (Some true)
                          (set_isClearingBuffer true
                             (set_isVideoLoading true
                                (set_hasStartedPlayback false
                                   (set_pendingSeekByte (Some target) s))))).
  { rewrite Hs1. unfold clearSourceBufferForSeek. simpl.
    rewrite Hu, Eb, Em. reflexivity. }
  rewrite Hshape.
  clear Hshape Hb1 Hc Hs1 K1 K2 K3 K4 Hg exact. clearbody target. clear s1.
  destruct s as [uMS cv ve du ms sb fs cp fe ps cl hs vl er fl].
  simpl in *. subst. destruct v as [|c v']; [congruence|].
  unfold handleSourceBufferUpdateEnd, appendNextChunk. simpl.
  destruct (Z.eqb_spec fs 0); [lia|].
  destruct (Z.leb_spec fs target); [lia|].
  eexists. split; [reflexivity|]. simpl. repeat split.
Qed.


(** The seek to 5:00 of the design document, made while no request is
    outstanding: byte 60,000,000 is stored, and the request after the clear
    starts there. *)
Lemma seek_resumes_at_target_witness :
  exists s acts s1 s2,
    run [MetadataLoaded 120000000 (600 # 1) true; SourceOpen true;
         FetchDone 0 true] (freshSession "v1") = Some (s, acts)
    /\ step (Seeking (300 # 1) Cleared) s = Some (s1, [])
    /\ pendingSeekByte s1 = Some 60000000
    /\ isClearingBuffer s1 = true
    /\ step UpdateEnd s1 = Some (s2, [Fetch "v1" 60000000 62097151])
    /\ chunkPointer s2 = 60000000.
Proof.
  destruct (run [MetadataLoaded 120000000 (600 # 1) true; SourceOpen true;
                 FetchDone 0 true] (freshSession "v1"))
    as [[s acts]|] eqn:Hrun; [|vm_compute in Hrun; discriminate].
  vm_compute in Hrun. injection Hrun as <- <-.
  match goal with
  | |- exists s acts s1 s2, Some (?s0, _) = _ /\ _ =>
      destruct (seek_resumes_at_target s0 (300 # 1) Cleared)
        as (H1 & H2 & _ & _ & _ & H5);
        [reflexivity | reflexivity | reflexivity
        | split; [reflexivity | vm_compute; discriminate] | ];
        destruct H5 as (H6 & _ & H7);
        [discriminate | discriminate | reflexivity | ];
        destruct (H7 "v1") as (s2 & H8 & H9 & _);
        [reflexivity | discriminate | reflexivity | ];
        exists s0, [Fetch "v1" 0 2097151; AppendBuffer 0 2097151],
               (handleFragmentedSeek (300 # 1) Cleared s0), s2
  end.
  split; [reflexivity|]. split; [exact H1|]. split; [exact H2|].
  split; [exact H6|]. split; [exact H8|exact H9].
Defined.

(** C6, as stated, fails twice.  Once the whole file is in the buffer and
    the end of the stream was signalled, the buffer refuses the abort of a
    seek; the handler stores the target byte but the clearing flag stays
    unset, and no clear follows.  And the byte stored is not always the
    floor of the exact quotient: for 49 bytes in 49 seconds a seek to
    second 1 stores byte 0, where [floor(49 * 1 / 49)] is 1, because the
    quotient 1/49 is rounded down before it is multiplied. *)
Lemma seek_after_end_of_stream_not_clearing :
  (exists s acts,
     run smallDownload (freshSession "v1") = Some (s, acts)
     /\ useMediaSource s = true /\ videoElement s = true
     /\ (0 < duration s)%Q /\ 0 < fileSize s
     /\ sourceBuffer s = Some false /\ mediaSource s = Some Ended
     /\ pendingSeekByte (handleFragmentedSeek (300 # 1) AbortRaised s)
        = Some 500
     /\ isClearingBuffer (handleFragmentedSeek (300 # 1) AbortRaised s)
        = false
     /\ step UpdateEnd (handleFragmentedSeek (300 # 1) AbortRaised s) = None)
  /\ (exists s acts,
        run [MetadataLoaded 49 (49 # 1) true; SourceOpen true;
             FetchDone 0 true] (freshSession "v1") = Some (s, acts)
        /\ (0 < duration s)%Q /\ 0 < fileSize s
        /\ pendingSeekByte (handleFragmentedSeek (1 # 1) Cleared s) = Some 0
        /\ Z.min (fileSize s - 1)
                 (Z.max 0 (Qfloor (inject_Z (fileSize s) * (1 # 1)
                                   / duration s))) = 1).
Proof.
  split.
  - destruct (run smallDownload (freshSession "v1"))
      as [[s acts]|] eqn:Hrun; [|vm_compute in Hrun; discriminate].
    exists s, acts. split; [reflexivity|].
    vm_compute in Hrun. injection Hrun as <- <-.
    repeat split.
  - destruct (run [MetadataLoaded 49 (49 # 1) true; SourceOpen true;
                   FetchDone 0 true] (freshSession "v1"))
      as [[s acts]|] eqn:Hrun; [|vm_compute in Hrun; discriminate].
    exists s, acts. split; [reflexivity|].
    vm_compute in Hrun. injection Hrun as <- <-.
    repeat split.
Qed.

(** A seek that arrives while a segment request is outstanding loses its
    target: the clear completes first and commits byte 60,000,000, the
    older request then resolves and moves the cursor behind its own chunk,
    and the next request starts at byte 4,194,304. *)
Lemma seek_during_fetch_resumes_elsewhere :
  exists s acts,
    run (seekDuringFetch ++ [UpdateEnd; FetchDone 0 true; UpdateEnd])
        (freshSession "v1") = Some (s, acts)
    /\ fetches acts = [(0, 2097151); (2097152, 4194303); (4194304, 6291455)]
    /\ pendingSeekByte s = None.
Proof.
  destruct (run (seekDuringFetch ++ [UpdateEnd; FetchDone 0 true; UpdateEnd])
                (freshSession "v1")) as [[s acts]|] eqn:Hrun;
    [|vm_compute in Hrun; discriminate].
  exists s, acts. split; [reflexivity|].
  vm_compute in Hrun. injection Hrun as <- <-. split; reflexivity.
Qed.


(** *** An undisturbed download *)

Lemma fetches_app (a b : list Action) :
  fetches (a ++ b)%list = (fetches a ++ fetches b)%list.
Proof. unfold fetches. apply flat_map_app. Qed.

(** One request resolves and its append completes: either the next
    request goes out, or the end of the stream is signalled. *)
Lemma download_round (v : string) (size p : Z) (s : Session) :
  Streaming v size p s -> v <> "" -> 0 <= p < size ->
  let e := Z.min (p + STREAM_CHUNK_SIZE - 1) (size - 1) in
  (e + 1 < size ->
     exists s',
       run [FetchDone 0 true; UpdateEnd] s
       = Some (s', [AppendBuffer p e;
                    Fetch v (e + 1)
                          (Z.min (e + 1 + STREAM_CHUNK_SIZE - 1) (size - 1))])
       /\ Streaming v size (e + 1) s')
  /\ (size <= e + 1 ->
       exists s',
         run [FetchDone 0 true; UpdateEnd] s
         = Some (s', [AppendBuffer p e; EndOfStream])
         /\ chunkPointer s' = size /\ mediaSource s' = Some Ended
         /\ isFetchingChunk s' = false /\ inFlight s' = []).
Proof.
  intros HS Hv Hp e.
  destruct s as [uMS cv ve du ms sb fs cp fe ps cl hs vl er fl].
  unfold Streaming in HS. simpl in HS.
  destruct HS as (-> & -> & -> & -> & -> & -> & -> & -> & ->).
  fold e. destruct v as [|c v']; [congruence|].
  split; intros He.
  - unfold run, step, resumeAppend, handleSourceBufferUpdateEnd,
      appendNextChunk. simpl.
    destruct hs; simpl;
      (destruct (Z.leb_spec size (e + 1)); [lia|]);
      (destruct (Z.eqb_spec size 0); [lia|]);
      eexists; (split; [reflexivity|]);
      unfold Streaming; simpl; repeat split.
  - unfold run, step, resumeAppend, handleSourceBufferUpdateEnd. simpl.
    destruct hs; simpl;
      (destruct (Z.leb_spec size (e + 1)); [|lia]);
      eexists; (split; [reflexivity|]); simpl; repeat split;
      unfold e in *; lia.
Qed.


(** [n] more rounds from the request for chunk [k], when chunk [k + n - 1]
    is the last one. *)
Lemma download_rounds (v : string) (size : Z) (n : nat) :
  v <> "" ->
  forall (k : nat) (s : Session),
    Streaming v size (Z.of_nat k * STREAM_CHUNK_SIZE) s ->
    (Z.of_nat (k + n) - 1) * STREAM_CHUNK_SIZE < size ->
    size <= Z.of_nat (k + n) * STREAM_CHUNK_SIZE ->
    (1 <= n)%nat ->
    exists s' acts,
      run (rounds n) s = Some (s', acts)
      /\ fetches acts = map (chunkRange size) (seq (S k) (n - 1))
      /\ In EndOfStream acts
      /\ chunkPointer s' = size /\ mediaSource s' = Some Ended
      /\ isFetchingChunk s' = false /\ inFlight s' = [].
Proof.
  intros Hv. induction n as [|n IH]; intros k s HS Hlo Hhi Hn; [lia|].
  unfold rounds. cbn [repeat List.concat]. fold (rounds n).
  rewrite run_app.
  assert (Hp : 0 <= Z.of_nat k * STREAM_CHUNK_SIZE < size)
    by (unfold STREAM_CHUNK_SIZE in *; lia).
  destruct (download_round v size _ s HS Hv Hp) as (Hmore & Hlast).
  destruct n as [|m].
  - (* chunk [k] is the last one *)
    destruct Hlast as (s' & Hrun & H1 & H2 & H3 & H4);
      [unfold STREAM_CHUNK_SIZE in *; lia|].
    rewrite Hrun. cbn [rounds repeat List.concat run].
    exists s'. eexists. split; [reflexivity|].
    split; [reflexivity|]. split; [right; left; reflexivity|].
    repeat split; assumption.
  - destruct Hmore as (s1 & Hrun & HS1);
      [unfold STREAM_CHUNK_SIZE in *; lia|].
    rewrite Hrun.
    assert (Enext : Z.min (Z.of_nat k * STREAM_CHUNK_SIZE + STREAM_CHUNK_SIZE - 1)
                          (size - 1) + 1
                    = Z.of_nat (S k) * STREAM_CHUNK_SIZE)
      by (unfold STREAM_CHUNK_SIZE in *; lia).
    rewrite Enext in HS1.
    destruct (IH (S k) s1 HS1) as (s' & acts & Hrest & Hf & He & Hfin);
      [replace (S k + S m)%nat with (k + S (S m))%nat by lia; exact Hlo
      |replace (S k + S m)%nat with (k + S (S m))%nat by lia; exact Hhi
      |lia|].
    rewrite Hrest. exists s'. eexists. split; [reflexivity|].
    split; [|split; [|exact Hfin]].
    + rewrite fetches_app, Hf. cbn [fetches flat_map app].
      replace (S (S m) - 1)%nat with (S m) by lia.
      replace (S m - 1)%nat with m by lia.
      cbn [seq map]. f_equal. unfold chunkRange. rewrite Enext.
      reflexivity.
    + apply in_or_app. right. exact He.
Qed.

(** The number of chunks is the size divided by the chunk size, rounded
    up. *)
Lemma chunkCount_ceiling (size : Z) :
  1 <= size ->
  (1 <= chunkCount size)%nat
  /\ (Z.of_nat (chunkCount size) - 1) * STREAM_CHUNK_SIZE < size
  /\ size <= Z.of_nat (chunkCount size) * STREAM_CHUNK_SIZE.
Proof.
  intros Hs. unfold chunkCount, STREAM_CHUNK_SIZE.
  change (2 * 1024 * 1024) with 2097152.
  assert (Hq : 1 <= (size + 2097152 - 1) / 2097152)
    by (apply Z.div_le_lower_bound; lia).
  pose proof (Z.mul_div_le (size + 2097152 - 1) 2097152 ltac:(lia)).
  pose proof (Z.mul_succ_div_gt (size + 2097152 - 1) 2097152 ltac:(lia)).
  rewrite Z2Nat.id by lia. split; [lia|]. split; lia.
Qed.

Lemma chunkRanges_contiguous (size : Z) (n : nat) :
  forall k : nat,
    (1 <= n)%nat ->
    (Z.of_nat (k + n) - 1) * STREAM_CHUNK_SIZE < size ->
    size <= Z.of_nat (k + n) * STREAM_CHUNK_SIZE ->
    contiguous (Z.of_nat k * STREAM_CHUNK_SIZE) size
               (map (chunkRange size) (seq k n)).
Proof.
  induction n as [|n IH]; intros k Hn Hlo Hhi; [lia|].
  cbn [seq map contiguous]. unfold chunkRange at 1.
  split; [reflexivity|]. split; [unfold STREAM_CHUNK_SIZE in *; lia|].
  destruct n as [|m].
  - cbn [seq map contiguous]. unfold STREAM_CHUNK_SIZE in *. lia.
  - replace (Z.min (Z.of_nat k * STREAM_CHUNK_SIZE + STREAM_CHUNK_SIZE - 1)
                   (size - 1) + 1)
      with (Z.of_nat (S k) * STREAM_CHUNK_SIZE)
      by (unfold STREAM_CHUNK_SIZE in *; lia).
    apply IH; [lia| |];
      replace (S k + S m)%nat with (k + S (S m))%nat by lia; assumption.
Qed.


(** C7. In chunk mode a call to [appendNextChunk] with the cursor below the
    size asks for exactly the bytes [cursor] to
    [min(cursor + CHUNK - 1, size - 1)], and when that request resolves and
    is appended the cursor is [end + 1]; with the cursor at the size the
    call signals the end of the stream and asks for no bytes; and an
    undisturbed download of a file of [size] bytes issues exactly
    [ceil(size / CHUNK)] requests, chunk [k] being
    [k * CHUNK .. min(k * CHUNK + CHUNK - 1, size - 1)], each starting right
    after the one before and the last ending at [size - 1], followed by the
    end-of-stream signal. *)
Theorem chunk_download_sequence :
  (forall s v rs,
     useMediaSource s = true -> currentVideoId s = Some v -> v <> "" ->
     sourceBuffer s = Some false -> mediaSource s = Some rs ->
     isFetchingChunk s = false -> inFlight s = [] ->
     0 <= chunkPointer s < fileSize s ->
     let end_ := Z.min (chunkPointer s + STREAM_CHUNK_SIZE - 1)
                       (fileSize s - 1) in
     snd (appendNextChunk s) = [Fetch v (chunkPointer s) end_]
     /\ isFetchingChunk (fst (appendNextChunk s)) = true
     /\ chunkPointer (fst (appendNextChunk s)) = chunkPointer s
     /\ exists s',
          step (FetchDone 0 true) (fst (appendNextChunk s))
          = Some (s', [AppendBuffer (chunkPointer s) end_])
          /\ chunkPointer s' = end_ + 1
          /\ isFetchingChunk s' = false)
  /\ (forall s v,
        useMediaSource s = true -> currentVideoId s = Some v -> v <> "" ->
        sourceBuffer s = Some false -> mediaSource s = Some Open ->
        isFetchingChunk s = false ->
        0 < fileSize s <= chunkPointer s ->
        appendNextChunk s = (set_mediaSource (Some Ended) s, [EndOfStream])
        /\ fetches (snd (appendNextChunk s)) = [])
  /\ (forall v size dur,
        v <> "" -> 1 <= size ->
        exists s acts,
          run (MetadataLoaded size dur true :: download (chunkCount size))
              (freshSession v) = Some (s, acts)
          /\ fetches acts = chunkRanges size
          /\ List.length (fetches acts) = chunkCount size
          /\ (Z.of_nat (chunkCount size) - 1) * STREAM_CHUNK_SIZE < size
          /\ size <= Z.of_nat (chunkCount size) * STREAM_CHUNK_SIZE
          /\ contiguous 0 size (fetches acts)
          /\ In EndOfStream acts
          /\ chunkPointer s = size /\ mediaSource s = Some Ended
          /\ inFlight s = []).
Proof.
  split; [|split].
  - intros s v rs Hu Hc Hv Hb Hm Hf Hq Hp end_.
    destruct s as [uMS cv ve du ms sb fs cp fe ps cl hs vl er fl].
    simpl in *. subst. destruct v as [|c v']; [congruence|].
    unfold appendNextChunk. simpl.
    destruct (Z.eqb_spec fs 0); [lia|].
    destruct (Z.leb_spec fs cp); [lia|].
    simpl. repeat split.
    unfold resumeAppend. simpl.
    destruct hs; eexists; repeat split.
  - intros s v Hu Hc Hv Hb Hm Hf Hp.
    destruct s as [uMS cv ve du ms sb fs cp fe ps cl hs vl er fl].
    simpl in *. subst. destruct v as [|c v']; [congruence|].
    unfold appendNextChunk. simpl.
    destruct (Z.eqb_spec fs 0); [lia|].
    destruct (Z.leb_spec fs cp); [|lia].
    split; reflexivity.
  - intros v size dur Hv Hs.
    destruct (chunkCount_ceiling size Hs) as (Hn & Hlo & Hhi).
    assert (Hopen :
      exists s0,
        run [MetadataLoaded size dur true; SourceOpen true] (freshSession v)
        = Some (s0, [Fetch v 0 (Z.min (0 + STREAM_CHUNK_SIZE - 1) (size - 1))])
        /\ Streaming v size (Z.of_nat 0 * STREAM_CHUNK_SIZE) s0).
    { destruct v as [|c v']; [congruence|].
      unfold run, step, handleSourceOpen, appendNextChunk, freshSession.
      simpl.
      destruct (Z.eqb_spec size 0); [lia|].
      destruct (Z.leb_spec size 0); [lia|].
      eexists. split; [reflexivity|].
      unfold Streaming. simpl. repeat split. }
    destruct Hopen as (s0 & Hrun0 & HS0).
    destruct (download_rounds v size (chunkCount size) Hv 0%nat s0 HS0)
      as (s & acts & Hrun & Hf & He & Hfin); try assumption.
    change (MetadataLoaded size dur true :: download (chunkCount size))
      with ([MetadataLoaded size dur true; SourceOpen true]
              ++ rounds (chunkCount size))%list.
    rewrite run_app, Hrun0, Hrun.
    exists s. eexists. split; [reflexivity|].
    assert (Hfetches :
      fetches ([Fetch v 0 (Z.min (0 + STREAM_CHUNK_SIZE - 1) (size - 1))]
                 ++ acts)%list = chunkRanges size).
    { rewrite fetches_app, Hf. unfold chunkRanges.
      destruct (chunkCount size) as [|m]; [lia|].
      replace (S m - 1)%nat with m by lia. reflexivity. }
    rewrite Hfetches.
    split; [reflexivity|].
    split; [unfold chunkRanges; rewrite length_map, length_seq; reflexivity|].
    split; [exact Hlo|]. split; [exact Hhi|].
    split; [apply (chunkRanges_contiguous size (chunkCount size) 0%nat);
            assumption|].
    split; [apply in_or_app; right; exact He|].
    destruct Hfin as (H1 & H2 & _ & H4). repeat split; assumption.
Qed.

(** A file of 5,000,000 bytes is fetched in three requests. *)
Lemma chunk_download_sequence_witness :
  exists s acts,
    run (MetadataLoaded 5000000 (600 # 1) true :: download 3)
        (freshSession "v1") = Some (s, acts)
    /\ fetches acts = [(0, 2097151); (2097152, 4194303); (4194304, 4999999)]
    /\ In EndOfStream acts
    /\ chunkPointer s = 5000000.
Proof.
  destruct chunk_download_sequence as (_ & _ & H).
  destruct (H "v1" 5000000 (600 # 1)) as (s & acts & Hrun & Hf & _ & _ & _ & _
                                           & He & Hp & _);
    [discriminate | lia | ].
  exists s, acts. split; [exact Hrun|]. split; [exact Hf|].
  split; [exact He|exact Hp].
Defined.

(** The scenario of the design document with the chunk size of the code
    (2 MiB): 120,000,000 bytes take 58 requests, the last one ending at
    byte 119,999,999. *)
Lemma chunk_count_scenario :
  chunkCount 120000000 = 58%nat
  /\ nth 0 (chunkRanges 120000000) (0, 0) = (0, 2097151)
  /\ nth 1 (chunkRanges 120000000) (0, 0) = (2097152, 4194303)
  /\ nth 57 (chunkRanges 120000000) (0, 0) = (119537664, 119999999).
Proof. vm_compute. repeat split. Qed.

End PlayerSpec.

(** ** Range headers on the full-stream endpoint *)

Module RangeSpec.
Import Errors Store Http VideoController.

Lemma split_without (c : ascii) (d : string) :
  Helpers.allChars (fun x => negb (Ascii.eqb x c)) d = true ->
  Js.split c d = [d].
Proof.
  induction d as [|a d IH]; intros H; [reflexivity|].
  cbn [Helpers.allChars] in H. apply andb_prop in H as [Ha Hd].
  cbn [Js.split]. apply negb_true_iff in Ha. rewrite Ha, (IH Hd).
  reflexivity.
Qed.

Lemma split_at_first (c : ascii) (d s : string) :
  Helpers.allChars (fun x => negb (Ascii.eqb x c)) d = true ->
  Js.split c (d ++ String c s) = d :: Js.split c s.
Proof.
  induction d as [|a d IH]; intros H.
  - cbn [append Js.split]. rewrite Ascii.eqb_refl. reflexivity.
  - cbn [Helpers.allChars] in H. apply andb_prop in H as [Ha Hd].
    cbn [append Js.split]. apply negb_true_iff in Ha.
    rewrite Ha, (IH Hd). reflexivity.
Qed.

Lemma digits_without_dash (u : Decimal.uint) :
  Helpers.allChars (fun x => negb (Ascii.eqb x "-"))
                   (NilEmpty.string_of_uint u) = true.
Proof.
  induction u; cbn [NilEmpty.string_of_uint Helpers.allChars];
    try reflexivity; rewrite IHu; reflexivity.
Qed.

Lemma toString_without_dash (z : Z) :
  0 <= z ->
  Helpers.allChars (fun x => negb (Ascii.eqb x "-")) (Js.toString z) = true.
Proof.
  intros Hz. unfold Js.toString.
  destruct (Z.ltb_spec z 0); [lia|].
  unfold NilZero.string_of_uint.
  destruct (N.to_uint (Z.to_N z)) eqn:E; try reflexivity;
    rewrite <- E; apply digits_without_dash.
Qed.

Lemma toString_truthy (z : Z) : Js.truthy (Some (Js.toString z)) = true.
Proof.
  unfold Js.toString.
  destruct (z <? 0); [reflexivity|].
  unfold NilZero.string_of_uint.
  destruct (N.to_uint (Z.to_N z)); reflexivity.
Qed.

Lemma removeFirst_prefix (s : string) :
  Js.removeFirst "bytes=" ("bytes=" ++ s) = s.
Proof. destruct s; reflexivity. Qed.

(** The two numbers of [bytes=a-b] come back as written. *)
Lemma parseRange_closed (a b : Z) :
  0 <= a < Js.DOUBLE_OVERFLOW -> 0 <= b < Js.DOUBLE_OVERFLOW ->
  parseRange ("bytes=" ++ Js.toString a ++ "-" ++ Js.toString b)
  = (Js.Int a, Js.Int b).
Proof.
  intros Ha Hb. unfold parseRange. rewrite removeFirst_prefix.
  change (Js.toString a ++ "-" ++ Js.toString b)
    with (Js.toString a ++ String "-" (Js.toString b)).
  rewrite split_at_first by (apply toString_without_dash; lia).
  rewrite split_without by (apply toString_without_dash; lia).
  cbn [nth nth_error]. rewrite toString_truthy.
  rewrite !JsFacts.parseInt_toString by lia. reflexivity.
Qed.

(** [bytes=a-] has no second number. *)
Lemma parseRange_open (a : Z) :
  0 <= a < Js.DOUBLE_OVERFLOW ->
  parseRange ("bytes=" ++ Js.toString a ++ "-") = (Js.Int a, Js.NaN).
Proof.
  intros Ha. unfold parseRange. rewrite removeFirst_prefix.
  change (Js.toString a ++ "-")
    with (Js.toString a ++ String "-" EmptyString).
  rewrite split_at_first by (apply toString_without_dash; lia).
  cbn [Js.split nth nth_error Js.truthy].
  rewrite JsFacts.parseInt_toString by lia. reflexivity.
Qed.

(** [bytes=-n] has no first number. *)
Lemma parseRange_suffix (n : Z) :
  0 <= n < Js.DOUBLE_OVERFLOW ->
  parseRange ("bytes=-" ++ Js.toString n) = (Js.NaN, Js.Int n).
Proof.
  intros Hn. unfold parseRange.
  change ("bytes=-" ++ Js.toString n)
    with ("bytes=" ++ String "-" (Js.toString n)).
  rewrite removeFirst_prefix.
  change (String "-" (Js.toString n))
    with ("" ++ String "-" (Js.toString n)).
  rewrite split_at_first by reflexivity.
  rewrite split_without by (apply toString_without_dash; lia).
  cbn [nth nth_error]. rewrite toString_truthy.
  rewrite JsFacts.parseInt_toString by lia. reflexivity.
Qed.

Lemma serve_stream_range verify db req user r h :
  Auth.protect verify db req = inr user ->
  resolveVideoResource db (param_videoId req) user = inr r ->
  range req = Some h -> Js.truthy (Some h) = true ->
  serve verify OpStream db req
  = (let w := streamWindow (fileSize r) (fst (parseRange h))
                           (snd (parseRange h)) in
     Streamed 206 (partialHead (video r) (fst w) (snd w) (fileSize r))
              (createReadStream (file r) (fst w) (snd w))).
Proof.
  intros Hp Hr Hh Ht. unfold serve. rewrite Hp. cbn [handler].
  unfold streamVideo. rewrite Hr, Hh, Ht.
  destruct (parseRange h) as [a b]. cbn [fst snd].
  destruct (streamWindow (fileSize r) a b). reflexivity.
Qed.

Lemma range_truthy (s : string) : Js.truthy (Some ("bytes=" ++ s)) = true.
Proof. reflexivity. Qed.

(** X4. A header [Range: bytes=a-b] whose first byte is inside the file is
    answered with status 206 and exactly the bytes [a] to [b], cut at the
    last byte of the file: the two numbers the client printed are the two
    numbers the handler reads. *)
Theorem stream_closed_range verify db req user r (a b : Z) :
  Auth.protect verify db req = inr user ->
  resolveVideoResource db (param_videoId req) user = inr r ->
  range req = Some ("bytes=" ++ Js.toString a ++ "-" ++ Js.toString b) ->
  0 <= a <= b -> a < fileSize r -> b < Js.DOUBLE_OVERFLOW ->
  let last := Z.min b (fileSize r - 1) in
  serve verify OpStream db req
  = Streamed 206 (partialHead (video r) a last (fileSize r))
             (Reading (slice (file r) a last))
  /\ header "Content-Range" (partialHead (video r) a last (fileSize r))
     = Some (HStr ("bytes " ++ Js.toString a ++ "-" ++ Js.toString last
                            ++ "/" ++ Js.toString (fileSize r)))
  /\ Z.of_nat (List.length (slice (file r) a last)) = last - a + 1.
Proof.
  intros Hp Hr Hh Hab Ha Hb last.
  rewrite (serve_stream_range verify db req user r _ Hp Hr Hh (range_truthy _)).
  rewrite parseRange_closed by lia. cbn [fst snd].
  assert (Hw : streamWindow (fileSize r) (Js.Int a) (Js.Int b) = (a, last)).
  { unfold streamWindow, clampStart, clampEnd. cbn [Js.finite].
    destruct (Z.leb_spec 0 a); [|lia].
    destruct (Z.ltb_spec b a); [lia|]. reflexivity. }
  rewrite Hw. cbn [fst snd].
  rewrite ServerSpec.createReadStream_in_range by (unfold last; lia).
  split; [reflexivity|]. split; [reflexivity|].
  apply ServerSpec.slice_length; [unfold last; lia|].
  rewrite <- (ServerSpec.resolve_fileSize _ _ _ _ Hr). unfold last; lia.
Qed.

Lemma stream_closed_range_witness :
  serve Sample.verify OpStream Sample.db
        (Sample.request (Some "tok-bob") "v1" (Some "bytes=2-30") None None)
  = Streamed 206 (partialHead Sample.intro 2 9 10)
             (Reading (slice Sample.introBytes 2 9)).
Proof.
  pose proof (stream_closed_range Sample.verify Sample.db
                (Sample.request (Some "tok-bob") "v1" (Some "bytes=2-30")
                                None None)
                (mkUser "bob") Sample.introResource 2 30) as H.
  destruct H as (H & _); [reflexivity | reflexivity | reflexivity
                        | lia | simpl; lia | vm_compute; reflexivity | ].
  exact H.
Defined.

(** X5. A header [Range: bytes=a-], which is what a media element sends, is
    answered with at most [DEFAULT_CHUNK_SIZE] bytes from [a] on, not with
    the rest of the file. *)
Theorem stream_open_range verify db req user r (a : Z) :
  Auth.protect verify db req = inr user ->
  resolveVideoResource db (param_videoId req) user = inr r ->
  range req = Some ("bytes=" ++ Js.toString a ++ "-") ->
  0 <= a < fileSize r -> a < Js.DOUBLE_OVERFLOW ->
  let last := Z.min (a + DEFAULT_CHUNK_SIZE - 1) (fileSize r - 1) in
  serve verify OpStream db req
  = Streamed 206 (partialHead (video r) a last (fileSize r))
             (Reading (slice (file r) a last))
  /\ Z.of_nat (List.length (slice (file r) a last))
     = Z.min DEFAULT_CHUNK_SIZE (fileSize r - a).
Proof.
  intros Hp Hr Hh Ha Hbig last.
  rewrite (serve_stream_range verify db req user r _ Hp Hr Hh (range_truthy _)).
  rewrite parseRange_open by lia. cbn [fst snd].
  assert (Hw : streamWindow (fileSize r) (Js.Int a) Js.NaN = (a, last)).
  { unfold streamWindow, clampStart, clampEnd. cbn [Js.finite].
    destruct (Z.leb_spec 0 a); [|lia]. reflexivity. }
  rewrite Hw. cbn [fst snd].
  assert (Hl : a <= last < fileSize r)
    by (unfold last, DEFAULT_CHUNK_SIZE; lia).
  rewrite ServerSpec.createReadStream_in_range by lia.
  split; [reflexivity|].
  rewrite ServerSpec.slice_length;
    [unfold last, DEFAULT_CHUNK_SIZE; lia | lia |].
  rewrite <- (ServerSpec.resolve_fileSize _ _ _ _ Hr). lia.
Qed.

Lemma stream_open_range_witness :
  serve Sample.verify OpStream Sample.db
        (Sample.request (Some "tok-alice") "v1" (Some "bytes=4-") None None)
  = Streamed 206 (partialHead Sample.intro 4 9 10)
             (Reading (slice Sample.introBytes 4 9)).
Proof.
  pose proof (stream_open_range Sample.verify Sample.db
                (Sample.request (Some "tok-alice") "v1" (Some "bytes=4-")
                                None None)
                (mkUser "alice") Sample.introResource 4) as H.
  destruct H as (H & _); [reflexivity | reflexivity | reflexivity
                        | simpl; lia | vm_compute; reflexivity | ].
  exact H.
Defined.

(** X6. A suffix header [Range: bytes=-n], which asks for the last [n] bytes,
    is answered with the first bytes of the file instead: bytes 0 to [n],
    cut at the end of the file. *)
Theorem stream_suffix_range verify db req user r (n : Z) :
  Auth.protect verify db req = inr user ->
  resolveVideoResource db (param_videoId req) user = inr r ->
  range req = Some ("bytes=-" ++ Js.toString n) ->
  0 <= n < Js.DOUBLE_OVERFLOW -> 1 <= fileSize r ->
  let last := Z.min n (fileSize r - 1) in
  serve verify OpStream db req
  = Streamed 206 (partialHead (video r) 0 last (fileSize r))
             (Reading (slice (file r) 0 last))
  /\ nth_error (slice (file r) 0 last) 0 = nth_error (file r) 0.
Proof.
  intros Hp Hr Hh Hn Hsize last.
  rewrite (serve_stream_range verify db req user r _ Hp Hr Hh (range_truthy _)).
  rewrite parseRange_suffix by lia. cbn [fst snd].
  assert (Hw : streamWindow (fileSize r) Js.NaN (Js.Int n) = (0, last)).
  { unfold streamWindow, clampStart, clampEnd. cbn [Js.finite].
    destruct (Z.ltb_spec n 0); [lia|]. reflexivity. }
  rewrite Hw. cbn [fst snd].
  assert (Hl : 0 <= last < fileSize r) by (unfold last; lia).
  rewrite ServerSpec.createReadStream_in_range by lia.
  split; [reflexivity|].
  apply (ServerSpec.slice_nth (file r) 0 last 0); lia.
Qed.

Lemma stream_suffix_range_witness :
  serve Sample.verify OpStream Sample.db
        (Sample.request (Some "tok-alice") "v1" (Some "bytes=-3") None None)
  = Streamed 206 (partialHead Sample.intro 0 3 10)
             (Reading (slice Sample.introBytes 0 3)).
Proof.
  pose proof (stream_suffix_range Sample.verify Sample.db
                (Sample.request (Some "tok-alice") "v1" (Some "bytes=-3")
                                None None)
                (mkUser "alice") Sample.introResource 3) as H.
  destruct H as (H & _); [reflexivity | reflexivity | reflexivity
                        | split; [lia | vm_compute; reflexivity]
                        | simpl; lia | ].
  exact H.
Defined.

Lemma stream_without_range_witness :
  serve Sample.verify OpStream Sample.db (Sample.bearer "tok-bob" "vid-1")
  = Streamed 200 (fullHead Sample.intro 10) (Reading Sample.introBytes).
Proof.
  pose proof (ServerSpec.stream_without_range Sample.verify Sample.db
                (Sample.bearer "tok-bob" "vid-1") (mkUser "bob")
                Sample.introResource) as H.
  destruct H as (H & _); [reflexivity | reflexivity | reflexivity | ].
  exact H.
Defined.

Lemma stream_range_inside_witness :
  serve Sample.verify OpStream Sample.db
        (Sample.request (Some "tok-alice") "vid-1" (Some "bytes=2-5")
                        None None)
  = serve Sample.verify OpSegment Sample.db Sample.segment_2_5.
Proof.
  apply (ServerSpec.stream_range_inside Sample.verify Sample.db _ _
           (mkUser "alice") Sample.introResource "bytes=2-5");
    reflexivity.
Defined.

Lemma stream_range_past_end_witness :
  serve Sample.verify OpStream Sample.db
        (Sample.request (Some "tok-alice") "v1" (Some "bytes=12-") None None)
  = Streamed 206 (partialHead Sample.intro 12 9 10) OutOfRange.
Proof.
  pose proof (ServerSpec.stream_range_past_end Sample.verify Sample.db
                (Sample.request (Some "tok-alice") "v1" (Some "bytes=12-")
                                None None)
                (mkUser "alice") Sample.introResource "bytes=12-" 12 Js.NaN)
    as H.
  destruct H as (H & _); [reflexivity | reflexivity | reflexivity
                        | reflexivity | reflexivity | simpl; lia
                        | simpl; lia | vm_compute; discriminate | ].
  exact H.
Defined.

(** X7. A segment request without a usable [end] is answered with at most
    [DEFAULT_CHUNK_SIZE] bytes; when its start is a byte of the file they
    are the bytes from that start on. *)
Theorem segment_default_window verify db req user r :
  Auth.protect verify db req = inr user ->
  resolveVideoResource db (param_videoId req) user = inr r ->
  1 <= fileSize r ->
  Js.finite (Js.parseInt (query_end req)) = None ->
  exists start end_,
    serve verify OpSegment db req
    = Streamed 206 (partialHead (video r) start end_ (fileSize r))
               (Reading (slice (file r) start end_))
    /\ 0 <= start <= end_ /\ end_ < fileSize r
    /\ end_ - start + 1 <= DEFAULT_CHUNK_SIZE
    /\ Z.of_nat (List.length (slice (file r) start end_)) = end_ - start + 1
    /\ (clampStart (Js.parseInt (query_start req)) < fileSize r ->
        start = clampStart (Js.parseInt (query_start req))
        /\ end_ = Z.min (start + DEFAULT_CHUNK_SIZE - 1) (fileSize r - 1)).
Proof.
  intros Hp Hr Hsize Hend.
  rewrite (ServerSpec.serve_segment_resolved verify db req user r Hp Hr).
  cbv zeta.
  pose proof (ServerSpec.segmentWindow_bounds (fileSize r)
                (Js.parseInt (query_start req)) (Js.parseInt (query_end req))
                Hsize) as (B1 & B2 & B3).
  assert (Hstart : 0 <= clampStart (Js.parseInt (query_start req))).
  { unfold clampStart.
    destruct (Js.finite (Js.parseInt (query_start req))) as [z|]; [|lia].
    destruct (Z.leb_spec 0 z); lia. }
  revert B1 B2 B3. unfold segmentWindow, clampEnd. rewrite Hend.
  set (s0 := clampStart (Js.parseInt (query_start req))) in *.
  destruct (Z.leb_spec (fileSize r) s0) as [Hpast|Hin];
    cbn [fst snd]; intros B1 B2 B3.
  - exists (Z.max 0 (fileSize r - DEFAULT_CHUNK_SIZE)), (fileSize r - 1).
    rewrite ServerSpec.createReadStream_in_range by lia.
    split; [reflexivity|]. split; [lia|]. split; [lia|].
    split; [unfold DEFAULT_CHUNK_SIZE; lia|]. split; [|lia].
    apply ServerSpec.slice_length; [lia|].
    rewrite <- (ServerSpec.resolve_fileSize _ _ _ _ Hr). lia.
  - exists s0, (Z.min (s0 + DEFAULT_CHUNK_SIZE - 1) (fileSize r - 1)).
    rewrite ServerSpec.createReadStream_in_range by lia.
    split; [reflexivity|]. split; [lia|]. split; [lia|].
    split; [unfold DEFAULT_CHUNK_SIZE; lia|]. split; [|intros _; split; reflexivity].
    apply ServerSpec.slice_length; [lia|].
    rewrite <- (ServerSpec.resolve_fileSize _ _ _ _ Hr). lia.
Qed.

Lemma segment_default_window_witness :
  exists start end_,
    serve Sample.verify OpSegment Sample.db Sample.segment_garbage
    = Streamed 206 (partialHead Sample.intro start end_ 10)
               (Reading (slice Sample.introBytes start end_))
    /\ 0 <= start <= end_ /\ end_ < 10.
Proof.
  destruct (segment_default_window Sample.verify Sample.db
              Sample.segment_garbage (mkUser "bob") Sample.introResource)
    as (a & b & H0 & H1 & H2 & _);
    [reflexivity | reflexivity | simpl; lia | reflexivity | ].
  exists a, b. repeat split; try assumption; apply H1.
Defined.

End RangeSpec.

(** ** Tokens and the order of the checks *)

Module GateSpec.
Import Errors Store Http VideoController.

Lemma requestToken_headerToken (req : Request) :
  Auth.requestToken req
  = if negb (Js.truthy (AuthMore.headerToken req))
       && Js.truthy (query_token req)
    then query_token req
    else AuthMore.headerToken req.
Proof. reflexivity. Qed.

Lemma headerToken_bearer (t : string) rg q s e v :
  Helpers.allChars (fun x => negb (Ascii.eqb x " ")) t = true ->
  AuthMore.headerToken (mkRequest (Some ("Bearer " ++ t)) rg q s e v) = Some t.
Proof.
  intros Ht. unfold AuthMore.headerToken. cbn [authorization].
  change ("Bearer " ++ t) with ("Bearer" ++ String " " t).
  rewrite RangeSpec.split_at_first by reflexivity.
  rewrite RangeSpec.split_without by exact Ht.
  reflexivity.
Qed.

Lemma truthy_nonempty (t : string) : t <> "" -> Js.truthy (Some t) = true.
Proof. destruct t; [congruence|reflexivity]. Qed.



(** X9. A token in a [Bearer] authorization header and the same token in the
    [token] query parameter authenticate alike; when a request carries
    both, the header's token is the one that counts. *)
Theorem bearer_and_query_token_agree verify db (t : string)
    rg q s e v rg' s' e' v' :
  t <> "" ->
  Helpers.allChars (fun x => negb (Ascii.eqb x " ")) t = true ->
  Auth.requestToken (mkRequest (Some ("Bearer " ++ t)) rg q s e v) = Some t
  /\ Auth.requestToken (mkRequest None rg' (Some t) s' e' v') = Some t
  /\ Auth.protect verify db (mkRequest (Some ("Bearer " ++ t)) rg q s e v)
     = Auth.protect verify db (mkRequest None rg' (Some t) s' e' v').
Proof.
  intros Hne Hsp.
  assert (H1 : Auth.requestToken
                 (mkRequest (Some ("Bearer " ++ t)) rg q s e v) = Some t).
  { rewrite requestToken_headerToken, (headerToken_bearer t) by exact Hsp.
    rewrite (truthy_nonempty t Hne). reflexivity. }
  assert (H2 : Auth.requestToken (mkRequest None rg' (Some t) s' e' v')
               = Some t).
  { unfold Auth.requestToken. cbn [authorization query_token].
    rewrite (truthy_nonempty t Hne). reflexivity. }
  split; [exact H1|]. split; [exact H2|].
  unfold Auth.protect. rewrite H1, H2. reflexivity.
Qed.

Lemma bearer_and_query_token_agree_witness :
  Auth.protect Sample.verify Sample.db
    (mkRequest (Some "Bearer tok-bob") None (Some "tok-carol") None None "v1")
  = Auth.protect Sample.verify Sample.db
      (mkRequest None None (Some "tok-bob") None None "v1").
Proof.
  apply (bearer_and_query_token_agree Sample.verify Sample.db "tok-bob"
           None (Some "tok-carol") None None "v1" None None None "v1");
    [discriminate | reflexivity].
Defined.

(** X10. [optionalAuth] attaches a user only when [protect] would admit the
    request as that user, and it does so whenever [protect] admits a
    request on the strength of its header; a token in the query string
    alone, which [protect] accepts, attaches nobody. *)
Theorem optionalAuth_agrees_with_protect verify db req :
  (forall u, AuthMore.optionalAuth verify db req = Some u ->
     Auth.protect verify db req = inr u)
  /\ (forall u, Js.truthy (AuthMore.headerToken req) = true ->
        Auth.protect verify db req = inr u ->
        AuthMore.optionalAuth verify db req = Some u)
  /\ (authorization req = None ->
      AuthMore.optionalAuth verify db req = None).
Proof.
  split; [|split].
  - intros u H. unfold AuthMore.optionalAuth in H.
    unfold Auth.protect. rewrite requestToken_headerToken.
    destruct (AuthMore.headerToken req) as [t|]; [|discriminate].
    destruct (Js.truthy (Some t)) eqn:Ht; [|discriminate].
    cbn [negb andb]. rewrite Ht.
    destruct (verify t) as [id|]; [|discriminate].
    rewrite H. reflexivity.
  - intros u Ht H. unfold AuthMore.optionalAuth.
    unfold Auth.protect in H. rewrite requestToken_headerToken in H.
    rewrite Ht in H. cbn [negb andb] in H.
    destruct (AuthMore.headerToken req) as [t|]; [|discriminate].
    rewrite Ht in *.
    destruct (verify t) as [id|]; [|discriminate].
    destruct (findUserById db id) as [u'|]; [|discriminate].
    injection H as ->. reflexivity.
  - intros H. unfold AuthMore.optionalAuth, AuthMore.headerToken.
    rewrite H. reflexivity.
Qed.

Lemma optionalAuth_agrees_with_protect_witness :
  Auth.protect Sample.verify Sample.db (Sample.bearer "tok-bob" "v1")
  = inr (mkUser "bob")
  /\ AuthMore.optionalAuth Sample.verify Sample.db
       (Sample.request (Some "tok-bob") "v1" None None None) = None.
Proof.
  destruct (optionalAuth_agrees_with_protect Sample.verify Sample.db
              (Sample.bearer "tok-bob" "v1")) as (H1 & _ & _).
  destruct (optionalAuth_agrees_with_protect Sample.verify Sample.db
              (Sample.request (Some "tok-bob") "v1" None None None))
    as (_ & _ & H3).
  split; [apply H1; reflexivity | apply H3; reflexivity].
Defined.

End GateSpec.

(** ** Stored file names and pages *)

Module HelpersSpec.
Import Helpers.

Lemma isDash_eq (c : ascii) : isDash c = true -> c = "-"%char.
Proof. apply Ascii.eqb_eq. Qed.

Lemma lowerChar_clean (c : ascii) : clean c = true -> lowerChar c = c.
Proof.
  destruct c as [[] [] [] [] [] [] [] []]; intros H;
    try reflexivity; vm_compute in H; discriminate.
Qed.

Lemma allChars_dashOthers (s : string) : allChars clean (dashOthers s) = true.
Proof.
  induction s as [|c s IH]; [reflexivity|].
  unfold dashOthers in *. cbn [mapChars allChars]. rewrite IH, andb_true_r.
  unfold clean. destruct (isPlain c) eqn:E; [rewrite E|]; reflexivity.
Qed.

Lemma allChars_collapse (p : ascii -> bool) (s : string) (b : bool) :
  allChars p s = true -> allChars p (collapseDashes b s) = true.
Proof.
  revert b. induction s as [|c s IH]; intros b H; [reflexivity|].
  cbn [allChars] in H. apply andb_prop in H as [Hc Hs].
  cbn [collapseDashes]. destruct (isDash c) eqn:E.
  - destruct b; [apply IH; exact Hs|].
    cbn [allChars]. rewrite (IH true Hs), andb_true_r.
    rewrite <- (isDash_eq c E). exact Hc.
  - cbn [allChars]. rewrite Hc, (IH false Hs). reflexivity.
Qed.

Lemma collapse_shape (s : string) (b : bool) :
  noDoubleDash (collapseDashes b s) = true
  /\ (b = true -> startsWithDash (collapseDashes b s) = false).
Proof.
  revert b. induction s as [|c s IH]; intros b; [split; reflexivity|].
  cbn [collapseDashes]. destruct (isDash c) eqn:E.
  - destruct (IH true) as (Hn & Hs). specialize (Hs eq_refl).
    destruct b.
    + split; [exact Hn|intros _; exact Hs].
    + split; [|discriminate].
      cbn [noDoubleDash].
      destruct (collapseDashes true s) as [|d r] eqn:Er; [reflexivity|].
      cbn [startsWithDash] in Hs. rewrite Hs, andb_false_r. exact Hn.
  - destruct (IH false) as (Hn & _).
    split; [|intros _; cbn [startsWithDash]; exact E].
    cbn [noDoubleDash].
    destruct (collapseDashes false s) as [|d r] eqn:Er; [reflexivity|].
    rewrite E. exact Hn.
Qed.

Lemma noDoubleDash_tail (c : ascii) (s : string) :
  noDoubleDash (String c s) = true -> noDoubleDash s = true.
Proof.
  cbn [noDoubleDash]. destruct s as [|d r]; [reflexivity|].
  intros H. apply andb_prop in H as [_ H]. exact H.
Qed.

Lemma stripLeading_shape (s : string) :
  allChars clean s = true -> noDoubleDash s = true ->
  allChars clean (stripLeadingDash s) = true
  /\ noDoubleDash (stripLeadingDash s) = true
  /\ startsWithDash (stripLeadingDash s) = false.
Proof.
  intros Ha Hn. destruct s as [|c s]; [repeat split|].
  cbn [stripLeadingDash]. destruct (isDash c) eqn:E.
  - cbn [allChars] in Ha. apply andb_prop in Ha as [_ Ha].
    split; [exact Ha|]. split; [exact (noDoubleDash_tail c s Hn)|].
    destruct s as [|d r]; [reflexivity|].
    cbn [noDoubleDash] in Hn. rewrite E in Hn. cbn [andb] in Hn.
    apply andb_prop in Hn as [Hd _]. cbn [startsWithDash].
    apply negb_true_iff. exact Hd.
  - split; [exact Ha|]. split; [exact Hn|exact E].
Qed.

Lemma stripTrailing_shape (s : string) :
  allChars clean s = true -> noDoubleDash s = true ->
  allChars clean (stripTrailingDash s) = true
  /\ noDoubleDash (stripTrailingDash s) = true
  /\ (startsWithDash s = false -> startsWithDash (stripTrailingDash s) = false)
  /\ endsWithDash (stripTrailingDash s) = false.
Proof.
  induction s as [|c s IH]; intros Ha Hn; [repeat split|].
  cbn [allChars] in Ha. apply andb_prop in Ha as [Hc Ha].
  pose proof (noDoubleDash_tail c s Hn) as Hn'.
  destruct (IH Ha Hn') as (I1 & I2 & I3 & I4).
  destruct s as [|d r].
  - cbn [stripTrailingDash]. destruct (isDash c) eqn:E.
    + repeat split.
    + cbn [allChars noDoubleDash startsWithDash endsWithDash].
      rewrite Hc, E. repeat split.
  - change (stripTrailingDash (String c (String d r)))
      with (String c (stripTrailingDash (String d r))).
    cbn [allChars]. rewrite Hc, I1.
    split; [reflexivity|].
    cbn [noDoubleDash] in Hn. apply andb_prop in Hn as [Hcd _].
    destruct (stripTrailingDash (String d r)) as [|d' r'] eqn:Es.
    + split; [reflexivity|]. split; [intros H; exact H|].
      (* the tail was a single dash: [c] is not one *)
      cbn [endsWithDash].
      destruct r as [|x r0].
      * cbn [stripTrailingDash] in Es.
        destruct (isDash d) eqn:Ed; [|discriminate].
        rewrite andb_true_r in Hcd. apply negb_true_iff. exact Hcd.
      * change (stripTrailingDash (String d (String x r0)))
          with (String d (stripTrailingDash (String x r0))) in Es.
        discriminate.
    + assert (Hd' : d' = d).
      { destruct r as [|x r0].
        - cbn [stripTrailingDash] in Es. destruct (isDash d); [discriminate|].
          injection Es as <- _. reflexivity.
        - change (stripTrailingDash (String d (String x r0)))
            with (String d (stripTrailingDash (String x r0))) in Es.
          injection Es as <- _. reflexivity. }
      subst d'.
      split; [cbn [noDoubleDash]; rewrite Hcd; exact I2|].
      split; [intros H; exact H|].
      exact I4.
Qed.

Lemma sanitized_shape (filename : string) :
  allChars clean (sanitizeFilename filename) = true
  /\ noDoubleDash (sanitizeFilename filename) = true
  /\ startsWithDash (sanitizeFilename filename) = false
  /\ endsWithDash (sanitizeFilename filename) = false.
Proof.
  unfold sanitizeFilename.
  set (s2 := dashOthers (mapChars lowerChar filename)).
  pose proof (allChars_dashOthers (mapChars lowerChar filename)) as A2.
  fold s2 in A2.
  pose proof (allChars_collapse clean s2 false A2) as A3.
  destruct (collapse_shape s2 false) as (N3 & _).
  destruct (stripLeading_shape _ A3 N3) as (A4 & N4 & L4).
  destruct (stripTrailing_shape _ A4 N4) as (A5 & N5 & L5 & T5).
  split; [exact A5|]. split; [exact N5|]. split; [exact (L5 L4)|exact T5].
Qed.

(** X11. Whatever the uploaded file is called, the name it is stored under
    consists of the characters [a-z], [0-9], [.] and [-] only, has no two
    dashes in a row, and neither begins nor ends with a dash. *)
Theorem sanitizeFilename_shape (filename : string) :
  allChars clean (sanitizeFilename filename) = true
  /\ noDoubleDash (sanitizeFilename filename) = true
  /\ startsWithDash (sanitizeFilename filename) = false
  /\ endsWithDash (sanitizeFilename filename) = false.
Proof.
  unfold sanitizeFilename.
  pose proof (allChars_dashOthers (mapChars lowerChar filename)) as A2.
  set (s2 := dashOthers (mapChars lowerChar filename)) in *.
  pose proof (allChars_collapse clean s2 false A2) as A3.
  destruct (collapse_shape s2 false) as (N3 & _).
  destruct (stripLeading_shape _ A3 N3) as (A4 & N4 & L4).
  destruct (stripTrailing_shape _ A4 N4) as (A5 & N5 & L5 & T5).
  split; [exact A5|]. split; [exact N5|]. split; [exact (L5 L4)|exact T5].
Qed.

Lemma mapChars_lower_clean (s : string) :
  allChars clean s = true -> mapChars lowerChar s = s.
Proof.
  induction s as [|c s IH]; intros H; [reflexivity|].
  cbn [allChars] in H. apply andb_prop in H as [Hc Hs].
  cbn [mapChars]. rewrite (lowerChar_clean c Hc), (IH Hs). reflexivity.
Qed.

Lemma dashOthers_clean (s : string) :
  allChars clean s = true -> dashOthers s = s.
Proof.
  induction s as [|c s IH]; intros H; [reflexivity|].
  cbn [allChars] in H. apply andb_prop in H as [Hc Hs].
  unfold dashOthers in *. cbn [mapChars]. rewrite (IH Hs).
  unfold clean in Hc. destruct (isPlain c); [reflexivity|].
  cbn [orb] in Hc. rewrite (isDash_eq c Hc). reflexivity.
Qed.

Lemma collapse_clean (s : string) (b : bool) :
  noDoubleDash s = true -> (b = true -> startsWithDash s = false) ->
  collapseDashes b s = s.
Proof.
  revert b. induction s as [|c s IH]; intros b Hn Hb; [reflexivity|].
  pose proof (noDoubleDash_tail c s Hn) as Hn'.
  cbn [collapseDashes]. destruct (isDash c) eqn:E.
  - destruct b; [specialize (Hb eq_refl); cbn [startsWithDash] in Hb;
                 congruence|].
    pose proof (isDash_eq c E) as Hc. subst c.
    f_equal. apply IH; [exact Hn'|].
    intros _. destruct s as [|d r]; [reflexivity|].
    cbn [noDoubleDash] in Hn. rewrite E in Hn. cbn [andb] in Hn.
    apply andb_prop in Hn as [Hd _]. apply negb_true_iff. exact Hd.
  - f_equal. apply IH; [exact Hn'|discriminate].
Qed.

Lemma stripLeading_clean (s : string) :
  startsWithDash s = false -> stripLeadingDash s = s.
Proof.
  destruct s as [|c s]; [reflexivity|]. cbn [startsWithDash stripLeadingDash].
  intros ->. reflexivity.
Qed.

Lemma stripTrailing_clean (s : string) :
  endsWithDash s = false -> stripTrailingDash s = s.
Proof.
  induction s as [|c s IH]; [reflexivity|].
  destruct s as [|d r].
  - cbn [endsWithDash stripTrailingDash]. intros ->. reflexivity.
  - intros H.
    change (stripTrailingDash (String c (String d r)))
      with (String c (stripTrailingDash (String d r))).
    f_equal. apply IH. exact H.
Qed.

Lemma sanitizeFilename_clean (name : string) :
  allChars clean name = true ->
  noDoubleDash name = true -> startsWithDash name = false ->
  endsWithDash name = false ->
  sanitizeFilename name = name.
Proof.
  intros A N L T. unfold sanitizeFilename.
  rewrite (mapChars_lower_clean name A), (dashOthers_clean name A).
  rewrite (collapse_clean name false N) by discriminate.
  rewrite (stripLeading_clean name L). apply stripTrailing_clean, T.
Qed.

(** X12. Sanitizing a name twice is sanitizing it once: a stored name is
    stored under itself. *)
Theorem sanitizeFilename_idempotent (filename : string) :
  sanitizeFilename (sanitizeFilename filename) = sanitizeFilename filename.
Proof.
  destruct (sanitized_shape filename) as (A & N & L & T).
  apply sanitizeFilename_clean; assumption.
Qed.

Lemma parseOr_usable (fallback : Z) (v : option string) :
  fallback <> 0 ->
  parseOr fallback v <> Js.NaN /\ parseOr fallback v <> Js.Int 0.
Proof.
  intros Hf. unfold parseOr. destruct v as [s|].
  - destruct (Js.parseInt (Some s)) as [|z| |];
      [split; congruence| |split; discriminate|split; discriminate].
    destruct z; split; congruence.
  - split; congruence.
Qed.

Lemma ceiling_bounds (total l : Z) :
  1 <= l ->
  (- ((- total) / l) - 1) * l < total <= - ((- total) / l) * l.
Proof.
  intros Hl.
  pose proof (Z.div_mod (- total) l ltac:(lia)) as E.
  pose proof (Z.mod_pos_bound (- total) l ltac:(lia)) as B.
  nia.
Qed.

Lemma ceiling_unique (v : Q) (c : Z) :
  (inject_Z (c - 1) < v)%Q -> (v <= inject_Z c)%Q -> Qceiling v = c.
Proof.
  intros Hlo Hhi.
  pose proof (Qle_ceiling v) as H1. pose proof (Qceiling_lt v) as H2.
  assert (A : (inject_Z (c - 1) < inject_Z (Qceiling v))%Q) by lra.
  assert (B : (inject_Z (Qceiling v - 1) < inject_Z c)%Q) by lra.
  rewrite <- Zlt_Qlt in A, B. lia.
Qed.

(** The quotient of a count of items and a limit, both safe integers,
    reaches [Math.ceil] close enough to the exact quotient: the number of
    pages is the ceiling of the exact quotient. *)
Lemma pagesOf_exact (total l : Z) :
  0 <= total <= Js.MAX_SAFE_INTEGER -> 1 <= l <= Js.MAX_SAFE_INTEGER ->
  pagesOf total l = Js.Int (- ((- total) / l)).
Proof.
  intros Ht Hl.
  assert (Hmax : Js.MAX_SAFE_INTEGER = 9007199254740991) by reflexivity.
  rewrite Hmax in Ht, Hl.
  pose proof (Z.div_mod total l ltac:(lia)) as E.
  pose proof (Z.mod_pos_bound total l ltac:(lia)) as B.
  pose proof (ceiling_bounds total l ltac:(lia)) as Hc.
  set (c := - ((- total) / l)) in *.
  set (k := total / l) in *. set (rem := total mod l) in *.
  assert (Hk : 0 <= k <= 9007199254740991) by nia.
  set (q := (inject_Z total / inject_Z l)%Q).
  set (T := inject_Z total). set (L := inject_Z l).
  set (K := inject_Z k). set (R := inject_Z rem).
  assert (HL : (1 <= L)%Q)
    by (unfold L; change 1%Q with (inject_Z 1); rewrite <- Zle_Qle; lia).
  assert (HLmax : (L <= 9007199254740991 # 1)%Q)
    by (unfold L; change (9007199254740991 # 1)%Q
          with (inject_Z 9007199254740991); rewrite <- Zle_Qle; lia).
  assert (HT : (0 <= T <= 9007199254740991 # 1)%Q).
  { unfold T. change (9007199254740991 # 1)%Q
      with (inject_Z 9007199254740991). change 0%Q with (inject_Z 0).
    rewrite <- !Zle_Qle. lia. }
  assert (HR : (0 <= R)%Q /\ (R < L)%Q).
  { unfold R, L. change 0%Q with (inject_Z 0).
    rewrite <- Zle_Qle, <- Zlt_Qlt. lia. }
  assert (HqL : (q * L == T)%Q).
  { unfold q. fold T L. rewrite Qmult_comm. apply Qmult_div_r. lra. }
  assert (HT' : (T == K * L + R)%Q).
  { unfold T, K, L, R. rewrite <- inject_Z_mult, <- inject_Z_plus.
    rewrite E at 1. rewrite (Z.mul_comm l k). reflexivity. }
  assert (Hlow : (K <= q)%Q).
  { apply (Qmult_le_r _ _ L); [lra|]. rewrite HqL. lra. }
  assert (Hhigh : (q <= inject_Z (k + 1))%Q).
  { rewrite inject_Z_plus. fold K. change (inject_Z 1) with 1%Q.
    apply (Qmult_le_r _ _ L); [lra|]. rewrite HqL.
    setoid_replace ((K + 1) * L)%Q with (K * L + L)%Q by ring. lra. }
  destruct (IeeeFacts.round_integer k ltac:(lia)) as (vk & Rk & Ek).
  destruct (IeeeFacts.round_integer (k + 1) ltac:(lia)) as (vk1 & Rk1 & Ek1).
  pose proof (IeeeFacts.round_mono (inject_Z k) q Hlow) as M1.
  pose proof (IeeeFacts.round_mono q (inject_Z (k + 1)) Hhigh) as M2.
  assert (Hq0 : (0 <= q)%Q).
  { apply Qle_trans with K; [|exact Hlow].
    unfold K. change 0%Q with (inject_Z 0). rewrite <- Zle_Qle. lia. }
  pose proof (IeeeFacts.round_nonneg q Hq0) as Herr.
  unfold pagesOf. fold q. fold K in Ek. rewrite Rk in M1. rewrite Rk1 in M2.
  rewrite inject_Z_plus in Ek1. fold K in Ek1.
  change (inject_Z 1) with 1%Q in Ek1.
  destruct (Ieee.round q) as [v|[|]] eqn:Rq; cbn [Ieee.leReal] in M1, M2;
    try contradiction.
  destruct Herr as (_ & _ & Herr).
  f_equal.
  destruct (Z.eq_dec rem 0) as [Z0|NZ].
  - (* the limit divides the count *)
    assert (Hcz : c = k) by nia.
    assert (Hq : (q <= K)%Q).
    { apply (Qmult_le_r _ _ L); [lra|]. rewrite HqL, HT'.
      unfold R. rewrite Z0. change (inject_Z 0) with 0%Q. lra. }
    pose proof (IeeeFacts.round_mono q (inject_Z k) Hq) as M3.
    rewrite Rk, Rq in M3. cbn [Ieee.leReal] in M3.
    rewrite Hcz. apply ceiling_unique.
    + unfold Z.sub. rewrite inject_Z_plus. fold K.
      change (inject_Z (- (1))) with (- (1))%Q. lra.
    + fold K. lra.
  - (* a last page that is not full *)
    assert (Hcz : c = k + 1) by nia.
    assert (HR1 : (1 <= R)%Q).
    { unfold R. change 1%Q with (inject_Z 1). rewrite <- Zle_Qle. lia. }
    rewrite Hcz. apply ceiling_unique.
    + replace (k + 1 - 1) with k by ring. fold K.
      destruct (Qlt_le_dec K v) as [Hgt|Hle]; [exact Hgt|exfalso].
      pose proof IeeeFacts.tiny_tiny as (Heta0 & Heta).
      pose proof IeeeFacts.ulp_exact as HU.
      set (eta := Ieee.TINY) in *. set (U := Ieee.ULP53) in *.
      assert (X : ((q - (q * U + eta)) * L <= K * L)%Q).
      { apply Qmult_le_compat_r; lra. }
      setoid_replace ((q - (q * U + eta)) * L)%Q
        with (q * L - (q * L) * U - eta * L)%Q in X by ring.
      rewrite HqL in X.
      assert (Y : (eta * L <= eta * (9007199254740991 # 1))%Q).
      { rewrite !(Qmult_comm eta). apply Qmult_le_compat_r; lra. }
      rewrite HU in X. lra.
    + rewrite inject_Z_plus. fold K. change (inject_Z 1) with 1%Q. lra.
Qed.

(** X13. The page and the limit a listing works with are never [NaN] and
    never zero, whatever the query says; and for a positive page [p] of
    positive length [l] and a count of items, all safe integers like the
    product [(p - 1) * l], the database skips [(p - 1) * l] entries, the
    pages are just enough to hold every item, a next page is announced
    exactly when items remain beyond the entries of this page, and a
    previous page exactly when entries were skipped. *)
Theorem paginate_window (pageArg limitArg : option string) :
  (page (paginate pageArg limitArg) <> Js.NaN
   /\ page (paginate pageArg limitArg) <> Js.Int 0
   /\ limit (paginate pageArg limitArg) <> Js.NaN
   /\ limit (paginate pageArg limitArg) <> Js.Int 0)
  /\ forall (total p l : Z),
       page (paginate pageArg limitArg) = Js.Int p ->
       limit (paginate pageArg limitArg) = Js.Int l ->
       1 <= p <= Js.MAX_SAFE_INTEGER -> 1 <= l <= Js.MAX_SAFE_INTEGER ->
       0 <= total <= Js.MAX_SAFE_INTEGER ->
       (p - 1) * l <= Js.MAX_SAFE_INTEGER ->
       let r := paginateResponse total p l in
       skip (paginate pageArg limitArg) = Js.Int ((p - 1) * l)
       /\ (exists pages,
             totalPages r = Js.Int pages
             /\ (pages - 1) * l < total <= pages * l)
       /\ (hasNext r = true <-> (p - 1) * l + l < total)
       /\ (hasPrev r = true <-> 0 < (p - 1) * l).
Proof.
  split.
  - unfold paginate. cbn [page limit].
    destruct (parseOr_usable 1 pageArg ltac:(lia)) as (H1 & H2).
    destruct (parseOr_usable 12 limitArg ltac:(lia)) as (H3 & H4).
    repeat split; assumption.
  - intros total p l Hp Hl Hp1 Hl1 Ht Hsafe r.
    unfold paginate in *. cbn [page limit skip] in *.
    rewrite Hp, Hl. unfold skipOf, minusOne.
    assert (Hmax : Js.MAX_SAFE_INTEGER < 2 ^ 53) by reflexivity.
    rewrite IeeeFacts.number_exact by lia.
    rewrite IeeeFacts.number_exact by nia.
    split; [reflexivity|].
    pose proof (ceiling_bounds total l ltac:(lia)) as Hc.
    unfold r, paginateResponse. cbn [totalPages hasNext hasPrev].
    rewrite (pagesOf_exact total l Ht Hl1). cbn [lessThan].
    split; [eexists; split; [reflexivity|exact Hc]|]. split.
    + rewrite Z.ltb_lt. nia.
    + rewrite Z.ltb_lt. nia.
Qed.

Lemma paginate_window_witness :
  skip (paginate (Some "2") (Some "5")) = Js.Int 5
  /\ hasNext (paginateResponse 11 2 5) = true
  /\ hasNext (paginateResponse 10 2 5) = false.
Proof.
  destruct (paginate_window (Some "2") (Some "5")) as (_ & H).
  destruct (H 11 2 5) as (H1 & _ & H2 & _);
    [reflexivity | reflexivity
    | split; [lia | vm_compute; discriminate]
    | split; [lia | vm_compute; discriminate]
    | split; [lia | vm_compute; discriminate]
    | vm_compute; discriminate |].
  destruct (H 10 2 5) as (_ & _ & H3 & _);
    [reflexivity | reflexivity
    | split; [lia | vm_compute; discriminate]
    | split; [lia | vm_compute; discriminate]
    | split; [lia | vm_compute; discriminate]
    | vm_compute; discriminate |].
  split; [exact H1|]. split; [apply H2; lia|].
  apply not_true_is_false. intros E. apply H3 in E. lia.
Defined.

End HelpersSpec.

(** ** From the player's requests to the stored file *)

Module DeliverySpec.
Import Errors Store Http VideoController.

Lemma segment_request_admitted verify db (tok id vid : string) user a b :
  tok <> "" -> verify tok = Some id -> findUserById db id = Some user ->
  Auth.protect verify db (Api.getSegmentUrl (Some tok) vid a b) = inr user.
Proof.
  intros Hne Hv Hu.
  apply (ServerSpec.protect_valid verify db _ tok id user);
    [|exact Hne|exact Hv|exact Hu].
  destruct tok as [|c t]; [congruence|]. reflexivity.
Qed.

Lemma segment_request_served verify db (tok id vid : string) user r a b :
  tok <> "" -> verify tok = Some id -> findUserById db id = Some user ->
  resolveVideoResource db vid user = inr r ->
  0 <= a <= b -> b < fileSize r -> b < Js.DOUBLE_OVERFLOW ->
  serve verify OpSegment db (Api.getSegmentUrl (Some tok) vid a b)
  = Streamed 206 (partialHead (video r) a b (fileSize r))
             (Reading (slice (file r) a b)).
Proof.
  intros Hne Hv Hu Hr Hab Hb Hbig.
  pose proof (segment_request_admitted verify db tok id vid user a b
                Hne Hv Hu) as Hp.
  rewrite (ServerSpec.serve_segment_resolved verify db _ user r Hp)
    by exact Hr.
  unfold Api.getSegmentUrl. cbn [query_start query_end].
  rewrite !Z.max_r by lia.
  assert (0 < Js.DOUBLE_OVERFLOW) by reflexivity.
  rewrite !JsFacts.parseInt_toString by lia.
  rewrite ServerSpec.segmentWindow_exact by lia. cbn [fst snd].
  rewrite ServerSpec.createReadStream_in_range by lia. reflexivity.
Qed.

Lemma fetchSegment_bytes verify db (tok id vid : string) user r a b :
  tok <> "" -> verify tok = Some id -> findUserById db id = Some user ->
  resolveVideoResource db vid user = inr r ->
  0 <= a <= b -> b < fileSize r -> b < Js.DOUBLE_OVERFLOW ->
  Transport.fetchSegment verify db (Some tok) vid a b
  = Some (slice (file r) a b).
Proof.
  intros Hne Hv Hu Hr Hab Hb Hbig. unfold Transport.fetchSegment.
  rewrite (segment_request_served verify db tok id vid user r a b)
    by assumption.
  reflexivity.
Qed.

(** X14. The URL the player builds for the bytes [a] to [b] of a video it may
    watch is answered with exactly those bytes: the numbers survive the
    query string, and [fetchSegment] resolves with the window of the
    stored file. *)
Theorem segment_url_served_exactly verify db (tok id vid : string) user r a b :
  tok <> "" -> verify tok = Some id -> findUserById db id = Some user ->
  resolveVideoResource db vid user = inr r ->
  0 <= a <= b -> b < fileSize r -> b < Js.DOUBLE_OVERFLOW ->
  serve verify OpSegment db (Api.getSegmentUrl (Some tok) vid a b)
  = Streamed 206 (partialHead (video r) a b (fileSize r))
             (Reading (slice (file r) a b))
  /\ Transport.fetchSegment verify db (Some tok) vid a b
     = Some (slice (file r) a b)
  /\ Z.of_nat (List.length (slice (file r) a b)) = b - a + 1
  /\ forall i, 0 <= i <= b - a ->
       nth_error (slice (file r) a b) (Z.to_nat i)
       = nth_error (file r) (Z.to_nat (a + i)).
Proof.
  intros Hne Hv Hu Hr Hab Hb Hbig.
  split; [apply (segment_request_served verify db tok id vid user);
          assumption|].
  split; [apply (fetchSegment_bytes verify db tok id vid user); assumption|].
  split.
  - apply ServerSpec.slice_length; [lia|].
    rewrite <- (ServerSpec.resolve_fileSize _ _ _ _ Hr). lia.
  - intros i Hi. apply ServerSpec.slice_nth; lia.
Qed.

Lemma segment_url_served_exactly_witness :
  Transport.fetchSegment Sample.verify Sample.db (Some "tok-bob") "v1" 2 5
  = Some (slice Sample.introBytes 2 5).
Proof.
  destruct (segment_url_served_exactly Sample.verify Sample.db
              "tok-bob" "bob" "v1" (mkUser "bob") Sample.introResource 2 5)
    as (_ & H & _);
    [discriminate | reflexivity | reflexivity | reflexivity
    | lia | simpl; lia | vm_compute; reflexivity | ].
  exact H.
Defined.

Lemma contiguous_le (rs : list (Z * Z)) (p size : Z) :
  Player.contiguous p size rs -> p <= size.
Proof.
  revert p. induction rs as [|[a b] rest IH]; intros p H.
  - cbn in H. lia.
  - cbn in H. destruct H as (-> & Hab & Hrest). apply IH in Hrest. lia.
Qed.

Lemma slice_then_rest (bytes : list Byte.byte) (a b : Z) :
  0 <= a <= b ->
  (slice bytes a b ++ skipn (Z.to_nat (b + 1)) bytes)%list
  = skipn (Z.to_nat a) bytes.
Proof.
  intros Hab. unfold slice.
  replace (Z.to_nat (b + 1))
    with (Z.to_nat (b - a + 1) + Z.to_nat a)%nat by lia.
  rewrite <- skipn_skipn. apply firstn_skipn.
Qed.

Lemma fetchAll_contiguous verify db (tok id vid : string) user r :
  tok <> "" -> verify tok = Some id -> findUserById db id = Some user ->
  resolveVideoResource db vid user = inr r ->
  fileSize r < Js.DOUBLE_OVERFLOW ->
  forall (rs : list (Z * Z)) (p : Z),
    0 <= p -> Player.contiguous p (fileSize r) rs ->
    Transport.fetchAll verify db (Some tok) vid rs
    = Some (skipn (Z.to_nat p) (file r)).
Proof.
  intros Hne Hv Hu Hr Hbig.
  pose proof (ServerSpec.resolve_fileSize _ _ _ _ Hr) as Hsz.
  induction rs as [|[a b] rest IH]; intros p Hp Hc.
  - cbn in Hc. cbn [Transport.fetchAll]. f_equal. symmetry.
    apply skipn_all2. lia.
  - cbn in Hc. destruct Hc as (-> & Hab & Hrest).
    pose proof (contiguous_le _ _ _ Hrest) as Hle.
    cbn [Transport.fetchAll].
    rewrite (fetchSegment_bytes verify db tok id vid user r p b)
      by (try assumption; lia).
    rewrite (IH (b + 1)) by (try assumption; lia).
    f_equal. apply slice_then_rest. lia.
Qed.

(** X15. The buffers of requests that follow one another from byte [p] to the
    last byte of the file, appended in the order of the requests, are the
    stored file from byte [p] on: nothing is lost or doubled between the
    player's requests and the stored file. *)
Theorem download_reassembles_file verify db (tok id vid : string) user r
    (rs : list (Z * Z)) (p : Z) :
  tok <> "" -> verify tok = Some id -> findUserById db id = Some user ->
  resolveVideoResource db vid user = inr r ->
  fileSize r < Js.DOUBLE_OVERFLOW ->
  0 <= p -> Player.contiguous p (fileSize r) rs ->
  exists bytes,
    Transport.fetchAll verify db (Some tok) vid rs = Some bytes
    /\ bytes = skipn (Z.to_nat p) (file r)
    /\ Z.of_nat (List.length bytes) = fileSize r - p
    /\ (p = 0 -> bytes = file r).
Proof.
  intros Hne Hv Hu Hr Hbig Hp Hc.
  pose proof (ServerSpec.resolve_fileSize _ _ _ _ Hr) as Hsz.
  pose proof (contiguous_le _ _ _ Hc) as Hle.
  exists (skipn (Z.to_nat p) (file r)).
  split; [exact (fetchAll_contiguous verify db tok id vid user r
                   Hne Hv Hu Hr Hbig rs p Hp Hc)|].
  split; [reflexivity|]. split.
  - rewrite length_skipn. lia.
  - intros ->. reflexivity.
Qed.

Lemma download_reassembles_file_witness :
  Transport.fetchAll Sample.verify Sample.db (Some "tok-bob") "v1"
    [(0, 3); (4, 9)]
  = Some Sample.introBytes.
Proof.
  destruct (download_reassembles_file Sample.verify Sample.db
              "tok-bob" "bob" "v1" (mkUser "bob") Sample.introResource
              [(0, 3); (4, 9)] 0)
    as (bytes & H & _ & _ & H0);
    [discriminate | reflexivity | reflexivity | reflexivity
    | vm_compute; reflexivity | lia | simpl; repeat split; lia | ].
  rewrite H, (H0 eq_refl). reflexivity.
Defined.

Lemma metadata_request_admitted verify db (tok id vid : string) user :
  tok <> "" ->
  Helpers.allChars (fun x => negb (Ascii.eqb x " ")) tok = true ->
  verify tok = Some id -> findUserById db id = Some user ->
  Auth.protect verify db (Api.getMetadata (Some tok) vid) = inr user.
Proof.
  intros Hne Hsp Hv Hu.
  apply (ServerSpec.protect_valid verify db _ tok id user);
    [|exact Hne|exact Hv|exact Hu].
  unfold Api.getMetadata. rewrite (GateSpec.truthy_nonempty tok Hne).
  rewrite GateSpec.requestToken_headerToken.
  rewrite (GateSpec.headerToken_bearer tok) by exact Hsp.
  rewrite (GateSpec.truthy_nonempty tok Hne). reflexivity.
Qed.

(** X16. The size the metadata endpoint reports is the length of the stored
    file, so the chunks the player cuts from it are the right ones: it asks
    for the metadata with its token in the header, asks for each chunk with
    the token in the URL, and the buffers it appends are, in order, the
    whole file. *)
Theorem metadata_then_download verify db (tok id vid : string) user r :
  tok <> "" ->
  Helpers.allChars (fun x => negb (Ascii.eqb x " ")) tok = true ->
  verify tok = Some id -> findUserById db id = Some user ->
  resolveVideoResource db vid user = inr r ->
  1 <= fileSize r -> fileSize r < Js.DOUBLE_OVERFLOW ->
  exists m,
    serve verify OpMetadata db (Api.getMetadata (Some tok) vid) = JsonOk m
    /\ meta_size m = Z.of_nat (List.length (file r))
    /\ Transport.fetchAll verify db (Some tok) vid
         (Player.chunkRanges (meta_size m))
       = Some (file r).
Proof.
  intros Hne Hsp Hv Hu Hr Hsize Hbig.
  pose proof (metadata_request_admitted verify db tok id vid user
                Hne Hsp Hv Hu) as Hp.
  assert (Hid : param_videoId (Api.getMetadata (Some tok) vid) = vid).
  { unfold Api.getMetadata. reflexivity. }
  eexists. split.
  - unfold serve. rewrite Hp. cbn [handler]. unfold getVideoMetadata.
    rewrite Hid, Hr. reflexivity.
  - cbn [meta_size].
    split; [exact (ServerSpec.resolve_fileSize _ _ _ _ Hr)|].
    destruct (PlayerSpec.chunkCount_ceiling (fileSize r) Hsize)
      as (Hn & Hlo & Hhi).
    rewrite (fetchAll_contiguous verify db tok id vid user r
               Hne Hv Hu Hr Hbig (Player.chunkRanges (fileSize r)) 0);
      [reflexivity|lia|].
    apply (PlayerSpec.chunkRanges_contiguous (fileSize r)
             (Player.chunkCount (fileSize r)) 0%nat); assumption.
Qed.

Lemma metadata_then_download_witness :
  exists m,
    serve Sample.verify OpMetadata Sample.db
          (Api.getMetadata (Some "tok-bob") "v1") = JsonOk m
    /\ meta_size m = 10
    /\ Transport.fetchAll Sample.verify Sample.db (Some "tok-bob") "v1"
         (Player.chunkRanges (meta_size m))
       = Some Sample.introBytes.
Proof.
  destruct (metadata_then_download Sample.verify Sample.db
              "tok-bob" "bob" "v1" (mkUser "bob") Sample.introResource)
    as (m & H1 & H2 & H3);
    [discriminate | reflexivity | reflexivity | reflexivity | reflexivity
    | simpl; lia | vm_compute; reflexivity | ].
  exists m. split; [exact H1|]. split; [exact H2|exact H3].
Defined.

End DeliverySpec.

(** ** The stream controller between sessions *)

Module SessionSpec.
Import Player Lifecycle.

Ltac break_step H :=
  repeat match type of H with
         | context [match ?x with _ => _ end] =>
             let E := fresh "E" in destruct x eqn:E; cbn in H
         end.

Lemma direct_append (s : Session) :
  useMediaSource s = false -> appendNextChunk s = (s, []).
Proof. intros H. unfold appendNextChunk. rewrite H. reflexivity. Qed.

Lemma direct_step (e : Event) (s s' : Session) acts :
  useMediaSource s = false -> step e s = Some (s', acts) ->
  useMediaSource s' = false /\ fetches acts = []
  /\ forall v, ~ In (FetchMetadata v) acts.
Proof.
  intros Hu Hstep.
  destruct s as [uMS cv ve du ms sb fs cp fe ps cl hs vl er fl].
  cbn in Hu. subst uMS.
  destruct e as [v|size dur sup| |ok|i ok| |t r]; cbn in Hstep;
    unfold initializeStream, fallbackToDirectStream, handleSourceOpen,
      appendNextChunk, resumeAppend, fragmentFailed,
      handleSourceBufferUpdateEnd, handleFragmentedSeek,
      clearSourceBufferForSeek, cleanupMediaSource, endOfStream in Hstep;
    cbn in Hstep; break_step Hstep; try discriminate;
    injection Hstep as <- <-; cbn;
    (split; [reflexivity|split; [reflexivity|]]);
    intros v0 H; cbn in H; intuition discriminate.
Qed.

Lemma direct_run (es : list Event) :
  forall (s s' : Session) acts,
    useMediaSource s = false -> run es s = Some (s', acts) ->
    useMediaSource s' = false /\ fetches acts = []
    /\ forall v, ~ In (FetchMetadata v) acts.
Proof.
  induction es as [|e es IH]; intros s s' acts Hu Hrun.
  - cbn in Hrun. injection Hrun as <- <-.
    split; [exact Hu|]. split; [reflexivity|]. intros v [].
  - cbn [run] in Hrun.
    destruct (step e s) as [[s1 acts1]|] eqn:Hstep; [|discriminate].
    destruct (run es s1) as [[s2 acts2]|] eqn:Hrest; [|discriminate].
    injection Hrun as <- <-.
    destruct (direct_step e s s1 acts1 Hu Hstep) as (Hu1 & Hf1 & Hm1).
    destruct (IH s1 s2 acts2 Hu1 Hrest) as (Hu2 & Hf2 & Hm2).
    split; [exact Hu2|]. split.
    + rewrite PlayerSpec.fetches_app, Hf1, Hf2. reflexivity.
    + intros v Hin. apply in_app_or in Hin as [Hin|Hin];
        [exact (Hm1 v Hin)|exact (Hm2 v Hin)].
Qed.

Lemma fallback_rendered (e : Event) (s s1 : Session) acts1 (v : string) :
  fallsBack e = true -> useMediaSource s = true ->
  videoElement s = true -> currentVideoId s = Some v -> v <> "" ->
  stepRendered e s = Some (s1, acts1) ->
  useMediaSource s1 = false /\ acts1 = [LoadDirect v; LoadDirect v]
  /\ sourceBuffer s1 = None /\ mediaSource s1 = None
  /\ isVideoLoading s1 = true /\ videoError s1 = None.
Proof.
  intros He Hu Hve Hcv Hv Hstep.
  destruct s as [uMS cv ve du ms sb fs cp fe ps cl hs vl er fl].
  cbn in Hu, Hve, Hcv. subst uMS ve cv.
  destruct v as [|c v']; [congruence|].
  unfold stepRendered in Hstep.
  destruct e as [v0|size dur sup| |ok|i ok| |t r]; try discriminate;
    cbn in He; try (apply negb_true_iff in He; subst);
    destruct ms as [[| |]|]; vm_compute in Hstep; try discriminate;
    injection Hstep as <- <-; repeat split.
Qed.

(** X17. When the player falls back to the direct stream (the metadata
    request failed, the type is not supported, or the source buffer could
    not be created), the render that follows runs the stream effect again:
    the direct stream URL of the current video is loaded twice, and the
    player is left loading, without error and without media source.  From
    then on, whatever happens and whichever video is selected, it never
    asks for metadata or for a segment again, and no event turns
    [useMediaSource] back on or causes another such render. *)
Theorem fallback_is_final (e : Event) (s s1 : Session) acts1 (v : string) :
  fallsBack e = true -> useMediaSource s = true ->
  videoElement s = true -> currentVideoId s = Some v -> v <> "" ->
  stepRendered e s = Some (s1, acts1) ->
  useMediaSource s1 = false /\ acts1 = [LoadDirect v; LoadDirect v]
  /\ sourceBuffer s1 = None /\ mediaSource s1 = None
  /\ isVideoLoading s1 = true /\ videoError s1 = None
  /\ forall es s' acts,
       run es s1 = Some (s', acts) ->
       useMediaSource s' = false /\ fetches acts = []
       /\ (forall v', ~ In (FetchMetadata v') acts)
       /\ forall e', stepRendered e' s' = step e' s'.
Proof.
  intros He Hu Hve Hcv Hv Hstep.
  destruct (fallback_rendered e s s1 acts1 v He Hu Hve Hcv Hv Hstep)
    as (H1 & H2 & H3 & H4 & H5 & H6).
  repeat (split; [assumption|]).
  intros es s' acts Hrun.
  destruct (direct_run es s1 s' acts H1 Hrun) as (Hu' & Hf & Hm).
  split; [exact Hu'|]. split; [exact Hf|]. split; [exact Hm|].
  intros e'. unfold stepRendered. rewrite Hu'.
  destruct (step e' s') as [[s2 a2]|]; reflexivity.
Qed.

Lemma fallback_is_final_witness :
  exists s1 s acts,
    stepRendered MetadataFailed (freshSession "v1")
    = Some (s1, [LoadDirect "v1"; LoadDirect "v1"])
    /\ run [SelectVideo "v2"; Seeking (1 # 1) Cleared] s1 = Some (s, acts)
    /\ fetches acts = [] /\ useMediaSource s = false.
Proof.
  destruct (stepRendered MetadataFailed (freshSession "v1"))
    as [[s1 a1]|] eqn:E; [|vm_compute in E; discriminate].
  destruct (fallback_is_final MetadataFailed (freshSession "v1") s1 a1
              "v1" eq_refl eq_refl eq_refl eq_refl ltac:(discriminate) E)
    as (Hu & Ha & _ & _ & _ & _ & Hall).
  destruct (run [SelectVideo "v2"; Seeking (1 # 1) Cleared] s1)
    as [[s2 a2]|] eqn:R.
  - destruct (Hall _ s2 a2 R) as (Hu2 & Hf & _).
    exists s1, s2, a2. rewrite Ha.
    split; [reflexivity|]. split; [exact R|]. split; [exact Hf|exact Hu2].
  - exfalso. vm_compute in E. injection E as <- <-.
    vm_compute in R. discriminate.
Defined.

(** X18. When a segment request fails in the middle of a download, the error is
    shown, the position in the file is kept, and the download stays
    stopped: nothing retries the request, and the only events the player
    still reacts to are a seek and the selection (or reload) of a video. *)
Theorem failed_fetch_halts_download (v : string) (size p : Z) (s : Session) :
  Streaming v size p s ->
  exists s1,
    step (FetchDone 0 false) s = Some (s1, [])
    /\ videoError s1
       = Some "Failed to fetch video fragment. Please try again."
    /\ isVideoLoading s1 = false /\ isFetchingChunk s1 = false
    /\ chunkPointer s1 = p /\ inFlight s1 = []
    /\ forall e s2 acts,
         step e s1 = Some (s2, acts) ->
         (exists v', e = SelectVideo v') \/ (exists t r, e = Seeking t r).
Proof.
  intros HS.
  destruct s as [uMS cv ve du ms sb fs cp fe ps cl hs vl er fl].
  unfold Streaming in HS. cbn in HS.
  destruct HS as (-> & -> & -> & -> & -> & -> & -> & -> & ->).
  eexists. split; [reflexivity|]. cbn.
  repeat (split; [reflexivity|]).
  intros e s2 acts Hstep.
  destruct e as [v0|size0 dur sup| |ok|i ok| |t r]; cbn in Hstep;
    try discriminate.
  - left. eexists; reflexivity.
  - destruct i; discriminate.
  - right. eexists; eexists; reflexivity.
Qed.

Lemma failed_fetch_halts_download_witness :
  exists s acts s1,
    run [MetadataLoaded 5000000 (600 # 1) true; SourceOpen true]
        (freshSession "v1") = Some (s, acts)
    /\ step (FetchDone 0 false) s = Some (s1, [])
    /\ step UpdateEnd s1 = None
    /\ chunkPointer s1 = 0.
Proof.
  destruct (run [MetadataLoaded 5000000 (600 # 1) true; SourceOpen true]
                (freshSession "v1")) as [[s acts]|] eqn:Hrun;
    [|vm_compute in Hrun; discriminate].
  assert (HS : Streaming "v1" 5000000 0 s).
  { vm_compute in Hrun. injection Hrun as <- <-.
    unfold Streaming. cbn. repeat split. }
  destruct (failed_fetch_halts_download "v1" 5000000 0 s HS)
    as (s1 & Hstep & _ & _ & _ & Hp & _ & Honly).
  exists s, acts, s1. split; [reflexivity|]. split; [exact Hstep|].
  split; [|exact Hp].
  destruct (step UpdateEnd s1) as [[s2 a2]|] eqn:E; [|reflexivity].
  destruct (Honly UpdateEnd s2 a2 E) as [(v' & H)|(t & r & H)];
    discriminate.
Defined.

(** X19. Selecting a video, or reloading the current one, starts its download
    at byte 0 whatever state the previous stream was left in: the
    metadata is asked for, and when the source opens the first request is
    for the first chunk. *)
Theorem select_restarts_at_zero (s : Session) (v : string) (size : Z) (dur : Q) :
  useMediaSource s = true -> videoElement s = true ->
  v <> "" -> 1 <= size ->
  exists s',
    run (restart v size dur) s
    = Some (s', [FetchMetadata v;
                 Fetch v 0 (Z.min (STREAM_CHUNK_SIZE - 1) (size - 1))])
    /\ currentVideoId s' = Some v /\ fileSize s' = size
    /\ chunkPointer s' = 0 /\ pendingSeekByte s' = None
    /\ isClearingBuffer s' = false /\ isFetchingChunk s' = true
    /\ videoError s' = None /\ isVideoLoading s' = true.
Proof.
  intros Hu Hve Hv Hsize.
  destruct s as [uMS cv ve du ms sb fs cp fe ps cl hs vl er fl].
  cbn in Hu, Hve. subst uMS ve.
  destruct v as [|c v']; [congruence|].
  destruct size as [|p|p]; try lia.
  destruct (run (restart (String c v') (Z.pos p) dur) _)
    as [[s' acts]|] eqn:Hrun; vm_compute in Hrun; [|discriminate].
  injection Hrun as <- <-.
  eexists. split; [reflexivity|]. repeat split.
Qed.

Lemma select_restarts_at_zero_witness :
  exists s acts s',
    run seekDuringFetch (freshSession "v1") = Some (s, acts)
    /\ run (restart "v1" 120000000 (600 # 1)) s
       = Some (s', [FetchMetadata "v1"; Fetch "v1" 0 2097151])
    /\ chunkPointer s' = 0.
Proof.
  destruct (run seekDuringFetch (freshSession "v1")) as [[s acts]|] eqn:Hrun;
    [|vm_compute in Hrun; discriminate].
  assert (H : useMediaSource s = true /\ videoElement s = true).
  { vm_compute in Hrun. injection Hrun as <- <-. split; reflexivity. }
  destruct H as (Hu & Hve).
  destruct (select_restarts_at_zero s "v1" 120000000 (600 # 1) Hu Hve)
    as (s' & Hr & _ & _ & Hp & _); [discriminate | lia |].
  exists s, acts, s'. split; [reflexivity|]. split; [exact Hr|exact Hp].
Defined.

Lemma stale_step (e : Event) (s s' : Session) acts :
  stale e = true ->
  sourceBuffer s = None -> mediaSource s = None -> fileSize s = 0 ->
  step e s = Some (s', acts) ->
  acts = [] /\ sourceBuffer s' = None /\ mediaSource s' = None
  /\ fileSize s' = 0 /\ chunkPointer s' = chunkPointer s.
Proof.
  intros He Hsb Hms Hfs Hstep.
  destruct s as [uMS cv ve du ms sb fs cp fe ps cl hs vl er fl].
  cbn in Hsb, Hms, Hfs. subst sb ms fs.
  destruct e as [v0|size0 dur sup| |ok|i ok| |t r]; try discriminate;
    cbn in Hstep;
    unfold resumeAppend, fragmentFailed, handleFragmentedSeek in Hstep;
    cbn in Hstep; rewrite ?orb_true_r in Hstep;
    break_step Hstep; try discriminate;
    injection Hstep as <- <-; repeat split.
Qed.

(** X20. After the stream was cleaned up (the page is left, or the stream is
    about to be set up again), nothing that still arrives touches it: a
    segment that comes back late is dropped without being appended, the
    position stays at 0, and no request is issued. *)
Theorem nothing_after_cleanup (es : list Event) (s s' : Session) acts :
  forallb stale es = true ->
  run es (cleanupMediaSource s) = Some (s', acts) ->
  acts = [] /\ sourceBuffer s' = None /\ mediaSource s' = None
  /\ chunkPointer s' = 0.
Proof.
  intros Hes Hrun.
  assert (G : forall es (s0 s1 : Session) acts0,
             forallb stale es = true ->
             sourceBuffer s0 = None -> mediaSource s0 = None ->
             fileSize s0 = 0 ->
             run es s0 = Some (s1, acts0) ->
             acts0 = [] /\ sourceBuffer s1 = None /\ mediaSource s1 = None
             /\ chunkPointer s1 = chunkPointer s0).
  { clear. induction es as [|e es IH]; intros s0 s1 acts0 Hes H1 H2 H3 Hrun.
    - cbn in Hrun. injection Hrun as <- <-. repeat split; assumption.
    - cbn [forallb] in Hes. apply andb_prop in Hes as [He Hes].
      cbn [run] in Hrun.
      destruct (step e s0) as [[sa aa]|] eqn:Hstep; [|discriminate].
      destruct (run es sa) as [[sb ab]|] eqn:Hrest; [|discriminate].
      injection Hrun as <- <-.
      destruct (stale_step e s0 sa aa He H1 H2 H3 Hstep)
        as (-> & J1 & J2 & J3 & J4).
      destruct (IH sa sb ab Hes J1 J2 J3 Hrest) as (-> & K1 & K2 & K3).
      repeat split; try assumption. congruence. }
  destruct (G es (cleanupMediaSource s) s' acts Hes eq_refl eq_refl eq_refl
              Hrun) as (Ha & Hb & Hm & Hp).
  repeat split; assumption.
Qed.

Lemma nothing_after_cleanup_witness :
  exists s acts s',
    run [MetadataLoaded 5000000 (600 # 1) true; SourceOpen true]
        (freshSession "v1") = Some (s, acts)
    /\ inFlight s = [("v1", 0, 2097151)]
    /\ run [FetchDone 0 true; Seeking (300 # 1) Cleared]
           (cleanupMediaSource s) = Some (s', [])
    /\ chunkPointer s' = 0.
Proof.
  destruct (run [MetadataLoaded 5000000 (600 # 1) true; SourceOpen true]
                (freshSession "v1")) as [[s acts]|] eqn:Hrun;
    [|vm_compute in Hrun; discriminate].
  destruct (run [FetchDone 0 true; Seeking (300 # 1) Cleared]
                (cleanupMediaSource s)) as [[s' acts']|] eqn:Hlate.
  - destruct (nothing_after_cleanup
                [FetchDone 0 true; Seeking (300 # 1) Cleared] s s' acts'
                eq_refl Hlate)
      as (-> & _ & _ & Hp).
    exists s, acts, s'. split; [reflexivity|].
    split; [|split; [exact Hlate|exact Hp]].
    vm_compute in Hrun. injection Hrun as <- <-. reflexivity.
  - exfalso. vm_compute in Hrun. injection Hrun as <- <-.
    vm_compute in Hlate. discriminate.
Defined.

Lemma single_flight_within_session_witness :
  exists s acts,
    run (seekDuringFetch ++ [UpdateEnd; FetchDone 0 true; UpdateEnd])
        (freshSession "v1") = Some (s, acts)
    /\ (List.length (inFlight s) <= 1)%nat.
Proof.
  destruct (run (seekDuringFetch ++ [UpdateEnd; FetchDone 0 true; UpdateEnd])
                (freshSession "v1")) as [[s acts]|] eqn:Hrun;
    [|vm_compute in Hrun; discriminate].
  exists s, acts. split; [reflexivity|].
  apply (PlayerSpec.single_flight_within_session
           (seekDuringFetch ++ [UpdateEnd; FetchDone 0 true; UpdateEnd])
           eq_refl (freshSession "v1") s acts);
    [apply PlayerSpec.reachable_Inv, reach_fresh | reflexivity | exact Hrun].
Defined.

End SessionSpec.

(** ** Seeking and the rest of the download *)

Module DownloadSpec.
Import Player Lifecycle.

(** X21. The byte a seek resumes at, for a file of at most [2 ^ 51]
    bytes: it is byte 0 for a position at or before the start of the
    video, the last byte of the file for a position at its end or beyond,
    always a byte of the file, for a position inside the video at most
    one off the byte the exact quotient gives, and it never decreases when
    the position grows. *)
Theorem seek_target_follows_time (size : Z) (d : Q) :
  1 <= size <= 2 ^ 51 -> (0 < d)%Q ->
  (forall t, (t <= 0)%Q -> targetByte size t d = 0)
  /\ (forall t, (d <= t)%Q -> targetByte size t d = size - 1)
  /\ (forall t, 0 <= targetByte size t d <= size - 1)
  /\ (forall t, (0 <= t <= d)%Q ->
       let exact :=
         Z.min (size - 1) (Z.max 0 (Qfloor (inject_Z size * t / d))) in
       exact - 1 <= targetByte size t d <= exact + 1)
  /\ forall t1 t2, (t1 <= t2)%Q ->
       targetByte size t1 d <= targetByte size t2 d.
Proof.
  intros Hs Hd. split; [|split; [|split; [|split]]].
  - intros t Ht. apply SeekFacts.targetByte_start; [lia|exact Hd|exact Ht].
  - intros t Ht. apply SeekFacts.targetByte_end; [exact Hs|exact Hd|exact Ht].
  - intros t. apply SeekFacts.targetByte_bounds. lia.
  - intros t Ht. apply SeekFacts.targetByte_near_exact; assumption.
  - intros t1 t2 Ht. apply SeekFacts.targetByte_mono; [lia|exact Hd|exact Ht].
Qed.

Lemma seek_target_follows_time_witness :
  targetByte 120000000 (700 # 1) (600 # 1) = 119999999
  /\ targetByte 120000000 (41 # 1) (600 # 1) = 8199999
  /\ Qfloor (inject_Z 120000000 * (41 # 1) / (600 # 1)) = 8200000.
Proof.
  destruct (seek_target_follows_time 120000000 (600 # 1))
    as (_ & H2 & _ & _ & _); [split; [lia|vm_compute; discriminate]
                         | reflexivity |].
  split; [apply H2; discriminate|]. split; vm_compute; reflexivity.
Defined.

(** [n] rounds from the request for the chunk at [p], when [n] chunks are
    left. *)
Lemma download_from (v : string) (size : Z) (n : nat) :
  v <> "" ->
  forall (p : Z) (s : Session),
    Streaming v size p s -> 0 <= p < size ->
    (Z.of_nat n - 1) * STREAM_CHUNK_SIZE < size - p ->
    size - p <= Z.of_nat n * STREAM_CHUNK_SIZE ->
    exists s' acts,
      run (rounds n) s = Some (s', acts)
      /\ contiguous p size
           ((p, Z.min (p + STREAM_CHUNK_SIZE - 1) (size - 1)) :: fetches acts)
      /\ In EndOfStream acts
      /\ chunkPointer s' = size /\ mediaSource s' = Some Ended
      /\ isFetchingChunk s' = false /\ inFlight s' = [].
Proof.
  intros Hv. induction n as [|n IH]; intros p s HS Hp Hlo Hhi;
    [unfold STREAM_CHUNK_SIZE in *; lia|].
  unfold rounds. cbn [repeat List.concat]. fold (rounds n).
  rewrite PlayerSpec.run_app.
  destruct (PlayerSpec.download_round v size p s HS Hv Hp) as (Hmore & Hlast).
  destruct n as [|m].
  - destruct Hlast as (s' & Hrun & H1 & H2 & H3 & H4);
      [unfold STREAM_CHUNK_SIZE in *; lia|].
    rewrite Hrun. cbn [rounds repeat List.concat run].
    exists s'. eexists. split; [reflexivity|].
    split; [|split; [right; left; reflexivity|repeat split; assumption]].
    cbn. unfold STREAM_CHUNK_SIZE in *. lia.
  - destruct Hmore as (s1 & Hrun & HS1);
      [unfold STREAM_CHUNK_SIZE in *; lia|].
    rewrite Hrun.
    assert (Enext : Z.min (p + STREAM_CHUNK_SIZE - 1) (size - 1) + 1
                    = p + STREAM_CHUNK_SIZE)
      by (unfold STREAM_CHUNK_SIZE in *; lia).
    rewrite Enext in HS1.
    destruct (IH (p + STREAM_CHUNK_SIZE) s1 HS1)
      as (s' & acts & Hrest & Hc & He & Hfin);
      [unfold STREAM_CHUNK_SIZE in *; lia
      |unfold STREAM_CHUNK_SIZE in *; lia
      |unfold STREAM_CHUNK_SIZE in *; lia|].
    rewrite Hrest. exists s'. eexists. split; [reflexivity|].
    split; [|split; [apply in_or_app; right; exact He|exact Hfin]].
    rewrite PlayerSpec.fetches_app. cbn [fetches flat_map app].
    cbn [contiguous]. split; [reflexivity|].
    split; [unfold STREAM_CHUNK_SIZE in *; lia|].
    rewrite !Enext. exact Hc.
Qed.

Lemma seek_step (v : string) (t du : Q) (b : bool) (fs cp : Z)
    (ps : option Z) (hs vl : bool) (er : option string) :
  (0 < du)%Q -> 1 <= fs ->
  step (Seeking t Cleared)
    (mkSession true (Some v) true du (Some Open) (Some b) fs cp false ps
               false hs vl er [])
  = Some (mkSession true (Some v) true du (Some Open) (Some true) fs cp false
                    (Some (targetByte fs t du)) true false true er [], []).
Proof.
  intros Hd Hsize. unfold step. cbn [videoElement].
  unfold handleFragmentedSeek.
  cbn [useMediaSource videoElement duration fileSize negb orb].
  destruct (Qle_bool du 0) eqn:Hq;
    [apply Qle_bool_iff in Hq; exfalso; exact (Qlt_not_le _ _ Hd Hq)|].
  destruct (Z.eqb_spec fs 0) as [|_]; [lia|]. reflexivity.
Qed.

Lemma cleared_step (v : string) (du : Q) (fs cp tgt : Z)
    (er : option string) :
  v <> "" -> 0 <= tgt <= fs - 1 ->
  step UpdateEnd
    (mkSession true (Some v) true du (Some Open) (Some true) fs cp false
               (Some tgt) true false true er [])
  = Some (mkSession true (Some v) true du (Some Open) (Some false) fs tgt true
                    None false false true er
                    [(v, tgt, Z.min (tgt + STREAM_CHUNK_SIZE - 1) (fs - 1))],
          [Fetch v tgt (Z.min (tgt + STREAM_CHUNK_SIZE - 1) (fs - 1))]).
Proof.
  intros Hv Hin. destruct v as [|c v']; [congruence|].
  unfold step, handleSourceBufferUpdateEnd, appendNextChunk. cbn.
  destruct (Z.eqb_spec fs 0) as [|_]; [lia|].
  destruct (Z.leb_spec fs tgt); [lia|]. reflexivity.
Qed.

Lemma seek_reaches_streaming (s : Session) (v : string) (t : Q) :
  Settled v s -> v <> "" -> (0 < duration s)%Q -> 1 <= fileSize s ->
  exists s2,
    run [Seeking t Cleared; UpdateEnd] s
    = Some (s2, [Fetch v (targetByte (fileSize s) t (duration s))
                   (Z.min (targetByte (fileSize s) t (duration s)
                           + STREAM_CHUNK_SIZE - 1) (fileSize s - 1))])
    /\ Streaming v (fileSize s) (targetByte (fileSize s) t (duration s)) s2
    /\ pendingSeekByte s2 = None.
Proof.
  intros HS Hv Hd Hsize.
  assert (Hin : 0 <= targetByte (fileSize s) t (duration s) <= fileSize s - 1)
    by (apply SeekFacts.targetByte_bounds; lia).
  destruct s as [uMS cv ve du ms sb fs cp fe ps cl hs vl er fl].
  unfold Settled in HS.
  cbn [useMediaSource currentVideoId videoElement duration mediaSource
       sourceBuffer fileSize isFetchingChunk isClearingBuffer inFlight]
    in HS, Hd, Hsize, Hin |- *.
  destruct HS as (-> & -> & -> & Hsb & -> & -> & -> & ->).
  destruct sb as [b|]; [clear Hsb|congruence].
  cbn [run].
  rewrite (seek_step v t du b fs cp ps hs vl er Hd Hsize).
  rewrite (cleared_step v du fs cp _ er Hv Hin).
  eexists. split; [reflexivity|].
  unfold Streaming.
  cbn [useMediaSource currentVideoId videoElement duration mediaSource
       sourceBuffer fileSize chunkPointer isFetchingChunk isClearingBuffer
       inFlight pendingSeekByte].
  repeat split.
Qed.

(** X22. A seek made while the player waits for nothing makes it download the
    rest of the file and nothing else: once the buffer is emptied the
    requests start at the byte of the new position, follow one another
    without gap or overlap up to the last byte of the file, and the stream
    is ended. *)
Theorem seek_then_download_covers_rest (s : Session) (v : string) (t : Q) :
  Settled v s -> v <> "" -> (0 < duration s)%Q ->
  1 <= fileSize s <= Js.MAX_SAFE_INTEGER ->
  let size := fileSize s in
  let target := targetByte size t (duration s) in
  exists s' acts,
    run (seekAndResume t (chunkCount (size - target))) s = Some (s', acts)
    /\ contiguous target size (fetches acts)
    /\ 0 <= target <= size - 1
    /\ In EndOfStream acts
    /\ chunkPointer s' = size /\ mediaSource s' = Some Ended
    /\ isFetchingChunk s' = false /\ inFlight s' = [].
Proof.
  intros HS Hv Hd (Hsize & _) size target.
  assert (Hin : 0 <= target <= size - 1)
    by (unfold target; apply SeekFacts.targetByte_bounds; lia).
  destruct (seek_reaches_streaming s v t HS Hv Hd Hsize)
    as (s2 & Hrun2 & HS2 & _).
  fold size in Hrun2, HS2. fold target in Hrun2, HS2.
  destruct (PlayerSpec.chunkCount_ceiling (size - target) ltac:(lia))
    as (_ & Hlo & Hhi).
  destruct (download_from v size (chunkCount (size - target)) Hv target s2 HS2
              ltac:(lia) Hlo Hhi)
    as (s' & acts & Hrun & Hc & He & Hfin).
  exists s'. eexists. split.
  - unfold seekAndResume.
    change (Seeking t Cleared :: UpdateEnd
              :: rounds (chunkCount (size - target)))
      with ([Seeking t Cleared; UpdateEnd]
              ++ rounds (chunkCount (size - target)))%list.
    rewrite PlayerSpec.run_app, Hrun2, Hrun. reflexivity.
  - split; [exact Hc|]. split; [exact Hin|].
    split; [right; exact He|exact Hfin].
Qed.

Lemma seek_then_download_covers_rest_witness :
  exists s acts s' acts',
    run [MetadataLoaded 5000000 (600 # 1) true; SourceOpen true;
         FetchDone 0 true] (freshSession "v1") = Some (s, acts)
    /\ run (seekAndResume (300 # 1) 2) s = Some (s', acts')
    /\ fetches acts' = [(2500000, 4597151); (4597152, 4999999)]
    /\ chunkPointer s' = 5000000.
Proof.
  destruct (run [MetadataLoaded 5000000 (600 # 1) true; SourceOpen true;
                 FetchDone 0 true] (freshSession "v1"))
    as [[s acts]|] eqn:Hrun; [|vm_compute in Hrun; discriminate].
  assert (H : Settled "v1" s /\ (0 < duration s)%Q /\ fileSize s = 5000000
              /\ duration s = (600 # 1)).
  { vm_compute in Hrun. injection Hrun as <- <-.
    unfold Settled. cbn. repeat split; congruence. }
  destruct H as (HS & Hd & Hsz & Hdu).
  destruct (seek_then_download_covers_rest s "v1" (300 # 1) HS)
    as (s' & acts' & Hr & Hc & _ & _ & Hp & _);
    [discriminate | exact Hd
    | rewrite Hsz; split; [lia | vm_compute; discriminate] |].
  rewrite Hsz in Hp. rewrite Hsz, Hdu in Hr, Hc.
  change (targetByte 5000000 (300 # 1) (600 # 1)) with 2500000 in Hr, Hc.
  change (chunkCount (5000000 - 2500000)) with 2%nat in Hr.
  exists s, acts, s', acts'. split; [reflexivity|]. split; [exact Hr|].
  split; [|exact Hp].
  clear -Hr Hrun. vm_compute in Hrun. injection Hrun as <- <-.
  vm_compute in Hr. injection Hr as <- <-. reflexivity.
Defined.

End DownloadSpec.

(** ** Moving between the videos of a course *)

Module NavigationSpec.
Import Navigation.

Lemma findIndex_nth (id : string) (l : list string) :
  forall i, findIndex id l = Some i -> nth_error l i = Some id.
Proof.
  induction l as [|v l IH]; intros i H; [discriminate|].
  cbn [findIndex] in H. destruct (String.eqb_spec v id) as [->|_].
  - injection H as <-. reflexivity.
  - destruct (findIndex id l) as [j|]; [|discriminate].
    injection H as <-. cbn [nth_error]. apply IH. reflexivity.
Qed.

Lemma findIndex_of_nth (id : string) (l : list string) :
  NoDup l -> forall i, nth_error l i = Some id -> findIndex id l = Some i.
Proof.
  induction l as [|v l IH]; intros Hnd i H; [destruct i; discriminate|].
  inversion Hnd as [|? ? Hnotin Hnd']; subst.
  cbn [findIndex]. destruct i as [|i].
  - injection H as ->. rewrite String.eqb_refl. reflexivity.
  - cbn [nth_error] in H.
    destruct (String.eqb_spec v id) as [->|_].
    + exfalso. apply Hnotin. exact (nth_error_In _ _ H).
    + rewrite (IH Hnd' i H). reflexivity.
Qed.

Lemma find_self (id : string) (l : list string) :
  In id l -> find (fun v => String.eqb v id) l = Some id.
Proof.
  induction l as [|v l IH]; intros H; [destruct H|].
  cbn [find]. destruct (String.eqb_spec v id) as [->|Hne]; [reflexivity|].
  destruct H as [H|H]; [congruence|exact (IH H)].
Qed.

Lemma currentVideo_member (id : string) (l : list string) :
  In id l -> id <> "" -> currentVideo l (Some id) = Some id.
Proof.
  intros Hin Hne. unfold currentVideo.
  destruct l as [|first rest]; [destruct Hin|].
  destruct id as [|c id']; [congruence|].
  cbn [Js.truthy negb]. rewrite (find_self _ _ Hin). reflexivity.
Qed.

(** X24. In a course whose videos have distinct, non-empty ids, the previous
    video of the next video is the video being shown, and the next video
    of the previous one as well: going forth and back returns to the
    same video. *)
Theorem next_and_previous_are_inverse (allVideos : list string)
    (currentVideoId : option string) :
  NoDup allVideos -> (forall v, In v allVideos -> v <> "") ->
  (forall n, nextVideo allVideos currentVideoId = Some n ->
     previousVideo allVideos (Some n) = currentVideo allVideos currentVideoId)
  /\ (forall p, previousVideo allVideos currentVideoId = Some p ->
        nextVideo allVideos (Some p) = currentVideo allVideos currentVideoId).
Proof.
  intros Hnd Hne. split.
  - intros n Hn. unfold nextVideo, currentVideoIndex in Hn.
    destruct (currentVideo allVideos currentVideoId) as [c|] eqn:Ec;
      [|discriminate].
    destruct (findIndex c allVideos) as [i|] eqn:Ei; [|discriminate].
    destruct (i <? List.length allVideos - 1)%nat; [|discriminate].
    pose proof (nth_error_In _ _ Hn) as Hin.
    unfold previousVideo, currentVideoIndex.
    rewrite (currentVideo_member n allVideos Hin (Hne n Hin)).
    rewrite (findIndex_of_nth n allVideos Hnd (S i) Hn).
    apply findIndex_nth. exact Ei.
  - intros p Hp. unfold previousVideo, currentVideoIndex in Hp.
    destruct (currentVideo allVideos currentVideoId) as [c|] eqn:Ec;
      [|discriminate].
    destruct (findIndex c allVideos) as [[|i]|] eqn:Ei; try discriminate.
    pose proof (nth_error_In _ _ Hp) as Hin.
    pose proof (findIndex_nth c allVideos (S i) Ei) as Hc.
    unfold nextVideo, currentVideoIndex.
    rewrite (currentVideo_member p allVideos Hin (Hne p Hin)).
    rewrite (findIndex_of_nth p allVideos Hnd i Hp).
    assert (Hlen : (S i < List.length allVideos)%nat)
      by (apply nth_error_Some; congruence).
    destruct (Nat.ltb_spec i (List.length allVideos - 1)); [|lia].
    exact Hc.
Qed.

Lemma next_and_previous_are_inverse_witness :
  previousVideo ["intro"; "setup"; "proofs"] (Some "setup") = Some "intro"
  /\ nextVideo ["intro"; "setup"; "proofs"] (Some "setup") = Some "proofs".
Proof.
  assert (Hnd : NoDup ["intro"; "setup"; "proofs"]).
  { repeat constructor; cbn; intuition discriminate. }
  assert (Hne : forall v, In v ["intro"; "setup"; "proofs"] -> v <> "").
  { intros v H. cbn in H. intuition (subst; discriminate). }
  destruct (next_and_previous_are_inverse ["intro"; "setup"; "proofs"] None
              Hnd Hne) as (H1 & _).
  destruct (next_and_previous_are_inverse ["intro"; "setup"; "proofs"]
              (Some "proofs") Hnd Hne) as (_ & H2).
  split; [apply (H1 "setup")|apply (H2 "setup")]; reflexivity.
Defined.

End NavigationSpec.
